(** * n-ary Huffman labelling: the [huffman] package of abhinav/huffman-go

    A shallow embedding of [huffman.go], of the part of Go's
    [container/heap] it calls and of the helpers of [huffman_test.go],
    followed by the properties of [Label].

    Conventions of the embedding.
    - [int] is 64 bits wide. A frequency is an integer kept in the
      two's-complement range by [wrap64]; the sum [freq += child.Freq]
      wraps around as it does in Go.
    - Lengths, slice indices, loop counters and hop counts are bounded by the
      size of the node pool; they are kept as [nat] or [Z] and are not wrapped.
    - A pointer [*node] into the pool [nodes] is the index of its slot; the
      pool is one list shared by the heap and by the tree links, so a write
      through [child] is a write to the pool.
    - A panic is a value of [error]; a loop is a [Fixpoint] on a budget that
      is charged only when the loop goes round again, and a spent budget is
      the separate error [OutOfFuel]. *)

From Stdlib Require Import ZArith Lia.
From stdpp Require Import base tactics option numbers list.

#[local] Open Scope Z_scope.

(** ** Results and panics *)

Inductive error : Type :=
| InvalidArgument   (* panic("alphabet must have at least two elements") *)
| IndexOutOfRange   (* runtime panic: slice index out of range *)
| MakeSliceRange    (* runtime panic: makeslice: len or cap out of range *)
| OutOfFuel.        (* the budget of a loop of the embedding was spent *)

Inductive result (A : Type) : Type :=
| Ok (a : A)
| Err (e : error).
Arguments Ok {A} a.
Arguments Err {A} e.

Definition rbind {A B} (m : result A) (k : A -> result B) : result B :=
  match m with
  | Ok a => k a
  | Err e => Err e
  end.

#[global] Instance result_bind : MBind result := fun A B k m => rbind m k.
#[global] Instance result_ret : MRet result := fun A a => Ok a.

(** [s[i]] for a slice [s] and a non-negative index. *)
Definition get {A} (s : list A) (i : nat) : result A :=
  match s !! i with
  | Some x => Ok x
  | None => Err IndexOutOfRange
  end.

(** [s[i]] for an [int] index, which may be negative. *)
Definition getZ {A} (s : list A) (i : Z) : result A :=
  if i <? 0 then Err IndexOutOfRange else get s (Z.to_nat i).

(** [s[i] = x]. *)
Definition set {A} (s : list A) (i : nat) (x : A) : result (list A) :=
  if decide (i < length s)%nat then Ok (<[i:=x]> s) else Err IndexOutOfRange.

(** ** 64-bit integers *)

Definition wrap64 (z : Z) : Z := (z + 2 ^ 63) mod 2 ^ 64 - 2 ^ 63.

Definition int64 (z : Z) : Prop := - 2 ^ 63 <= z < 2 ^ 63.

(** ** The node pool *)

Record node : Type := mkNode {
  ParentIndex : Z;
  SiblingIndex : Z;
  TotalHops : Z;
  Freq : Z
}.

(** The zero value of [node], which [make([]node, numNodes)] fills the pool
    with. *)
Definition zero_node : node := mkNode 0 0 0 0.

(** ** [nodeHeap]: the [heap.Interface] methods

    The heap is a slice of pointers into the pool: a list of pool indices.
    [Less] reads the frequencies through the pool. *)
Module nodeHeap.

Definition Len (ns : list nat) : nat := length ns.

Definition Less (nodes : list node) (ns : list nat) (i j : nat) : result bool :=
  pi ← get ns i;
  pj ← get ns j;
  ni ← get nodes pi;
  nj ← get nodes pj;
  Ok (Freq ni <? Freq nj).

Definition Swap (ns : list nat) (i j : nat) : result (list nat) :=
  pi ← get ns i;
  pj ← get ns j;
  Ok (<[j:=pi]> (<[i:=pj]> ns)).

Definition Push (ns : list nat) (e : nat) : list nat := ns ++ [e].

(** [n := len(ns) - 1; v := ns[n]; ns = ns[:n]; return v], on the slice
    behind the pointer receiver. *)
Definition Pop (ns : list nat) : result (list nat * nat) :=
  match length ns with
  | O => Err IndexOutOfRange
  | S n => v ← get ns n; Ok (take n ns, v)
  end.

End nodeHeap.

(** [h.Less(i, j)] with the [int] indices of its signature: [ns[i]] panics
    on a negative index as on one beyond the length. [container/heap] only
    passes indices that are not negative, and is modelled on
    [nodeHeap.Less]; the two agree there. *)
Definition Less_int (nodes : list node) (ns : list nat) (i j : Z)
  : result bool :=
  pi ← getZ ns i;
  pj ← getZ ns j;
  ni ← get nodes pi;
  nj ← get nodes pj;
  Ok (Freq ni <? Freq nj).

(** ** Go's [container/heap], as [Label] uses it on a [nodeHeap]

    Indices are non-negative throughout; the parent [(j - 1) / 2] of [j = 0]
    is [0] in Go (division truncates) and in [nat] (subtraction truncates).
    The test [j1 < 0] of [down] guards against [int] overflow and has no
    counterpart here. [down] reports whether it moved the element; neither
    [Init] nor [Pop] looks at that, and it is left out. *)
Module heap.

Fixpoint up (fuel : nat) (nodes : list node) (h : list nat) (j : nat)
  : result (list nat) :=
  let i := ((j - 1) / 2)%nat in
  if decide (i = j) then Ok h else
  lt ← nodeHeap.Less nodes h j i;
  if negb (lt : bool) then Ok h else
  match fuel with
  | O => Err OutOfFuel
  | S fuel' => h' ← nodeHeap.Swap h i j; up fuel' nodes h' i
  end.

Fixpoint down (fuel : nat) (nodes : list node) (h : list nat) (i n : nat)
  : result (list nat) :=
  let j1 := (2 * i + 1)%nat in
  if decide (n <= j1)%nat then Ok h else
  lt21 ← (if decide (j1 + 1 < n)%nat
            then nodeHeap.Less nodes h (j1 + 1) j1 else Ok false);
  let j := if (lt21 : bool) then (j1 + 1)%nat else j1 in
  lt ← nodeHeap.Less nodes h j i;
  if negb (lt : bool) then Ok h else
  match fuel with
  | O => Err OutOfFuel
  | S fuel' => h' ← nodeHeap.Swap h i j; down fuel' nodes h' j n
  end.

(** [for i := n/2 - 1; i >= 0; i-- { down(h, i, n) }], with [k = i + 1]. *)
Fixpoint heapify (nodes : list node) (h : list nat) (k n : nat)
  : result (list nat) :=
  match k with
  | O => Ok h
  | S i => h' ← down n nodes h i n; heapify nodes h' i n
  end.

Definition Init (nodes : list node) (h : list nat) : result (list nat) :=
  let n := nodeHeap.Len h in
  heapify nodes h (n / 2)%nat n.

Definition Push (nodes : list node) (h : list nat) (x : nat)
  : result (list nat) :=
  let h' := nodeHeap.Push h x in
  up (nodeHeap.Len h') nodes h' (nodeHeap.Len h' - 1)%nat.

(** [n := h.Len() - 1; h.Swap(0, n); down(h, 0, n); return h.Pop()].
    On an empty heap [n = -1] and [Swap] panics. *)
Definition Pop (nodes : list node) (h : list nat) : result (list nat * nat) :=
  match nodeHeap.Len h with
  | O => Err IndexOutOfRange
  | S n =>
      h1 ← nodeHeap.Swap h 0 n;
      h2 ← down n nodes h1 0 n;
      nodeHeap.Pop h2
  end.

End heap.

(** ** The tree builder *)

(** What the closure [combine] captures and updates. *)
Record state : Type := mkState {
  nodes : list node;
  nodeHeap : list nat;
  nextNodeIdx : nat
}.

(** The loop of [combine]:
    [for i := 0; i < numChildren && len(nodeHeap) > 0; i++ { ... }].
    It returns the pool and heap, the counter [i] at exit and the sums
    [freq] and [totalHops]. The frequencies come from the caller and are
    added as Go adds [int]s, modulo [2^64]. The hop counts are added in [Z]:
    inside [Label] they count nodes of the pool and stay below [numNodes],
    where the two additions agree; what is stated of [combine] on any other
    state bounds them (see [hops64]). *)
Fixpoint pop_children (fuel : nat) (ns : list node) (h : list nat)
    (parentIdx : nat) (numChildren : Z) (i freq totalHops : Z)
  : result (list node * list nat * Z * Z * Z) :=
  if (i <? numChildren) && negb (Nat.eqb (length h) 0) then
    match fuel with
    | O => Err OutOfFuel
    | S fuel' =>
        '(h', child) ← heap.Pop ns h;
        c ← get ns child;
        let c' := mkNode (Z.of_nat parentIdx) i (TotalHops c) (Freq c) in
        ns' ← set ns child c';
        pop_children fuel' ns' h' parentIdx numChildren (i + 1)
          (wrap64 (freq + Freq c)) (totalHops + TotalHops c)
    end
  else Ok (ns, h, i, freq, totalHops).

(** One call of [combine], as seen from outside: the count it was asked to
    combine and the number of children it popped. The algorithm never reads
    this record. *)
Record combined : Type := mkCombined {
  requested : Z;
  popped : Z
}.

Definition combine (numChildren : Z) (st : state) : result (state * combined) :=
  let parentIdx := nextNodeIdx st in
  let next := S (nextNodeIdx st) in
  '(ns, h, i, freq, totalHops) ←
    pop_children (length (nodeHeap st)) (nodes st) (nodeHeap st)
      parentIdx numChildren 0 0 0;
  ns' ← set ns parentIdx (mkNode (-1) (-1) (totalHops + numChildren) freq);
  h' ← heap.Push ns' h parentIdx;
  Ok (mkState ns' h' next, mkCombined numChildren i).

(** [for len(nodeHeap) > 1 { combine(base) }], with the calls it makes. *)
Fixpoint combine_loop (fuel : nat) (base : Z) (st : state)
  : result (state * list combined) :=
  if decide (1 < length (nodeHeap st))%nat then
    match fuel with
    | O => Err OutOfFuel
    | S fuel' =>
        '(st', c) ← combine base st;
        '(st'', cs) ← combine_loop fuel' base st';
        Ok (st'', c :: cs)
    end
  else Ok (st, []).

(** [node{Freq: f, ParentIndex: -1, SiblingIndex: -1}] *)
Definition leaf (f : Z) : node := mkNode (-1) (-1) 0 f.

(** [for i, f := range freqs { nodes[i] = node{...} }], from index [i] on. *)
Fixpoint fill_leaves (ns : list node) (i : nat) (freqs : list Z)
  : result (list node) :=
  match freqs with
  | [] => Ok ns
  | f :: rest => ns' ← set ns i (leaf f); fill_leaves ns' (S i) rest
  end.

(** [Label] from [numIters] to the end of the main loop, for at least two
    items: the pool, the heap of pointers [&nodes[i]] to the leaves, the
    first combination and the loop. The second component lists the calls of
    [combine] in order. *)
Definition build (base : Z) (freqs : list Z) : result (state * list combined) :=
  let len := Z.of_nat (length freqs) in
  let numIters := Z.quot (len - 1) (base - 1) + 1 in
  let numNodes := len + numIters in
  if numNodes <? 0 then Err MakeSliceRange else
  pool ← fill_leaves (replicate (Z.to_nat numNodes) zero_node) 0 freqs;
  h ← heap.Init pool (seq 0 (length freqs));
  let st := mkState pool h (length freqs) in
  let initial := 2 + Z.rem (Z.of_nat (length (nodeHeap st)) - 2) (base - 1) in
  '(st1, cs1) ← (if 0 <? initial
                   then '(s, c) ← combine initial st; Ok (s, [c])
                   else Ok (st, []));
  '(st2, cs2) ← combine_loop (length (nodeHeap st1)) base st1;
  Ok (st2, cs1 ++ cs2).

(** ** The label extractor *)

(** [for c := n; c.ParentIndex != -1; c = nodes[c.ParentIndex] {
       labelData = append(labelData, c.SiblingIndex) }] *)
Fixpoint walk (fuel : nat) (ns : list node) (c : node) (labelData : list Z)
  : result (list Z) :=
  if ParentIndex c =? -1 then Ok labelData else
  match fuel with
  | O => Err OutOfFuel
  | S fuel' =>
      let labelData' := labelData ++ [SiblingIndex c] in
      c' ← getZ ns (ParentIndex c);
      walk fuel' ns c' labelData'
  end.

(** A slice header into [labelData]: [labelData[start:stop]]. *)
Definition span : Type := (nat * nat)%type.

Definition subslice (data : list Z) (s : span) : list Z :=
  take (snd s - fst s) (drop (fst s) data).

(** [slices.Reverse(labelData[start:])], in place. *)
Definition reverse_from (start : nat) (data : list Z) : list Z :=
  take start data ++ rev (drop start data).

(** [for idx, n := range nodes[:len(freqs)] { ... labels[idx] = label }]:
    all labels share the one buffer [labelData]; each is the part of it
    from [start] to its length at the time, kept here as a slice header and
    read from the buffer when [Label] returns. When [append] outgrows the
    capacity it moves the buffer and copies what lies below its length, and
    the labels handed out before keep the old array; the two agree on every
    such label, since nothing is written below [start] afterwards (see
    [subslice_spans]). The capacity [totalHops] matters to [make] only. *)
Fixpoint extract (ns : list node) (leaves : list node) (labelData : list Z)
    (labels : list span) : result (list Z * list span) :=
  match leaves with
  | [] => Ok (labelData, labels)
  | n :: rest =>
      let start := length labelData in
      data ← walk (length ns) ns n labelData;
      let data' := reverse_from start data in
      extract ns rest data' (labels ++ [(start, length data')])
  end.

(** ** [Label] *)

Definition Label (base : Z) (freqs : list Z) : result (list (list Z)) :=
  if base <? 2 then Err InvalidArgument else
  match freqs with
  | [] => Ok []
  | [_] => Ok [[0]]
  | _ =>
      built ← build base freqs;
      let st := fst built in
      root ← get (nodeHeap st) 0;
      rootNode ← get (nodes st) root;
      let totalHops := TotalHops rootNode in
      if totalHops <? 0 then Err MakeSliceRange else
      '(labelData, labels) ←
        extract (nodes st) (take (length freqs) (nodes st)) [] [];
      Ok (subslice labelData <$> (labels : list span))
  end.

(** ** The helpers of [huffman_test.go]

    A [rune] is an integer, a [byte] an integer in [0, 256), and a Go
    [string] the list of its bytes. *)

(** [utf8.RuneError], [U+FFFD]. *)
Definition RuneError : Z := 65533.

(** The UTF-8 encoding of a rune in three bytes. *)
Definition encode3 (r : Z) : list Z :=
  [Z.lor 224 (Z.shiftr r 12);
   Z.lor 128 (Z.land (Z.shiftr r 6) 63);
   Z.lor 128 (Z.land r 63)].

(** [string(r)] for a rune [r]: its UTF-8 encoding, and that of
    [RuneError] for a value that is no Unicode code point. *)
Definition encoderune (r : Z) : list Z :=
  if (0 <=? r) && (r <=? 127) then [r]
  else if (0 <=? r) && (r <=? 2047) then
    [Z.lor 192 (Z.shiftr r 6); Z.lor 128 (Z.land r 63)]
  else if (r <? 0) || (1114111 <? r) || ((55296 <=? r) && (r <=? 57343)) then
    encode3 RuneError
  else if r <=? 65535 then encode3 r
  else
    [Z.lor 240 (Z.shiftr r 18);
     Z.lor 128 (Z.land (Z.shiftr r 12) 63);
     Z.lor 128 (Z.land (Z.shiftr r 6) 63);
     Z.lor 128 (Z.land r 63)].

(** [string(label)] for a slice of runes. *)
Definition string_of_runes (label : list Z) : list Z :=
  concat (encoderune <$> label).

Module alphabet.

(** [len(a.items)] *)
Definition Size (items : list Z) : Z := Z.of_nat (length items).

(** [for i, idx := range indexes { label[i] = a.items[idx] }] *)
Fixpoint runes (items : list Z) (indexes : list Z) : result (list Z) :=
  match indexes with
  | [] => Ok []
  | idx :: rest =>
      r ← getZ items idx;
      label ← runes items rest;
      Ok (r :: label)
  end.

Definition Label (items : list Z) (indexes : list Z) : result (list Z) :=
  label ← runes items indexes;
  Ok (string_of_runes label).

(** [for i, idxes := range indexes { labels[i] = a.Label(idxes) }] *)
Fixpoint Labels (items : list Z) (indexes : list (list Z))
  : result (list (list Z)) :=
  match indexes with
  | [] => Ok []
  | idxes :: rest =>
      label ← Label items idxes;
      labels ← Labels items rest;
      Ok (label :: labels)
  end.

End alphabet.

(** [strings.HasPrefix(s, prefix)]:
    [len(s) >= len(prefix) && s[:len(prefix)] == prefix]. *)
Definition HasPrefix (s prefix : list Z) : bool :=
  (length prefix <=? length s)%nat
  && bool_decide (take (length prefix) s = prefix).

(** The first loop of [assertLabelInvariants]: no label is empty
    ([assert.NotEmpty]) and none was seen before ([assert.NotContains]). *)
Fixpoint seen_loop (seen : list (list Z)) (labels : list (list Z)) : bool :=
  match labels with
  | [] => true
  | label :: rest =>
      if bool_decide (label = []) then false else
      if bool_decide (label ∈ seen) then false else
      seen_loop (seen ++ [label]) rest
  end.

(** The inner loop of the second: [right_] runs through [labels] from index
    [j] on. *)
Fixpoint prefix_inner (i : nat) (left_ : list Z) (j : nat)
    (rights : list (list Z)) : bool :=
  match rights with
  | [] => true
  | right_ :: rest =>
      if Nat.eqb i j then prefix_inner i left_ (S j) rest else
      if HasPrefix left_ right_ then false else
      prefix_inner i left_ (S j) rest
  end.

(** The outer loop: [left_] runs through [labels] from index [i] on. *)
Fixpoint prefix_outer (labels : list (list Z)) (i : nat)
    (lefts : list (list Z)) : bool :=
  match lefts with
  | [] => true
  | left_ :: rest =>
      if negb (prefix_inner i left_ 0 labels) then false else
      prefix_outer labels (S i) rest
  end.

(** [assertLabelInvariants(t, numItems, labels)]: whether every assertion
    holds. *)
Definition assertLabelInvariants (numItems : Z) (labels : list (list Z))
  : bool :=
  if negb (Z.of_nat (length labels) =? numItems) then false else
  if negb (seen_loop [] labels) then false else
  prefix_outer labels 0 labels.

(** * Vocabulary of the proofs *)

#[global] Instance node_inhabited : Inhabited node := populate zero_node.

(** The frequency of the node in pool slot [p]. *)
Definition wt (ns : list node) (p : nat) : Z := Freq (ns !!! p).

(** The frequency of the node that heap position [i] points to. *)
Definition key (ns : list node) (h : list nat) (i : nat) : Z := wt ns (h !!! i).

(** Every pointer of the heap is a slot of the pool. *)
Definition in_pool (ns : list node) (h : list nat) : Prop :=
  Forall (fun p => (p < length ns)%nat) h.

(** Position [k] is no heavier than its children, within the first [n]. *)
Definition ordered_at (ns : list node) (h : list nat) (n k : nat) : Prop :=
  forall c, (c = 2 * k + 1 \/ c = 2 * k + 2)%nat -> (c < n)%nat ->
            key ns h k <= key ns h c.

Definition is_heap (ns : list node) (h : list nat) : Prop :=
  forall k, ordered_at ns h (length h) k.

(** The heap after [Swap(i, j)]. *)
Definition swapped (h : list nat) (i j : nat) : list nat :=
  <[j:=h !!! i]> (<[i:=h !!! j]> h).

(** The child [down] compares [i] with: the right one when it is strictly
    lighter than the left one. *)
Definition lighter_child (ns : list node) (h : list nat) (i n : nat) : nat :=
  if decide (2 * i + 2 < n)%nat then
    if key ns h (2 * i + 2) <? key ns h (2 * i + 1)
    then (2 * i + 2)%nat else (2 * i + 1)%nat
  else (2 * i + 1)%nat.

(** What the loop does to a popped child: it sets the two tree links and
    leaves the rest of the node alone. *)
Definition adopt (parentIdx : nat) (i : Z) (c : node) : node :=
  mkNode (Z.of_nat parentIdx) i (TotalHops c) (Freq c).

(** The two sums of the loop over the children [cs], from their values on
    entry. *)
Definition sum_freq (ns : list node) (freq : Z) (cs : list nat) : Z :=
  foldl (fun a c => wrap64 (a + wt ns c)) freq cs.

Definition sum_hops (ns : list node) (hops : Z) (cs : list nat) : Z :=
  foldl (fun a c => a + TotalHops (ns !!! c)) hops cs.

(** Two pools that differ in tree links only. *)
Definition same_payload (ns ns' : list node) : Prop :=
  length ns' = length ns /\
  forall p, Freq (ns' !!! p) = Freq (ns !!! p) /\
            TotalHops (ns' !!! p) = TotalHops (ns !!! p).

(** The indices, among the first [n] slots, of the nodes whose parent link
    is [p]. *)
Definition children (ns : list node) (n p : nat) : list nat :=
  filter (fun k => ParentIndex (ns !!! k) = Z.of_nat p) (seq 0 n).

(** [combine(k)] took [st] to [st'] and popped the children [cs], in that
    order. *)
Record combines (k : Z) (st : state) (cs : list nat) (st' : state) : Prop := {
  cb_count : length cs = Z.to_nat k;
  cb_heap : exists h1, nodeHeap st ≡ₚ cs ++ h1 /\
                       nodeHeap st' ≡ₚ nextNodeIdx st :: h1;
  cb_next : nextNodeIdx st' = S (nextNodeIdx st);
  cb_length : length (nodes st') = length (nodes st);
  cb_other : forall p, p ∉ cs -> p <> nextNodeIdx st ->
                       nodes st' !! p = nodes st !! p;
  cb_kids : forall j c, cs !! j = Some c ->
              nodes st' !! c
              = Some (adopt (nextNodeIdx st) (Z.of_nat j) (nodes st !!! c));
  cb_parent : nodes st' !! nextNodeIdx st
              = Some (mkNode (-1) (-1) (sum_hops (nodes st) 0 cs + k)
                        (sum_freq (nodes st) 0 cs));
  cb_is_heap : is_heap (nodes st') (nodeHeap st');
  cb_min : forall c x, c ∈ cs -> x ∈ nodeHeap st -> x ∉ cs ->
                       wt (nodes st) c <= wt (nodes st) x;
  cb_sorted : forall j1 j2 c1 c2, (j1 <= j2)%nat -> cs !! j1 = Some c1 ->
                cs !! j2 = Some c2 -> wt (nodes st) c1 <= wt (nodes st) c2
}.

(** The count of the first combination:
    [initial := 2 + (len(nodeHeap)-2)%(base-1)] with all leaves in the
    heap. *)
Definition initial_count (base : Z) (freqs : list Z) : Z :=
  2 + Z.rem (Z.of_nat (length freqs) - 2) (base - 1).

(** The number of children [combine] is called with when [p] is the next
    free slot. *)
Definition arity (base : Z) (freqs : list Z) (p : nat) : Z :=
  if decide (p = length freqs) then initial_count base freqs else base.

(** [numIters] and [numNodes] of [Label]. *)
Definition numIters (base : Z) (freqs : list Z) : Z :=
  Z.quot (Z.of_nat (length freqs) - 1) (base - 1) + 1.

Definition numNodes (base : Z) (freqs : list Z) : Z :=
  Z.of_nat (length freqs) + numIters base freqs.

(** The pool as [Label] allocates and fills it. *)
Definition pool0 (base : Z) (freqs : list Z) : list node :=
  (leaf <$> freqs)
    ++ replicate (Z.to_nat (numNodes base freqs) - length freqs) zero_node.

(** The invariant of the tree builder, between two calls of [combine]. *)
Record tree_inv (base : Z) (freqs : list Z) (st : state) : Prop := {
  inv_next_lo : (length freqs <= nextNodeIdx st)%nat;
  inv_next_hi : (nextNodeIdx st <= length (nodes st))%nat;
  inv_nodup : NoDup (nodeHeap st);
  inv_is_heap : is_heap (nodes st) (nodeHeap st);
  inv_heap_lt : forall x, x ∈ nodeHeap st -> (x < nextNodeIdx st)%nat;
  inv_roots : forall x, (x < nextNodeIdx st)%nat ->
    (ParentIndex (nodes st !!! x) = -1 <-> x ∈ nodeHeap st);
  inv_links : forall x, (x < nextNodeIdx st)%nat ->
    ParentIndex (nodes st !!! x) <> -1 ->
    exists p, ParentIndex (nodes st !!! x) = Z.of_nat p /\
              (length freqs <= p < nextNodeIdx st)%nat /\ (x < p)%nat /\
              0 <= SiblingIndex (nodes st !!! x) < arity base freqs p;
  inv_sib_inj : forall x y,
    (x < nextNodeIdx st)%nat -> (y < nextNodeIdx st)%nat ->
    ParentIndex (nodes st !!! x) <> -1 ->
    ParentIndex (nodes st !!! x) = ParentIndex (nodes st !!! y) ->
    SiblingIndex (nodes st !!! x) = SiblingIndex (nodes st !!! y) ->
    x = y;
  inv_hops : forall x, (x < nextNodeIdx st)%nat ->
    0 <= TotalHops (nodes st !!! x);
  inv_leaf : forall i f, freqs !! i = Some f -> Freq (nodes st !!! i) = f;
  inv_children : forall p, (length freqs <= p < nextNodeIdx st)%nat ->
    Z.of_nat (length (children (nodes st) (nextNodeIdx st) p))
    = arity base freqs p;
  inv_last : (length freqs < nextNodeIdx st)%nat ->
    (nextNodeIdx st - 1)%nat ∈ nodeHeap st
}.

(** [climbs ns x l]: following parent links from slot [x] to a root reads the
    sibling indices [l], leaf end first. *)
Inductive climbs (ns : list node) : nat -> list Z -> Prop :=
| climbs_root x :
    ParentIndex (ns !!! x) = -1 -> climbs ns x []
| climbs_step x p l :
    ParentIndex (ns !!! x) = Z.of_nat p -> climbs ns p l ->
    climbs ns x (SiblingIndex (ns !!! x) :: l).

(** The slice headers [extract] hands out for climbs [paths], the first
    starting at [start]. *)
Fixpoint spans_of (start : nat) (paths : list (list Z)) : list span :=
  match paths with
  | [] => []
  | l :: rest =>
      (start, (start + length l)%nat) :: spans_of (start + length l) rest
  end.

(** The sum of a list of integers. *)
Definition zsum (l : list Z) : Z := foldr Z.add 0 l.
Arguments zsum : simpl never.

(** Slot [x] is linked to the parent in slot [p]. *)
Definition parent_of (ns : list node) (x p : nat) : Prop :=
  ParentIndex (ns !!! x) = Z.of_nat p.

(** The invariant of the order in which nodes are combined, while no sum of
    frequencies overflows. *)
Record order_inv (freqs : list Z) (st : state) : Prop := {
  (* a node lighter than a combined one was combined no later *)
  oi_min : forall u v pv,
    (u < nextNodeIdx st)%nat -> (v < nextNodeIdx st)%nat ->
    parent_of (nodes st) v pv -> (u < pv)%nat ->
    wt (nodes st) u < wt (nodes st) v ->
    exists pu, parent_of (nodes st) u pu /\ (pu <= pv)%nat;
  (* what is in the heap, the newest parent apart, is no lighter than
     anything combined so far *)
  oi_mark : forall c pc h,
    (c < nextNodeIdx st)%nat -> parent_of (nodes st) c pc ->
    h ∈ nodeHeap st -> h <> (nextNodeIdx st - 1)%nat ->
    wt (nodes st) c <= wt (nodes st) h;
  (* nodes are combined in order of weight, the newest parent apart *)
  oi_sorted : forall a b pa pb,
    (a < nextNodeIdx st)%nat -> (b < nextNodeIdx st)%nat ->
    parent_of (nodes st) a pa -> parent_of (nodes st) b pb -> (pa < pb)%nat ->
    wt (nodes st) a <= wt (nodes st) b \/ S b = pb;
  (* the weight of a parent is the sum of the weights of its children *)
  oi_sum : forall p, (length freqs <= p < nextNodeIdx st)%nat ->
    wt (nodes st) p
    = zsum (wt (nodes st) <$> children (nodes st) (nextNodeIdx st) p);
  (* a parent lighter than something combined before it goes into the
     next combination *)
  oi_chain : forall s c pc,
    (length freqs <= s)%nat -> (S s < nextNodeIdx st)%nat ->
    (c < nextNodeIdx st)%nat -> parent_of (nodes st) c pc -> (pc <= s)%nat ->
    wt (nodes st) s < wt (nodes st) c ->
    parent_of (nodes st) s (S s);
  oi_fit :
    zsum (Z.abs <$> (wt (nodes st) <$> nodeHeap st))
    <= zsum (Z.abs <$> freqs)
}.

(** Parent [s] is lighter than a node that was combined no later than [s]
    was created. *)
Definition outweighed (st : state) (s : nat) : Prop :=
  exists c pc, (c < nextNodeIdx st)%nat /\ parent_of (nodes st) c pc /\
               (pc <= s)%nat /\ wt (nodes st) s < wt (nodes st) c.

(** Two pools with the same frequencies, slot by slot. *)
Definition same_freqs (ns1 ns2 : list node) : Prop :=
  Freq <$> ns1 = Freq <$> ns2.

(** C5 as the specification states it: an item of globally lowest frequency
    never gets a strictly shorter label than an item of globally highest
    frequency. *)
Definition lowest_not_shorter (base : Z) (freqs : list Z) : Prop :=
  forall ls i j fi fj a b,
    Label base freqs = Ok ls ->
    freqs !! i = Some fi -> freqs !! j = Some fj ->
    (forall f, f ∈ freqs -> fi <= f <= fj) ->
    ls !! i = Some a -> ls !! j = Some b ->
    (length b <= length a)%nat.

(** The size of the heap between two calls of [combine]: all the leaves
    before the first call; after it, what the first call left, less
    [base - 1] for every further call. *)
Definition count_inv (base : Z) (freqs : list Z) (st : state) : Prop :=
  Z.of_nat (length (nodeHeap st))
  = if decide (nextNodeIdx st = length freqs) then Z.of_nat (length freqs)
    else Z.of_nat (length freqs) - initial_count base freqs + 1
         - (base - 1)
           * (Z.of_nat (nextNodeIdx st) - Z.of_nat (length freqs) - 1).

(** Under one parent, a smaller sibling index goes with a frequency that is
    no higher. *)
Definition sib_sorted (st : state) : Prop :=
  forall x y p, (x < nextNodeIdx st)%nat -> (y < nextNodeIdx st)%nat ->
    parent_of (nodes st) x p -> parent_of (nodes st) y p ->
    SiblingIndex (nodes st !!! x) <= SiblingIndex (nodes st !!! y) ->
    wt (nodes st) x <= wt (nodes st) y.

(** The hop count of the node in pool slot [x]. *)
Definition hops (ns : list node) (x : nat) : Z := TotalHops (ns !!! x).

(** The hop count that [combine] writes for children [cs], added up as Go
    adds [int]s: [totalHops += child.TotalHops] for every child, then
    [totalHops + numChildren]. *)
Definition hops64 (ns : list node) (cs : list nat) (numChildren : Z) : Z :=
  wrap64 (foldl (fun a c => wrap64 (a + TotalHops (ns !!! c))) 0 cs
          + numChildren).

(** The hop counts of the roots add up to the number of nodes that have a
    parent. *)
Definition hops_inv (st : state) : Prop :=
  zsum (hops (nodes st) <$> nodeHeap st)
  = Z.of_nat (nextNodeIdx st) - Z.of_nat (length (nodeHeap st)).

(** The frequencies of the roots add up to the sum of the input, modulo
    [2 ^ 64]; the frequency of a parent is a 64-bit integer. *)
Definition freq_inv (freqs : list Z) (st : state) : Prop :=
  zsum (wt (nodes st) <$> nodeHeap st) mod 2 ^ 64 = zsum freqs mod 2 ^ 64 /\
  forall p, (length freqs <= p < nextNodeIdx st)%nat -> int64 (wt (nodes st) p).

(** A pool of three leaves and a free slot, with the leaves in a heap. *)
Definition sample_state : state :=
  mkState [leaf 3; leaf 1; leaf 2; zero_node] [1; 0; 2]%nat 3.

(** The sum of the label lengths of a code, each weighted with the
    frequency of its item. *)
Definition weighted_length (freqs : list Z) (code : list (list Z)) : Z :=
  zsum (zip_with (fun f (l : list Z) => f * Z.of_nat (length l)) freqs code).

(** The same for a list of lengths. *)
Definition cost (ws : list Z) (ls : list nat) : Z :=
  zsum (zip_with (fun w l => w * Z.of_nat l) ws ls).

(** Kraft's sum of the lengths [ls] for an alphabet of [b] symbols, scaled by
    [b ^ D]; and Kraft's inequality, [sum b ^ (- l) <= 1]. *)
Definition kraftsum (b : Z) (D : nat) (ls : list nat) : Z :=
  zsum ((fun l => b ^ Z.of_nat (D - l)) <$> ls).

Definition kraft (b : Z) (ls : list nat) : Prop :=
  exists D, Forall (fun l => (l <= D)%nat) ls /\ kraftsum b D ls <= b ^ Z.of_nat D.

(** No label of the code is a prefix of another one. *)
Fixpoint pairwise_prefix_free (code : list (list Z)) : Prop :=
  match code with
  | [] => True
  | c :: rest =>
      (forall d, d ∈ rest -> ~ c `prefix_of` d /\ ~ d `prefix_of` c) /\
      pairwise_prefix_free rest
  end.

(** The labels that begin with the symbol [s], without it. *)
Definition tails_of (s : Z) (code : list (list Z)) : list (list Z) :=
  omap (fun c => match c with
                 | x :: t => if decide (x = s) then Some t else None
                 | [] => None
                 end) code.

(** The number of lengths equal to [L], and of the others. *)
Definition deepest (L : nat) (ls : list nat) : Z :=
  zsum ((fun l => if decide (l = L) then 1 else 0) <$> ls).

Definition shallower (L : nat) (ls : list nat) : Z :=
  zsum ((fun l => if decide (l = L) then 0 else 1) <$> ls).

(** The number of links from slot [x] up to the root of its tree, and that
    root. *)
Fixpoint rise (fuel : nat) (ns : list node) (x : nat) : nat * nat :=
  if ParentIndex (ns !!! x) =? -1 then (0%nat, x) else
  match fuel with
  | O => (0%nat, x)
  | S fuel' =>
      let r := rise fuel' ns (Z.to_nat (ParentIndex (ns !!! x))) in
      (S (fst r), snd r)
  end.

Definition depth_of (st : state) (x : nat) : nat :=
  fst (rise (length (nodes st)) (nodes st) x).

Definition root_of (st : state) (x : nat) : nat :=
  snd (rise (length (nodes st)) (nodes st) x).

(** Parent links lead upwards and stay below [next]. *)
Definition upwards (ns : list node) (next : nat) : Prop :=
  forall x, (x < next)%nat -> ParentIndex (ns !!! x) <> -1 ->
    exists p, ParentIndex (ns !!! x) = Z.of_nat p /\ (x < p < next)%nat.

(** The frequencies of the parents created so far, added up. *)
Definition parents_weight (freqs : list Z) (st : state) : Z :=
  zsum (wt (nodes st) <$> seq (length freqs) (nextNodeIdx st - length freqs)).

(** No frequency is negative and the roots weigh what the items weigh. *)
Definition exact_inv (freqs : list Z) (st : state) : Prop :=
  (forall x, (x < nextNodeIdx st)%nat -> 0 <= wt (nodes st) x) /\
  zsum (wt (nodes st) <$> nodeHeap st) = zsum freqs.

(** Whatever lengths [ell] the roots are given, the items, each at its
    depth plus the length of its root, cost what the parents weigh plus
    what the roots cost. *)
Definition cost_inv (freqs : list Z) (st : state) : Prop :=
  forall ell : nat -> Z,
    zsum ((fun i => freqs !!! i * (Z.of_nat (depth_of st i) + ell (root_of st i)))
            <$> seq 0 (length freqs))
    = parents_weight freqs st
      + zsum ((fun x => wt (nodes st) x * ell x) <$> nodeHeap st).

(** Any lengths for the items that satisfy Kraft's inequality cost at least
    what the parents weigh plus what some such lengths for the roots
    cost. *)
Definition bound_inv (base : Z) (freqs : list Z) (st : state) : Prop :=
  forall ls0, length ls0 = length freqs -> kraft base ls0 ->
    exists items : list (nat * nat),
      items.*1 ≡ₚ nodeHeap st /\ kraft base items.*2 /\
      parents_weight freqs st
      + zsum ((fun it => wt (nodes st) it.1 * Z.of_nat it.2) <$> items)
      <= cost freqs ls0.

(** The character of the alphabet at an index in range. *)
Definition item (items : list Z) (idx : Z) : Z := items !!! Z.to_nat idx.

(** The characters at the indices of a label. *)
Definition spell (items : list Z) (indexes : list Z) : list Z :=
  item items <$> indexes.

(** Every node weighs one or more. *)
Definition pos_inv (st : state) : Prop :=
  forall x, (x < nextNodeIdx st)%nat -> 1 <= wt (nodes st) x.

(** The number of parents among the nodes [h]. *)
Definition parents_in (C : nat) (h : list nat) : Z :=
  Z.of_nat (length (filter (fun x => (C <= x)%nat) h)).

(** A count [g x] of the leaves below every node [x]: one or more, and two
    or more below a parent; the depths of the leaves add up to the counts
    of the parents; and these add up to no less than the number of nodes
    that have a parent, the parents among them counted twice. *)
Definition leaves_inv (C : nat) (st : state) (g : nat -> Z) : Prop :=
  (forall x, (x < nextNodeIdx st)%nat -> 1 <= g x) /\
  (forall p, (C <= p < nextNodeIdx st)%nat -> 2 <= g p) /\
  (forall ell : nat -> Z,
     zsum ((fun i => Z.of_nat (depth_of st i) + ell (root_of st i))
             <$> seq 0 C)
     = zsum (g <$> seq C (nextNodeIdx st - C))
       + zsum ((fun x => g x * ell x) <$> nodeHeap st)) /\
  Z.of_nat (nextNodeIdx st) - Z.of_nat (length (nodeHeap st))
  + (Z.of_nat (nextNodeIdx st) - Z.of_nat C) - parents_in C (nodeHeap st)
  <= zsum (g <$> seq C (nextNodeIdx st - C)).

(** The number of symbols of all labels together. *)
Definition total_length (ls : list (list Z)) : Z :=
  zsum ((fun l : list Z => Z.of_nat (length l)) <$> ls).

(** The node [n] with its frequency multiplied by [k]; a state with all
    frequencies of its pool multiplied by [k]. *)
Definition scale (k : Z) (n : node) : node :=
  mkNode (ParentIndex n) (SiblingIndex n) (TotalHops n) (k * Freq n).

Definition scale_state (k : Z) (st : state) : state :=
  mkState (scale k <$> nodes st) (nodeHeap st) (nextNodeIdx st).

(** * Properties *)

(** ** The cases of the repository's tests

    [TestLabel] and [TestLabelAlphabetTooSmall] of [huffman_test.go] and
    [ExampleLabel] of [example_test.go], with letters written as indices into
    the alphabets [ab], [abcd] and [asdf]. *)

Example test_no_items : Label 2 [] = Ok [].
Proof. reflexivity. Qed.

Example test_one_item : Label 2 [1] = Ok [[0]].
Proof. reflexivity. Qed.

Example test_abcd_eight :
  Label 4 [10; 12; 7; 8; 32; 1; 17; 18]
  = Ok [[3; 2]; [3; 3]; [3; 1; 1]; [3; 0]; [2]; [3; 1; 0]; [0]; [1]].
Proof. vm_compute. reflexivity. Qed.

Example test_abcd_five :
  Label 4 [5; 4; 3; 2; 1] = Ok [[3]; [2]; [0]; [1; 1]; [1; 0]].
Proof. vm_compute. reflexivity. Qed.

Example test_abcd_four : Label 4 [50; 25; 12; 6] = Ok [[3]; [2]; [1]; [0]].
Proof. vm_compute. reflexivity. Qed.

Example test_asdf :
  Label 4 [52; 52; 55; 56; 59; 70; 88; 158; 169; 530]
  = Ok [[1; 0]; [1; 1]; [1; 2]; [1; 3]; [2; 0]; [2; 1]; [2; 2]; [2; 3];
        [0]; [3]].
Proof. vm_compute. reflexivity. Qed.

Example test_alphabet_too_small : Label 1 [1; 2; 3] = Err InvalidArgument.
Proof. reflexivity. Qed.

(** ** The result monad *)

Lemma bind_Ok {A B} (a : A) (k : A -> result B) : (Ok a ≫= k) = k a.
Proof. reflexivity. Qed.

Lemma get_Some {A} (s : list A) i x : s !! i = Some x -> get s i = Ok x.
Proof. unfold get. intros ->. reflexivity. Qed.

Lemma get_lt {A} `{Inhabited A} (s : list A) i :
  (i < length s)%nat -> get s i = Ok (s !!! i).
Proof.
  intros Hi. apply get_Some. by apply list_lookup_lookup_total_lt.
Qed.

Lemma set_lt {A} (s : list A) i x :
  (i < length s)%nat -> set s i x = Ok (<[i:=x]> s).
Proof. intros Hi. unfold set. by rewrite decide_True. Qed.

(** ** Frequencies seen through the heap *)

Section heap_facts.
Context (ns : list node).

Lemma in_pool_lookup h i :
  in_pool ns h -> (i < length h)%nat -> (h !!! i < length ns)%nat.
Proof.
  intros Hv Hi. unfold in_pool in Hv. rewrite Forall_lookup in Hv.
  apply (Hv i). by apply list_lookup_lookup_total_lt.
Qed.

Lemma Less_ok h i j :
  in_pool ns h -> (i < length h)%nat -> (j < length h)%nat ->
  nodeHeap.Less ns h i j = Ok (key ns h i <? key ns h j).
Proof.
  intros Hv Hi Hj. unfold nodeHeap.Less.
  rewrite (get_lt h i Hi), bind_Ok, (get_lt h j Hj), bind_Ok.
  rewrite (get_lt ns _ (in_pool_lookup h i Hv Hi)), bind_Ok.
  rewrite (get_lt ns _ (in_pool_lookup h j Hv Hj)), bind_Ok.
  reflexivity.
Qed.

Lemma Swap_ok h i j :
  (i < length h)%nat -> (j < length h)%nat ->
  nodeHeap.Swap h i j = Ok (swapped h i j).
Proof.
  intros Hi Hj. unfold nodeHeap.Swap.
  rewrite (get_lt h i Hi), bind_Ok, (get_lt h j Hj), bind_Ok. reflexivity.
Qed.

Lemma swapped_length h i j : length (swapped h i j) = length h.
Proof. unfold swapped. by rewrite !length_insert. Qed.

Lemma swapped_lookup h i j k :
  (i < length h)%nat -> (j < length h)%nat ->
  swapped h i j !!! k
  = if decide (k = j) then h !!! i
    else if decide (k = i) then h !!! j else h !!! k.
Proof.
  intros Hi Hj. unfold swapped.
  destruct (decide (k = j)) as [->|Hkj].
  - rewrite list_lookup_total_insert_eq; [done | by rewrite length_insert].
  - rewrite list_lookup_total_insert_ne by done.
    destruct (decide (k = i)) as [->|Hki].
    + by rewrite list_lookup_total_insert_eq.
    + by rewrite list_lookup_total_insert_ne.
Qed.

Lemma swapped_lookup_other h i j k :
  k <> i -> k <> j -> swapped h i j !! k = h !! k.
Proof.
  intros Hi Hj. unfold swapped. by rewrite !list_lookup_insert_ne.
Qed.

Lemma swapped_perm h i j :
  (i < length h)%nat -> (j < length h)%nat -> swapped h i j ≡ₚ h.
Proof.
  intros Hi Hj.
  destruct (decide (i = j)) as [->|Hij].
  - unfold swapped. rewrite list_insert_insert_eq.
    rewrite list_insert_id; [done | by apply list_lookup_lookup_total_lt].
  - symmetry. apply Permutation_inj. split; [by rewrite swapped_length |].
    exists (fun k => if decide (k = j) then i
                     else if decide (k = i) then j else k).
    split.
    + intros a b Hab. repeat case_decide; subst; congruence.
    + intros k. destruct (decide (k = j)) as [->|Hkj].
      * rewrite (list_lookup_lookup_total_lt h j Hj).
        unfold swapped. rewrite list_lookup_insert_ne by done.
        by rewrite list_lookup_insert_eq.
      * destruct (decide (k = i)) as [->|Hki].
        -- rewrite (list_lookup_lookup_total_lt h i Hi).
           unfold swapped. rewrite list_lookup_insert_eq; [done |].
           by rewrite length_insert.
        -- by rewrite swapped_lookup_other.
Qed.

Lemma in_pool_elem h x : in_pool ns h -> x ∈ h -> (x < length ns)%nat.
Proof.
  intros Hv Hx. unfold in_pool in Hv.
  rewrite Forall_forall in Hv. by apply Hv.
Qed.

Lemma in_pool_perm h h' : h ≡ₚ h' -> in_pool ns h -> in_pool ns h'.
Proof. intros Hp. unfold in_pool. by rewrite Hp. Qed.

Lemma key_swapped h i j k :
  (i < length h)%nat -> (j < length h)%nat ->
  key ns (swapped h i j) k
  = if decide (k = j) then key ns h i
    else if decide (k = i) then key ns h j else key ns h k.
Proof.
  intros Hi Hj. unfold key. rewrite swapped_lookup by done.
  repeat case_decide; reflexivity.
Qed.

End heap_facts.

(** ** [container/heap]: [down] *)

Lemma down_unfold fuel ns h i n :
  heap.down fuel ns h i n
  = let j1 := (2 * i + 1)%nat in
    if decide (n <= j1)%nat then Ok h else
    lt21 ← (if decide (j1 + 1 < n)%nat
            then nodeHeap.Less ns h (j1 + 1) j1 else Ok false);
    let j := if (lt21 : bool) then (j1 + 1)%nat else j1 in
    lt ← nodeHeap.Less ns h j i;
    if negb (lt : bool) then Ok h else
    match fuel with
    | O => Err OutOfFuel
    | S fuel' => h' ← nodeHeap.Swap h i j; heap.down fuel' ns h' j n
    end.
Proof. destruct fuel; reflexivity. Qed.

Lemma lighter_child_spec ns h i n :
  (2 * i + 1 < n)%nat ->
  let j := lighter_child ns h i n in
  (j = 2 * i + 1 \/ j = 2 * i + 2)%nat /\ (j < n)%nat /\
  forall c, (c = 2 * i + 1 \/ c = 2 * i + 2)%nat -> (c < n)%nat ->
            key ns h j <= key ns h c.
Proof.
  intros Hn. unfold lighter_child. cbv zeta.
  destruct (decide (2 * i + 2 < n)%nat) as [H2|H2].
  - destruct (Z.ltb_spec (key ns h (2 * i + 2)) (key ns h (2 * i + 1))).
    + split; [lia|]. split; [lia|]. intros c [->| ->] _; lia.
    + split; [lia|]. split; [lia|]. intros c [->| ->] _; lia.
  - split; [lia|]. split; [lia|]. intros c [->| ->] Hc; lia.
Qed.

Lemma down_step fuel ns h i n :
  (n <= length h)%nat -> in_pool ns h -> (2 * i + 1 < n)%nat ->
  heap.down fuel ns h i n
  = let j := lighter_child ns h i n in
    if key ns h j <? key ns h i then
      match fuel with
      | O => Err OutOfFuel
      | S fuel' => heap.down fuel' ns (swapped h i j) j n
      end
    else Ok h.
Proof.
  intros Hn Hv Hkid. rewrite down_unfold. cbv zeta.
  rewrite decide_False by lia.
  pose proof (lighter_child_spec ns h i n Hkid) as (Hj & Hjn & _).
  assert (forall b : bool,
    (if b then (2 * i + 1 + 1)%nat else (2 * i + 1)%nat)
    = (if b then (2 * i + 2)%nat else (2 * i + 1)%nat)) as Hb
    by (intros []; lia).
  unfold lighter_child in *.
  replace (2 * i + 1 + 1)%nat with (2 * i + 2)%nat by lia.
  destruct (decide (2 * i + 2 < n)%nat) as [H2|H2].
  - rewrite Less_ok by (done || lia). rewrite bind_Ok.
    destruct (key ns h (2 * i + 2) <? key ns h (2 * i + 1)) eqn:E.
    + rewrite Less_ok by (done || lia). rewrite bind_Ok.
      destruct (key ns h (2 * i + 2) <? key ns h i); cbn; [|done].
      destruct fuel; [done|]. by rewrite Swap_ok by lia.
    + rewrite Less_ok by (done || lia). rewrite bind_Ok.
      destruct (key ns h (2 * i + 1) <? key ns h i); cbn; [|done].
      destruct fuel; [done|]. by rewrite Swap_ok by lia.
  - rewrite bind_Ok. rewrite Less_ok by (done || lia). rewrite bind_Ok.
    destruct (key ns h (2 * i + 1) <? key ns h i); cbn; [|done].
    destruct fuel; [done|]. by rewrite Swap_ok by lia.
Qed.

(** [down] from position [i] repairs a heap whose only defect, from [lo] on,
    is at [i]; it needs no more rounds than there are positions below [i]. *)
Lemma down_spec ns fuel : forall h i n lo,
  (n <= length h)%nat -> in_pool ns h -> (n <= fuel + i)%nat -> (lo <= i)%nat ->
  (forall k, (lo <= k)%nat -> k <> i -> ordered_at ns h n k) ->
  (forall p c, (lo <= p)%nat -> (i = 2 * p + 1 \/ i = 2 * p + 2)%nat ->
               (c = 2 * i + 1 \/ c = 2 * i + 2)%nat -> (c < n)%nat ->
               key ns h p <= key ns h c) ->
  exists h', heap.down fuel ns h i n = Ok h' /\ h' ≡ₚ h /\
    (forall k, (n <= k)%nat -> h' !! k = h !! k) /\
    (forall k, (k < i)%nat -> h' !! k = h !! k) /\
    (forall k, (lo <= k)%nat -> ordered_at ns h' n k).
Proof.
  induction fuel as [|fuel IH]; intros h i n lo Hn Hv Hfuel Hlo Hord Hpar.
  all: destruct (decide (n <= 2 * i + 1)%nat) as [Hleaf|Hkid].
  1,3: rewrite down_unfold; cbv zeta; rewrite decide_True by done;
       exists h; split; [done|]; split; [done|]; split; [done|];
       split; [done|]; intros k Hk; destruct (decide (k = i)) as [->|Hki];
       [intros c Hc Hcn; lia | by apply Hord].
  all: rewrite down_step by (done || lia); cbv zeta.
  all: pose proof (lighter_child_spec ns h i n ltac:(lia)) as (Hj & Hjn & Hmin).
  all: set (j := lighter_child ns h i n) in *.
  all: destruct (Z.ltb_spec (key ns h j) (key ns h i)) as [Hlt|Hge].
  2,4: exists h; split; [done|]; split; [done|]; split; [done|];
       split; [done|]; intros k Hk; destruct (decide (k = i)) as [->|Hki];
       [intros c Hc Hcn; specialize (Hmin c Hc Hcn); lia | by apply Hord].
  - lia.
  - assert (i < length h)%nat as Hil by lia.
    assert (j < length h)%nat as Hjl by lia.
    destruct (IH (swapped h i j) j n lo) as (h' & Hd & Hp & Htail & Hpre & Ho).
    + by rewrite swapped_length.
    + eapply in_pool_perm; [symmetry; by apply swapped_perm | done].
    + lia.
    + lia.
    + intros k Hk Hkj c Hc Hcn. rewrite !key_swapped by done.
      destruct (decide (k = i)) as [->|Hki].
      * rewrite decide_False by lia.
        destruct (decide (c = j)) as [->|Hcj]; [lia|].
        rewrite decide_False by lia. by apply Hmin.
      * rewrite (decide_False (P := k = j)) by done.
        destruct (decide (c = j)) as [->|Hcj]; [lia|].
        destruct (decide (c = i)) as [->|Hci].
        -- apply (Hpar k j); [done | lia | lia | done].
        -- by apply Hord.
    + intros p c Hp Hjp Hc Hcn. rewrite !key_swapped by done.
      assert (p = i) as -> by lia.
      rewrite (decide_False (P := i = j)) by lia. rewrite decide_True by done.
      rewrite (decide_False (P := c = j)) by lia.
      rewrite (decide_False (P := c = i)) by lia.
      apply (Hord j); [lia | lia | done | done].
    + exists h'. split; [done|]. split; [by rewrite Hp, swapped_perm|].
      split; [|split; [|done]].
      * intros k Hk. rewrite Htail by done. apply swapped_lookup_other; lia.
      * intros k Hk. rewrite Hpre by lia. apply swapped_lookup_other; lia.
Qed.

(** ** [container/heap]: [Init] *)

Lemma heapify_spec ns : forall k h n,
  n = length h -> in_pool ns h ->
  (forall m, (k <= m)%nat -> ordered_at ns h n m) ->
  exists h', heap.heapify ns h k n = Ok h' /\ h' ≡ₚ h /\ is_heap ns h'.
Proof.
  induction k as [|i IH]; intros h n Hn Hv Hord.
  - exists h. split; [done|]. split; [done|]. intros k. rewrite <- Hn.
    apply Hord. lia.
  - cbn [heap.heapify].
    destruct (down_spec ns n h i n i) as (h1 & Hd & Hp & _ & _ & Ho).
    + lia.
    + done.
    + lia.
    + lia.
    + intros k Hk Hki. apply Hord. lia.
    + intros p c Hp Hi. lia.
    + rewrite Hd, bind_Ok.
      destruct (IH h1 n) as (h2 & Hh & Hp2 & Hheap).
      * by rewrite Hp.
      * eapply in_pool_perm; [symmetry; exact Hp | done].
      * done.
      * exists h2. split; [done|]. split; [by rewrite Hp2|done].
Qed.

Lemma Init_spec ns h :
  in_pool ns h ->
  exists h', heap.Init ns h = Ok h' /\ h' ≡ₚ h /\ is_heap ns h'.
Proof.
  intros Hv. unfold heap.Init, nodeHeap.Len.
  apply heapify_spec; [done | done |].
  intros m Hm c Hc Hcn.
  pose proof (Nat.div_mod_eq (length h) 2) as Hdm.
  pose proof (Nat.mod_upper_bound (length h) 2 ltac:(lia)). lia.
Qed.

(** ** [container/heap]: [Push] *)

Lemma parent_child (j : nat) :
  (1 <= j)%nat ->
  (j = 2 * ((j - 1) / 2) + 1 \/ j = 2 * ((j - 1) / 2) + 2)%nat.
Proof.
  intros Hj. pose proof (Nat.div_mod_eq (j - 1) 2) as Hdm.
  pose proof (Nat.mod_upper_bound (j - 1) 2 ltac:(lia)). lia.
Qed.

Lemma up_unfold fuel ns h j :
  heap.up fuel ns h j
  = let i := ((j - 1) / 2)%nat in
    if decide (i = j) then Ok h else
    lt ← nodeHeap.Less ns h j i;
    if negb (lt : bool) then Ok h else
    match fuel with
    | O => Err OutOfFuel
    | S fuel' => h' ← nodeHeap.Swap h i j; heap.up fuel' ns h' i
    end.
Proof. destruct fuel; reflexivity. Qed.

(** [up] from position [j] repairs a heap whose only defect is between [j]
    and its parent. *)
Lemma up_spec ns fuel : forall h j,
  (j < length h)%nat -> in_pool ns h -> (j <= fuel)%nat ->
  (forall k c, (c = 2 * k + 1 \/ c = 2 * k + 2)%nat -> (c < length h)%nat ->
               c <> j -> key ns h k <= key ns h c) ->
  (forall p c, (j = 2 * p + 1 \/ j = 2 * p + 2)%nat ->
               (c = 2 * j + 1 \/ c = 2 * j + 2)%nat -> (c < length h)%nat ->
               key ns h p <= key ns h c) ->
  exists h', heap.up fuel ns h j = Ok h' /\ h' ≡ₚ h /\ is_heap ns h'.
Proof.
  induction fuel as [|fuel IH]; intros h j Hj Hv Hfuel Hord Hpar.
  all: rewrite up_unfold; cbv zeta.
  all: destruct (decide (((j - 1) / 2)%nat = j)) as [Hroot|Hroot].
  1,3: exists h; split; [done|]; split; [done|]; intros k c Hc Hcn;
       apply Hord; [done | done |];
       destruct (decide (j = 0%nat)) as [->|Hj0]; [lia|];
       pose proof (parent_child j ltac:(lia)); lia.
  all: assert (1 <= j)%nat as Hj1
         by (destruct (decide (j = 0%nat)) as [->|]; [done | lia]).
  all: pose proof (parent_child j Hj1) as Hpc.
  all: set (i := ((j - 1) / 2)%nat) in *.
  all: rewrite Less_ok by (done || lia); rewrite bind_Ok.
  all: destruct (Z.ltb_spec (key ns h j) (key ns h i)) as [Hlt|Hge]; cbn [negb].
  2,4: exists h; split; [done|]; split; [done|]; intros k c Hc Hcn;
       destruct (decide (c = j)) as [->|Hcj];
       [assert (k = i) as -> by lia; done | by apply Hord].
  - lia.
  - rewrite Swap_ok by lia. rewrite bind_Ok.
    assert (i < length h)%nat as Hil by lia.
    destruct (IH (swapped h i j) i) as (h' & Hu & Hp & Hheap).
    + rewrite swapped_length. lia.
    + eapply in_pool_perm; [symmetry; by apply swapped_perm | done].
    + lia.
    + intros k c Hc Hcn Hci. rewrite swapped_length in Hcn.
      rewrite !key_swapped by done.
      destruct (decide (k = j)) as [->|Hkj].
      * rewrite (decide_False (P := c = j)) by lia.
        rewrite (decide_False (P := c = i)) by done.
        apply (Hpar i c); [lia | done | done].
      * destruct (decide (k = i)) as [->|Hki].
        -- destruct (decide (c = j)) as [->|Hcj]; [lia|].
           rewrite (decide_False (P := c = i)) by done.
           specialize (Hord i c Hc Hcn Hcj). lia.
        -- destruct (decide (c = j)) as [->|Hcj]; [lia|].
           rewrite (decide_False (P := c = i)) by done.
           by apply Hord.
    + intros p c Hip Hc Hcn. rewrite swapped_length in Hcn.
      rewrite !key_swapped by done.
      rewrite (decide_False (P := p = j)) by lia.
      rewrite (decide_False (P := p = i)) by lia.
      assert (key ns h p <= key ns h i) as Hpi by (apply Hord; [done | lia | lia]).
      destruct (decide (c = j)) as [->|Hcj]; [done|].
      rewrite (decide_False (P := c = i)) by lia.
      specialize (Hord i c Hc Hcn Hcj). lia.
    + exists h'. split; [done|]. split; [by rewrite Hp, swapped_perm | done].
Qed.

Lemma Push_spec ns h x :
  in_pool ns h -> (x < length ns)%nat -> is_heap ns h ->
  exists h', heap.Push ns h x = Ok h' /\ h' ≡ₚ x :: h /\ is_heap ns h'.
Proof.
  intros Hv Hx Hheap. unfold heap.Push, nodeHeap.Push, nodeHeap.Len.
  rewrite length_app. cbn [length].
  destruct (up_spec ns (length h + 1) (h ++ [x]) (length h + 1 - 1))
    as (h' & Hu & Hp & Hh).
  - rewrite length_app. cbn. lia.
  - apply Forall_app. split; [done | by constructor].
  - lia.
  - intros k c Hc Hcn Hcj. rewrite length_app in Hcn. cbn in Hcn.
    unfold key. rewrite !lookup_total_app_l by lia. apply Hheap; [done | lia].
  - intros p c Hj Hc Hcn. rewrite length_app in Hcn. cbn in Hcn. lia.
  - exists h'. split; [done|]. split; [|done].
    rewrite Hp. by rewrite <- Permutation_cons_append.
Qed.

(** ** [container/heap]: [Pop] *)

(** The root of a heap is a lightest element. *)
Lemma heap_root_min ns h :
  is_heap ns h -> forall k, (k < length h)%nat -> key ns h 0 <= key ns h k.
Proof.
  intros Hheap k. induction (lt_wf k) as [k _ IH]. intros Hk.
  destruct (decide (k = 0%nat)) as [->|Hk0]; [lia|].
  pose proof (parent_child k ltac:(lia)) as Hpc.
  transitivity (key ns h ((k - 1) / 2)).
  - apply IH; lia.
  - apply Hheap; [lia | done].
Qed.

Lemma heap_root_least ns h x :
  is_heap ns h -> x ∈ h -> wt ns (h !!! 0%nat) <= wt ns x.
Proof.
  intros Hheap Hx. apply list_elem_of_lookup in Hx as [k Hk].
  pose proof (lookup_lt_Some _ _ _ Hk) as Hlt.
  pose proof (heap_root_min ns h Hheap k Hlt) as Hmin.
  unfold key in Hmin. by rewrite (list_lookup_total_correct _ _ _ Hk) in Hmin.
Qed.

Lemma is_heap_take ns h n :
  (n <= length h)%nat -> (forall k, ordered_at ns h n k) -> is_heap ns (take n h).
Proof.
  intros Hn Hord k c Hc Hcn. rewrite length_take in Hcn.
  unfold key. rewrite !lookup_total_take_lt by lia.
  apply Hord; [done | lia].
Qed.

Lemma Pop_spec ns h :
  in_pool ns h -> is_heap ns h -> (0 < length h)%nat ->
  exists h', heap.Pop ns h = Ok (h', h !!! 0%nat) /\
    h ≡ₚ h !!! 0%nat :: h' /\ is_heap ns h'.
Proof.
  intros Hv Hheap Hlen. unfold heap.Pop, nodeHeap.Len.
  destruct (length h) as [|n] eqn:El; [lia|].
  rewrite Swap_ok by lia. rewrite bind_Ok.
  destruct (down_spec ns n (swapped h 0 n) 0 n 0)
    as (h2 & Hd & Hp & Htail & _ & Ho).
  - rewrite swapped_length. lia.
  - eapply in_pool_perm; [symmetry; apply swapped_perm; lia | done].
  - lia.
  - lia.
  - intros k _ Hk0 c Hc Hcn. rewrite !key_swapped by lia.
    rewrite (decide_False (P := k = n)) by lia.
    rewrite (decide_False (P := k = 0%nat)) by lia.
    rewrite (decide_False (P := c = n)) by lia.
    rewrite (decide_False (P := c = 0%nat)) by lia.
    apply Hheap; [done | lia].
  - intros p c _ Hp. lia.
  - rewrite Hd, bind_Ok. unfold nodeHeap.Pop.
    assert (length h2 = S n) as El2 by (by rewrite Hp, swapped_length).
    rewrite El2.
    assert (h2 !! n = Some (h !!! 0%nat)) as Hlast.
    { rewrite Htail by lia. unfold swapped.
      rewrite list_lookup_insert_eq; [done |]. rewrite length_insert. lia. }
    rewrite (get_Some _ _ _ Hlast), bind_Ok.
    exists (take n h2). split; [done|]. split.
    + etrans; [symmetry; apply (swapped_perm h 0 n); lia|].
      etrans; [symmetry; exact Hp|].
      rewrite <- (take_drop n h2) at 1.
      rewrite (drop_S _ _ _ Hlast). rewrite drop_ge by lia.
      by rewrite <- Permutation_cons_append.
    + apply is_heap_take; [lia | intros k; apply Ho; lia].
Qed.

(** ** The loop of [combine] *)

Lemma same_payload_refl ns : same_payload ns ns.
Proof. split; [done | by intros p]. Qed.

Lemma same_payload_trans ns1 ns2 ns3 :
  same_payload ns1 ns2 -> same_payload ns2 ns3 -> same_payload ns1 ns3.
Proof.
  intros [Hl1 H1] [Hl2 H2]. split; [congruence|].
  intros p. destruct (H1 p), (H2 p). split; congruence.
Qed.

Lemma same_payload_adopt ns c P i :
  same_payload ns (<[c:=adopt P i (ns !!! c)]> ns).
Proof.
  split; [by rewrite length_insert|]. intros p.
  destruct (decide (p = c)) as [->|Hpc].
  - destruct (decide (c < length ns)%nat) as [Hc|Hc].
    + by rewrite list_lookup_total_insert_eq.
    + by rewrite list_insert_ge by lia.
  - by rewrite list_lookup_total_insert_ne.
Qed.

Lemma same_payload_wt ns ns' p : same_payload ns ns' -> wt ns' p = wt ns p.
Proof. intros [_ H]. unfold wt. apply H. Qed.

Lemma same_payload_key ns ns' h k :
  same_payload ns ns' -> key ns' h k = key ns h k.
Proof. intros H. unfold key. by apply same_payload_wt. Qed.

Lemma same_payload_is_heap ns ns' h :
  same_payload ns ns' -> is_heap ns h -> is_heap ns' h.
Proof.
  intros H Hheap k c Hc Hcn. rewrite !(same_payload_key ns ns') by done.
  by apply Hheap.
Qed.

Lemma same_payload_in_pool ns ns' h :
  same_payload ns ns' -> in_pool ns h -> in_pool ns' h.
Proof. intros [Hl _]. unfold in_pool. by rewrite Hl. Qed.

Lemma sum_freq_payload ns ns' freq cs :
  same_payload ns ns' -> sum_freq ns' freq cs = sum_freq ns freq cs.
Proof.
  intros H. unfold sum_freq. revert freq.
  induction cs as [|c cs IH]; intros freq; [done|]. cbn [foldl].
  by rewrite IH, (same_payload_wt ns ns').
Qed.

Lemma sum_hops_payload ns ns' hops cs :
  same_payload ns ns' -> sum_hops ns' hops cs = sum_hops ns hops cs.
Proof.
  intros H. unfold sum_hops. revert hops.
  induction cs as [|c cs IH]; intros hops; [done|]. cbn [foldl].
  rewrite IH. destruct H as [_ H]. by rewrite (proj2 (H c)).
Qed.

Lemma pop_children_unfold fuel ns h P k i freq hops :
  pop_children fuel ns h P k i freq hops
  = if (i <? k) && negb (Nat.eqb (length h) 0) then
      match fuel with
      | O => Err OutOfFuel
      | S fuel' =>
          '(h', child) ← heap.Pop ns h;
          c ← get ns child;
          let c' := mkNode (Z.of_nat P) i (TotalHops c) (Freq c) in
          ns' ← set ns child c';
          pop_children fuel' ns' h' P k (i + 1)
            (wrap64 (freq + Freq c)) (hops + TotalHops c)
      end
    else Ok (ns, h, i, freq, hops).
Proof. destruct fuel; reflexivity. Qed.

(** The loop pops the lightest [min (numChildren - i) (len nodeHeap)]
    elements [cs], lightest first, and links each to [parentIdx]. *)
Lemma pop_children_spec P k fuel : forall ns h i freq hops,
  in_pool ns h -> is_heap ns h -> NoDup h -> (length h <= fuel)%nat ->
  exists cs h' ns',
    pop_children fuel ns h P k i freq hops
    = Ok (ns', h', i + Z.of_nat (length cs),
          sum_freq ns freq cs, sum_hops ns hops cs) /\
    h ≡ₚ cs ++ h' /\
    length cs = Nat.min (Z.to_nat (k - i)) (length h) /\
    same_payload ns ns' /\
    (forall p, p ∉ cs -> ns' !! p = ns !! p) /\
    (forall j c, cs !! j = Some c ->
                 ns' !! c = Some (adopt P (i + Z.of_nat j) (ns !!! c))) /\
    is_heap ns' h' /\
    (forall c x, c ∈ cs -> x ∈ h' -> wt ns c <= wt ns x) /\
    (forall j1 j2 c1 c2, (j1 <= j2)%nat -> cs !! j1 = Some c1 ->
                         cs !! j2 = Some c2 -> wt ns c1 <= wt ns c2).
Proof.
  induction fuel as [|fuel IH]; intros ns h i freq hops Hv Hheap Hnd Hfuel;
    rewrite pop_children_unfold.
  all: destruct (Z.ltb_spec i k) as [Hik|Hik]; cbn [andb].
  all: destruct (Nat.eqb_spec (length h) 0) as [Hh0|Hh0]; cbn [negb].
  all: try (exists [], h, ns; cbn [length foldl app]; rewrite Z.add_0_r;
            split; [done|]; split; [done|]; split; [lia|];
            split; [apply same_payload_refl|]; split; [done|];
            split; [intros j c Hj; by rewrite lookup_nil in Hj|];
            split; [done|];
            split; [intros c x Hc; by apply not_elem_of_nil in Hc|];
            intros j1 j2 c1 c2 _ Hj; by rewrite lookup_nil in Hj).
  - lia.
  - destruct (Pop_spec ns h Hv Hheap ltac:(lia)) as (h1 & HPop & Hp1 & Hheap1).
    set (c0 := h !!! 0%nat) in *.
    rewrite HPop, bind_Ok. cbv beta iota zeta.
    assert (c0 ∈ h) as Hc0h by (rewrite Hp1; apply list_elem_of_here).
    assert (c0 < length ns)%nat as Hc0.
    { by eapply in_pool_elem. }
    rewrite (get_lt ns c0 Hc0), bind_Ok. rewrite set_lt by done. rewrite bind_Ok.
    change (mkNode (Z.of_nat P) i (TotalHops (ns !!! c0)) (Freq (ns !!! c0)))
      with (adopt P i (ns !!! c0)).
    set (ns1 := <[c0:=adopt P i (ns !!! c0)]> ns).
    assert (same_payload ns ns1) as Hsp1 by apply same_payload_adopt.
    assert (NoDup (c0 :: h1)) as Hnd1 by (by rewrite <- Hp1).
    apply NoDup_cons in Hnd1 as [Hc0h1 Hndh1].
    destruct (IH ns1 h1 (i + 1) (wrap64 (freq + Freq (ns !!! c0)))
                (hops + TotalHops (ns !!! c0)))
      as (cs & h' & ns' & Hrun & Hp & Hlen & Hsp & Hother & Hkids & Hheap'
          & Hmin & Hsorted).
    + eapply same_payload_in_pool; [done|].
      eapply Forall_inv_tail. unfold in_pool in Hv. by rewrite Hp1 in Hv.
    + by eapply same_payload_is_heap.
    + done.
    + apply Permutation_length in Hp1. cbn in Hp1. lia.
    + exists (c0 :: cs), h', ns'. cbn [length].
      rewrite Hrun.
      rewrite (sum_freq_payload ns ns1), (sum_hops_payload ns ns1) by done.
      split; [replace (i + Z.of_nat (S (length cs)))
                with (i + 1 + Z.of_nat (length cs)) by lia; reflexivity|].
      split; [by rewrite Hp1, Hp|].
      split; [apply Permutation_length in Hp1; cbn in Hp1; lia|].
      split; [by eapply same_payload_trans|].
      assert (c0 ∉ cs) as Hc0cs.
      { intros Hin. apply Hc0h1. rewrite Hp. apply elem_of_app. by left. }
      split; [|split; [|split; [done|split]]].
      * intros p Hp'. apply not_elem_of_cons in Hp' as [Hpc0 Hpcs].
        rewrite Hother by done. unfold ns1. by rewrite list_lookup_insert_ne.
      * intros [|j] c Hj.
        -- injection Hj as <-. rewrite Hother by done. unfold ns1.
           rewrite list_lookup_insert_eq by done. by rewrite Z.add_0_r.
        -- cbn in Hj. rewrite (Hkids j c Hj).
           assert (c <> c0) as Hne.
           { intros ->. apply Hc0cs. by eapply list_elem_of_lookup_2. }
           unfold ns1. rewrite list_lookup_total_insert_ne by done.
           do 2 f_equal. lia.
      * intros c x Hc Hx. apply elem_of_cons in Hc as [->|Hc].
        -- apply heap_root_least; [done|]. rewrite Hp1, Hp.
           apply elem_of_cons. right. apply elem_of_app. by right.
        -- rewrite <- !(same_payload_wt ns ns1) by done. by apply Hmin.
      * intros [|j1] [|j2] c1 c2 Hj H1 H2; cbn in H1, H2.
        -- by simplify_eq.
        -- injection H1 as <-. apply heap_root_least; [done|].
           rewrite Hp1, Hp. apply elem_of_cons. right. apply elem_of_app.
           left. by eapply list_elem_of_lookup_2.
        -- lia.
        -- rewrite <- !(same_payload_wt ns ns1) by done.
           apply (Hsorted j1 j2); [lia | done | done].
Qed.

Lemma is_heap_ext ns ns' h :
  (forall x, x ∈ h -> wt ns' x = wt ns x) -> is_heap ns h -> is_heap ns' h.
Proof.
  intros Hw Hheap k c Hc Hcn. unfold key.
  rewrite !Hw by (apply list_elem_of_lookup_total_2; lia).
  by apply Hheap.
Qed.

(** ** One call of [combine], described *)

Lemma elem_of_children ns n p k :
  k ∈ children ns n p <-> (k < n)%nat /\ ParentIndex (ns !!! k) = Z.of_nat p.
Proof.
  unfold children. rewrite list_elem_of_filter, elem_of_seq. intuition lia.
Qed.

Lemma NoDup_children ns n p : NoDup (children ns n p).
Proof. apply NoDup_filter, NoDup_seq. Qed.

Lemma combine_spec k st :
  in_pool (nodes st) (nodeHeap st) -> is_heap (nodes st) (nodeHeap st) ->
  NoDup (nodeHeap st) ->
  (forall x, x ∈ nodeHeap st -> (x < nextNodeIdx st)%nat) ->
  0 <= k -> (Z.to_nat k <= length (nodeHeap st))%nat ->
  (nextNodeIdx st < length (nodes st))%nat ->
  exists cs st', combine k st = Ok (st', mkCombined k k) /\ combines k st cs st'.
Proof.
  intros Hv Hheap Hnd Hlt Hk Hklen Hfree. unfold combine.
  destruct st as [ns h P]. cbn [nodes nodeHeap nextNodeIdx] in *.
  destruct (pop_children_spec P k (length h) ns h 0 0 0 Hv Hheap Hnd ltac:(lia))
    as (cs & h1 & ns1 & Hrun & Hp & Hlen & Hsp & Hother & Hkids & Hheap1
        & Hmin & Hsorted).
  rewrite Hrun, bind_Ok. cbv beta iota zeta.
  rewrite Z.sub_0_r in Hlen.
  assert (length cs = Z.to_nat k) as Hcount by lia.
  assert (forall x, x ∈ cs -> x ∈ h) as Hcsh
    by (intros x Hx; rewrite Hp; apply elem_of_app; by left).
  assert (forall x, x ∈ h1 -> x ∈ h) as Hh1h
    by (intros x Hx; rewrite Hp; apply elem_of_app; by right).
  assert (NoDup (cs ++ h1)) as Hnd' by (by rewrite <- Hp).
  apply NoDup_app in Hnd' as (Hndcs & Hdisj & Hndh1).
  destruct Hsp as [Hl1 Hpay].
  rewrite set_lt by lia. rewrite bind_Ok.
  set (root := mkNode (-1) (-1) (sum_hops ns 0 cs + k) (sum_freq ns 0 cs)).
  set (ns2 := <[P:=root]> ns1).
  assert (P ∉ h) as HPh by (intros HP; apply Hlt in HP; lia).
  destruct (Push_spec ns2 h1 P) as (h2 & Hpush & Hp2 & Hheap2).
  - unfold in_pool, ns2. rewrite length_insert, Hl1.
    apply Forall_forall. intros x Hx. eapply in_pool_elem; [exact Hv|auto].
  - unfold ns2. rewrite length_insert. lia.
  - apply (is_heap_ext ns1); [|done].
    intros x Hx. unfold wt, ns2. rewrite list_lookup_total_insert_ne; [done|].
    intros ->. auto.
  - rewrite Hpush, bind_Ok. exists cs, (mkState ns2 h2 (S P)).
    split; [by rewrite Z.add_0_l, Hcount, Z2Nat.id by done|].
    constructor; cbn [nodes nodeHeap nextNodeIdx].
    + done.
    + by exists h1.
    + done.
    + unfold ns2. by rewrite length_insert.
    + intros p Hpcs HpP. unfold ns2. rewrite list_lookup_insert_ne by done.
      by apply Hother.
    + intros j c Hj. unfold ns2. rewrite list_lookup_insert_ne.
      * rewrite (Hkids j c Hj). by rewrite Z.add_0_l.
      * intros ->. apply HPh, Hcsh. by eapply list_elem_of_lookup_2.
    + unfold ns2. rewrite list_lookup_insert_eq by lia. done.
    + done.
    + intros c x Hc Hx Hxcs. apply Hmin; [done|].
      rewrite Hp in Hx. apply elem_of_app in Hx as [Hx|Hx]; done.
    + done.
Qed.

Lemma lookup_total_eq {A} `{Inhabited A} (l1 l2 : list A) p :
  l1 !! p = l2 !! p -> l1 !!! p = l2 !!! p.
Proof. intros Heq. by rewrite !list_lookup_total_alt, Heq. Qed.

Section combines_facts.
Context {k : Z} {st : state} {cs : list nat} {st' : state}.
Context (Hc : combines k st cs st').

Lemma combines_at_parent :
  nodes st' !!! nextNodeIdx st
  = mkNode (-1) (-1) (sum_hops (nodes st) 0 cs + k) (sum_freq (nodes st) 0 cs).
Proof. apply list_lookup_total_correct, Hc. Qed.

Lemma combines_at_kid j c :
  cs !! j = Some c ->
  nodes st' !!! c = adopt (nextNodeIdx st) (Z.of_nat j) (nodes st !!! c).
Proof. intros Hj. by apply list_lookup_total_correct, Hc. Qed.

Lemma combines_at_other p :
  p ∉ cs -> p <> nextNodeIdx st -> nodes st' !!! p = nodes st !!! p.
Proof. intros H1 H2. by apply lookup_total_eq, Hc. Qed.

Lemma combines_kid_in_heap c : c ∈ cs -> c ∈ nodeHeap st.
Proof.
  intros Hin. destruct (cb_heap _ _ _ _ Hc) as (h1 & Hp & _).
  rewrite Hp. apply elem_of_app. by left.
Qed.

Lemma combines_NoDup_kids : NoDup (nodeHeap st) -> NoDup cs.
Proof.
  intros Hnd. destruct (cb_heap _ _ _ _ Hc) as (h1 & Hp & _).
  rewrite Hp in Hnd. by apply NoDup_app in Hnd as (? & _ & _).
Qed.

Lemma combines_heap_after x :
  NoDup (nodeHeap st) ->
  x ∈ nodeHeap st' <->
  x = nextNodeIdx st \/ (x ∈ nodeHeap st /\ x ∉ cs).
Proof.
  intros Hnd. destruct (cb_heap _ _ _ _ Hc) as (h1 & Hp & Hp').
  rewrite Hp in Hnd. apply NoDup_app in Hnd as (_ & Hdisj & _).
  rewrite Hp', Hp, elem_of_cons, elem_of_app. split.
  - intros [->|Hx]; [by left|]. right. split; [by right|].
    intros Hxcs. by apply (Hdisj x).
  - intros [->|[[Hx|Hx] Hn]]; [by left | done | by right].
Qed.

Lemma combines_NoDup_after :
  NoDup (nodeHeap st) ->
  (forall x, x ∈ nodeHeap st -> (x < nextNodeIdx st)%nat) ->
  NoDup (nodeHeap st').
Proof.
  intros Hnd Hlt. destruct (cb_heap _ _ _ _ Hc) as (h1 & Hp & Hp').
  rewrite Hp'. rewrite Hp in Hnd. apply NoDup_app in Hnd as (_ & _ & Hnd1).
  apply NoDup_cons. split; [|done].
  intros Hin. assert (nextNodeIdx st ∈ nodeHeap st) as Hin'
    by (rewrite Hp; apply elem_of_app; by right).
  apply Hlt in Hin'. lia.
Qed.

Lemma combines_length_after :
  (length (nodeHeap st') + Z.to_nat k = length (nodeHeap st) + 1)%nat.
Proof.
  destruct (cb_heap _ _ _ _ Hc) as (h1 & Hp & Hp').
  apply Permutation_length in Hp, Hp'. rewrite length_app in Hp.
  cbn in Hp'. rewrite <- (cb_count _ _ _ _ Hc). lia.
Qed.

End combines_facts.

Lemma sum_hops_nonneg ns cs hops :
  0 <= hops -> (forall c, c ∈ cs -> 0 <= TotalHops (ns !!! c)) ->
  0 <= sum_hops ns hops cs.
Proof.
  unfold sum_hops. revert hops.
  induction cs as [|c cs IH]; intros hops Hh Hcs; [done|]. cbn [foldl].
  apply IH.
  - specialize (Hcs c ltac:(apply list_elem_of_here)). lia.
  - intros c' Hc'. apply Hcs. by apply list_elem_of_further.
Qed.

(** ** Filling the pool *)

Lemma fill_leaves_spec : forall fs pre m,
  (length fs <= m)%nat ->
  fill_leaves (pre ++ replicate m zero_node) (length pre) fs
  = Ok (pre ++ (leaf <$> fs) ++ replicate (m - length fs) zero_node).
Proof.
  induction fs as [|f fs IH]; intros pre m Hm.
  - cbn. by rewrite Nat.sub_0_r.
  - cbn [fill_leaves length] in *.
    rewrite set_lt by (rewrite length_app, length_replicate; lia).
    rewrite bind_Ok.
    destruct m as [|m]; [lia|]. cbn [replicate].
    replace (<[length pre:=leaf f]> (pre ++ zero_node :: replicate m zero_node))
      with ((pre ++ [leaf f]) ++ replicate m zero_node).
    + replace (S (length pre)) with (length (pre ++ [leaf f]))
        by (rewrite length_app; cbn; lia).
      rewrite IH by lia. rewrite fmap_cons, <- !app_assoc. done.
    + rewrite insert_app_r_alt by lia. rewrite Nat.sub_diag. cbn.
      by rewrite <- app_assoc.
Qed.

(** ** The invariant of the tree builder *)

Section tree.
Variables (base : Z) (freqs : list Z).
Hypothesis Hbase : 2 <= base.

(** The number of leaves. *)
Local Abbreviation C := (length freqs).

Lemma tree_inv_in_pool st : tree_inv base freqs st -> in_pool (nodes st) (nodeHeap st).
Proof.
  intros Hi. apply Forall_forall. intros x Hx.
  pose proof (inv_heap_lt _ _ _ Hi x Hx). pose proof (inv_next_hi _ _ _ Hi). lia.
Qed.

Lemma combines_tree_inv st cs st' :
  tree_inv base freqs st -> 0 <= arity base freqs (nextNodeIdx st) ->
  (nextNodeIdx st < length (nodes st))%nat ->
  combines (arity base freqs (nextNodeIdx st)) st cs st' -> tree_inv base freqs st'.
Proof.
  intros Hi Hk Hfree Hc.
  pose proof (combines_at_parent Hc) as Hat_parent.
  pose proof (combines_at_kid Hc) as Hat_kid.
  set (P := nextNodeIdx st) in *.
  pose proof (cb_next _ _ _ _ Hc) as Hnext. fold P in Hnext.
  pose proof (combines_kid_in_heap Hc) as Hkh.
  pose proof (combines_NoDup_kids Hc (inv_nodup _ _ _ Hi)) as Hndcs.
  assert (forall c, c ∈ cs -> (c < P)%nat) as Hcs_lt
    by (intros c Hin; by apply (inv_heap_lt _ _ _ Hi), Hkh).
  assert (P ∉ cs) as HPcs by (intros Hin; apply Hcs_lt in Hin; lia).
  assert (forall c, c ∈ cs -> ParentIndex (nodes st !!! c) = -1) as Hcs_root
    by (intros c Hin; apply (inv_roots _ _ _ Hi); auto).
  constructor; rewrite ?Hnext.
  - pose proof (inv_next_lo _ _ _ Hi). lia.
  - rewrite (cb_length _ _ _ _ Hc). lia.
  - apply (combines_NoDup_after Hc); apply Hi.
  - apply Hc.
  - intros x Hx. apply (combines_heap_after Hc) in Hx; [|apply Hi].
    destruct Hx as [->|[Hx _]]; [lia|]. apply (inv_heap_lt _ _ _ Hi) in Hx. lia.
  - intros x Hx. rewrite (combines_heap_after Hc) by apply Hi.
    destruct (decide (x = P)) as [->|HxP].
    { rewrite Hat_parent. cbn. split; [by left | done]. }
    destruct (decide (x ∈ cs)) as [Hin|Hin].
    { apply list_elem_of_lookup in Hin as Hj. destruct Hj as [j Hj].
      rewrite (Hat_kid j x Hj). cbn. split; [lia|].
      intros [?|[_ ?]]; done. }
    rewrite (combines_at_other Hc) by done.
    rewrite (inv_roots _ _ _ Hi) by lia. split; [by right|].
    intros [?|[? _]]; done.
  - intros x Hx. destruct (decide (x = P)) as [->|HxP].
    { rewrite Hat_parent. cbn. done. }
    destruct (decide (x ∈ cs)) as [Hin|Hin].
    { apply list_elem_of_lookup in Hin as Hj. destruct Hj as [j Hj].
      rewrite (Hat_kid j x Hj). cbn. intros _. exists P.
      split; [done|]. pose proof (inv_next_lo _ _ _ Hi). fold P in H.
      split; [lia|]. split; [by apply Hcs_lt|].
      apply lookup_lt_Some in Hj. rewrite (cb_count _ _ _ _ Hc) in Hj. lia. }
    rewrite (combines_at_other Hc) by done. intros Hnr.
    destruct (inv_links _ _ _ Hi x ltac:(lia) Hnr) as (p & Hp & Hpr & Hxp & Hs).
    exists p. fold P in Hpr. split; [done|]. split; [lia|]. done.
  - assert (forall x j, cs !! j = Some x -> forall y, (y < S P)%nat ->
              ParentIndex (nodes st' !!! y) = Z.of_nat P ->
              SiblingIndex (nodes st' !!! y) = Z.of_nat j -> x = y) as Hkid.
    { intros x j Hj y Hy Hpy Hsy.
      destruct (decide (y = P)) as [->|HyP].
      { rewrite Hat_parent in Hpy. cbn in Hpy. lia. }
      destruct (decide (y ∈ cs)) as [Hin|Hin].
      - apply list_elem_of_lookup in Hin as [j' Hj'].
        rewrite (Hat_kid j' y Hj') in Hsy. cbn in Hsy.
        assert (j' = j) as -> by lia. congruence.
      - rewrite (combines_at_other Hc) in Hpy by done.
        destruct (decide (ParentIndex (nodes st !!! y) = -1)) as [E|E];
          [lia|].
        destruct (inv_links _ _ _ Hi y ltac:(lia) E) as (p & Hp & Hpr & _).
        fold P in Hpr. lia. }
    intros x y Hx Hy Hnr Hpar Hsib.
    destruct (decide (x = P)) as [->|HxP].
    { rewrite Hat_parent in Hnr. done. }
    destruct (decide (x ∈ cs)) as [Hin|Hin].
    { apply list_elem_of_lookup in Hin as [j Hj].
      rewrite (Hat_kid j x Hj) in Hpar, Hsib. cbn in Hpar, Hsib.
      by apply (Hkid x j Hj y Hy). }
    destruct (decide (y = P)) as [->|HyP].
    { rewrite Hat_parent in Hpar. cbn in Hpar. done. }
    destruct (decide (y ∈ cs)) as [Hiny|Hiny].
    { apply list_elem_of_lookup in Hiny as [j Hj].
      rewrite (Hat_kid j y Hj) in Hpar, Hsib. cbn in Hpar, Hsib.
      symmetry. by apply (Hkid y j Hj x Hx). }
    rewrite (combines_at_other Hc) in Hnr, Hpar, Hsib by done.
    rewrite (combines_at_other Hc y) in Hpar, Hsib by done.
    apply (inv_sib_inj _ _ _ Hi); (done || lia).
  - intros x Hx. destruct (decide (x = P)) as [->|HxP].
    { rewrite Hat_parent. cbn.
      pose proof (sum_hops_nonneg (nodes st) cs 0 ltac:(lia)) as Hs.
      specialize (Hs ltac:(intros c Hin; apply (inv_hops _ _ _ Hi);
                           by apply Hcs_lt)). lia. }
    destruct (decide (x ∈ cs)) as [Hin|Hin].
    { apply list_elem_of_lookup in Hin as [j Hj].
      rewrite (Hat_kid j x Hj). cbn.
      apply (inv_hops _ _ _ Hi). apply Hcs_lt. by eapply list_elem_of_lookup_2. }
    rewrite (combines_at_other Hc) by done. apply (inv_hops _ _ _ Hi). lia.
  - intros i f Hf. pose proof (lookup_lt_Some _ _ _ Hf) as Hlt.
    pose proof (inv_next_lo _ _ _ Hi). fold P in H.
    destruct (decide (i ∈ cs)) as [Hin|Hin].
    { apply list_elem_of_lookup in Hin as [j Hj].
      rewrite (Hat_kid j i Hj). cbn. by apply (inv_leaf _ _ _ Hi). }
    rewrite (combines_at_other Hc) by (done || lia). by apply (inv_leaf _ _ _ Hi).
  - intros p Hp. destruct (decide (p = P)) as [->|HpP].
    + rewrite <- (Z2Nat.id (arity base freqs P)) by done.
      rewrite <- (cb_count _ _ _ _ Hc). f_equal.
      apply Permutation_length, NoDup_Permutation;
        [apply NoDup_children | done |].
      intros x. rewrite elem_of_children. split.
      * intros [Hx Hpx].
        destruct (decide (x = P)) as [->|HxP].
        { rewrite Hat_parent in Hpx. cbn in Hpx. lia. }
        destruct (decide (x ∈ cs)) as [Hin|Hin]; [done|].
        rewrite (combines_at_other Hc) in Hpx by done.
        destruct (decide (ParentIndex (nodes st !!! x) = -1)) as [E|E];
          [lia|].
        destruct (inv_links _ _ _ Hi x ltac:(lia) E) as (p & Hp' & Hpr & _).
        fold P in Hpr. lia.
      * intros Hin. split; [apply Hcs_lt in Hin; lia|].
        apply list_elem_of_lookup in Hin as [j Hj].
        by rewrite (Hat_kid j x Hj).
    + rewrite <- (inv_children _ _ _ Hi p) by (fold P; lia). f_equal.
      apply Permutation_length, NoDup_Permutation; try apply NoDup_children.
      intros x. rewrite !elem_of_children. fold P.
      destruct (decide (x = P)) as [->|HxP].
      { rewrite Hat_parent. cbn. split; intros [? ?]; lia. }
      destruct (decide (x ∈ cs)) as [Hin|Hin].
      { rewrite (Hcs_root x Hin).
        apply list_elem_of_lookup in Hin as [j Hj].
        rewrite (Hat_kid j x Hj). cbn. split; intros [? ?]; lia. }
      rewrite (combines_at_other Hc) by done. split; intros [? ?]; split;
        (done || lia).
  - intros _. rewrite (combines_heap_after Hc) by apply Hi. left.
    fold P. lia.
Qed.

(** *** The pool is large enough, and the counts come out even *)

Lemma initial_count_range :
  (2 <= C)%nat -> 2 <= (initial_count base freqs) <= base /\ (initial_count base freqs) <= Z.of_nat C.
Proof.
  intros HC. unfold initial_count.
  rewrite Z.rem_mod_nonneg by lia.
  pose proof (Z.mod_pos_bound (Z.of_nat C - 2) (base - 1) ltac:(lia)).
  pose proof (Z.mod_le (Z.of_nat C - 2) (base - 1) ltac:(lia) ltac:(lia)).
  lia.
Qed.

Lemma arity_range p : (2 <= C)%nat -> 2 <= arity base freqs p <= base.
Proof.
  intros HC. unfold arity. pose proof (initial_count_range HC).
  case_decide; lia.
Qed.

Lemma numIters_pos : (1 <= C)%nat -> 1 <= (numIters base freqs).
Proof.
  intros HC. unfold numIters.
  pose proof (Z.quot_pos (Z.of_nat C - 1) (base - 1) ltac:(lia) ltac:(lia)).
  lia.
Qed.

(** After the first combination the heap holds [1 + (base - 1) * q] nodes
    and the pool has room for [q] more parents. *)
Lemma first_combine_count :
  (2 <= C)%nat ->
  exists q : nat,
    Z.of_nat C - (initial_count base freqs) + 1 = 1 + (base - 1) * Z.of_nat q /\
    Z.of_nat C + 1 + Z.of_nat q <= (numNodes base freqs).
Proof.
  intros HC. unfold initial_count, numNodes, numIters.
  rewrite Z.rem_mod_nonneg by lia. rewrite Z.quot_div_nonneg by lia.
  exists (Z.to_nat ((Z.of_nat C - 2) / (base - 1))).
  pose proof (Z.div_pos (Z.of_nat C - 2) (base - 1) ltac:(lia) ltac:(lia)).
  rewrite Z2Nat.id by done.
  pose proof (Z.div_mod (Z.of_nat C - 2) (base - 1) ltac:(lia)).
  pose proof (Z.div_le_mono (Z.of_nat C - 2) (Z.of_nat C - 1) (base - 1)
                ltac:(lia) ltac:(lia)).
  lia.
Qed.

(** *** The main loop and [build] *)

(** A further property of the state that every combination preserves. *)
Variable I : state -> Prop.
Hypothesis I_step : forall st cs st',
  tree_inv base freqs st -> I st -> (nextNodeIdx st < length (nodes st))%nat ->
  combines (arity base freqs (nextNodeIdx st)) st cs st' -> I st'.

Lemma combine_step st :
  (2 <= C)%nat -> tree_inv base freqs st -> I st ->
  (nextNodeIdx st < length (nodes st))%nat ->
  arity base freqs (nextNodeIdx st) <= Z.of_nat (length (nodeHeap st)) ->
  exists st', combine (arity base freqs (nextNodeIdx st)) st
              = Ok (st', mkCombined (arity base freqs (nextNodeIdx st))
                                    (arity base freqs (nextNodeIdx st))) /\
    tree_inv base freqs st' /\ I st' /\
    nextNodeIdx st' = S (nextNodeIdx st) /\
    length (nodes st') = length (nodes st) /\
    Z.of_nat (length (nodeHeap st'))
    = Z.of_nat (length (nodeHeap st)) - arity base freqs (nextNodeIdx st) + 1.
Proof.
  intros HC Hi HI Hfree Hk.
  pose proof (arity_range (nextNodeIdx st) HC) as Har.
  destruct (combine_spec (arity base freqs (nextNodeIdx st)) st) as (cs & st' & Hrun & Hc).
  - by apply tree_inv_in_pool.
  - apply Hi.
  - apply Hi.
  - apply Hi.
  - lia.
  - lia.
  - done.
  - exists st'. split; [done|].
    split; [eapply combines_tree_inv; (done || lia)|].
    split; [by eapply I_step|].
    split; [apply Hc|]. split; [apply Hc|].
    pose proof (combines_length_after Hc). lia.
Qed.

Lemma combine_loop_spec : forall fuel st (q : nat),
  (2 <= C)%nat -> tree_inv base freqs st -> I st -> (C < nextNodeIdx st)%nat ->
  Z.of_nat (length (nodeHeap st)) = 1 + (base - 1) * Z.of_nat q ->
  (nextNodeIdx st + q <= length (nodes st))%nat -> (q <= fuel)%nat ->
  exists st', combine_loop fuel base st
              = Ok (st', replicate q (mkCombined base base)) /\
    tree_inv base freqs st' /\ I st' /\ length (nodeHeap st') = 1%nat /\
    nextNodeIdx st' = (nextNodeIdx st + q)%nat /\
    length (nodes st') = length (nodes st).
Proof.
  induction fuel as [|fuel IH]; intros st q HC Hi HI Hnext Hlen Hroom Hfuel.
  - assert (q = 0%nat) as -> by lia. cbn [combine_loop].
    rewrite decide_False by lia. exists st. cbn.
    split; [done|]. split; [done|]. split; [done|].
    split; [lia|]. split; [lia|done].
  - cbn [combine_loop]. destruct (decide (1 < length (nodeHeap st))%nat) as [Hgt|Hle].
    + destruct q as [|q]; [lia|].
      assert (arity base freqs (nextNodeIdx st) = base) as Har
        by (unfold arity; rewrite decide_False by lia; done).
      destruct (combine_step st HC Hi HI ltac:(lia) ltac:(nia))
        as (st1 & Hrun & Hi1 & HI1 & Hn1 & Hl1 & Hh1).
      rewrite Har in Hrun, Hh1. rewrite Hrun, bind_Ok. cbv beta iota.
      destruct (IH st1 q HC Hi1 HI1 ltac:(lia) ltac:(lia) ltac:(lia)
                  ltac:(lia)) as (st2 & Hloop & Hi2 & HI2 & Hh2 & Hn2 & Hl2).
      rewrite Hloop, bind_Ok. cbv beta iota. exists st2.
      split; [done|]. split; [done|]. split; [done|].
      split; [lia|]. split; [lia|congruence].
    + assert (q = 0%nat) as -> by nia. exists st. cbn.
      split; [done|]. split; [done|]. split; [done|].
    split; [lia|]. split; [lia|done].
Qed.

Lemma pool0_leaf i f : freqs !! i = Some f -> (pool0 base freqs) !!! i = leaf f.
Proof.
  intros Hf. apply list_lookup_total_correct. unfold pool0.
  apply lookup_app_l_Some. by rewrite list_lookup_fmap, Hf.
Qed.

Lemma pool0_length : (2 <= C)%nat -> length (pool0 base freqs) = Z.to_nat (numNodes base freqs).
Proof.
  intros HC. unfold pool0. rewrite length_app, length_fmap, length_replicate.
  pose proof (numIters_pos ltac:(lia)). unfold numNodes. lia.
Qed.

Lemma initial_tree_inv h0 :
  (2 <= C)%nat -> h0 ≡ₚ seq 0 C -> is_heap (pool0 base freqs) h0 ->
  tree_inv base freqs (mkState (pool0 base freqs) h0 C).
Proof.
  intros HC Hp Hheap.
  assert (forall x, (x < C)%nat -> ParentIndex ((pool0 base freqs) !!! x) = -1
                                   /\ TotalHops ((pool0 base freqs) !!! x) = 0) as Hleaf.
  { intros x Hx. destruct (lookup_lt_is_Some_2 freqs x Hx) as [f Hf].
    by rewrite (pool0_leaf x f Hf). }
  constructor; cbn [nodes nodeHeap nextNodeIdx].
  - done.
  - rewrite pool0_length by done. pose proof (numIters_pos ltac:(lia)).
    unfold numNodes. lia.
  - rewrite Hp. apply NoDup_seq.
  - done.
  - intros x. rewrite Hp, elem_of_seq. lia.
  - intros x Hx. rewrite Hp, elem_of_seq. destruct (Hleaf x Hx). split; [lia|done].
  - intros x Hx Hn. by destruct (Hleaf x Hx).
  - intros x y Hx _ Hn. by destruct (Hleaf x Hx).
  - intros x Hx. destruct (Hleaf x Hx). lia.
  - intros i f Hf. by rewrite (pool0_leaf i f Hf).
  - intros p Hp'. lia.
  - lia.
Qed.

Hypothesis I_init : forall h0,
  h0 ≡ₚ seq 0 C -> is_heap (pool0 base freqs) h0 -> I (mkState (pool0 base freqs) h0 C).

Lemma build_spec :
  (2 <= C)%nat ->
  exists st (q : nat),
    build base freqs
    = Ok (st, mkCombined (initial_count base freqs) (initial_count base freqs)
                :: replicate q (mkCombined base base)) /\
    tree_inv base freqs st /\ I st /\ length (nodeHeap st) = 1%nat /\
    nextNodeIdx st = (C + 1 + q)%nat /\
    (nextNodeIdx st <= length (nodes st))%nat /\
    length (nodes st) = Z.to_nat (numNodes base freqs).
Proof.
  intros HC. unfold build.
  pose proof (numIters_pos ltac:(lia)) as Hit.
  change (Z.quot (Z.of_nat (length freqs) - 1) (base - 1) + 1) with (numIters base freqs).
  change (Z.of_nat (length freqs) + (numIters base freqs)) with (numNodes base freqs).
  cbv zeta.
  destruct (Z.ltb_spec (numNodes base freqs) 0) as [Hneg|_];
    [unfold numNodes in Hneg; lia|].
  pose proof (fill_leaves_spec freqs [] (Z.to_nat (numNodes base freqs))) as Hfill.
  cbn [app length] in Hfill. fold (pool0 base freqs) in Hfill.
  rewrite Hfill by (unfold numNodes; lia). rewrite bind_Ok.
  destruct (Init_spec (pool0 base freqs) (seq 0 (length freqs))) as (h0 & Hinit & Hp0 & Hheap0).
  { apply Forall_forall. intros x Hx. apply elem_of_seq in Hx.
    rewrite pool0_length by done. unfold numNodes. lia. }
  rewrite Hinit, bind_Ok. cbn [nodeHeap].
  pose proof (initial_tree_inv h0 HC Hp0 Hheap0) as Hi0.
  pose proof (I_init h0 Hp0 Hheap0) as HI0.
  assert (length h0 = C) as Hlen0
    by (apply Permutation_length in Hp0; by rewrite length_seq in Hp0).
  rewrite Hlen0. fold (initial_count base freqs).
  pose proof (initial_count_range HC) as Hic.
  destruct (Z.ltb_spec 0 (initial_count base freqs)) as [_|Hbad]; [|lia].
  assert (arity base freqs C = (initial_count base freqs)) as Har
    by (unfold arity; by rewrite decide_True).
  destruct (combine_step (mkState (pool0 base freqs) h0 C) HC Hi0 HI0)
    as (st1 & Hrun & Hi1 & HI1 & Hn1 & Hl1 & Hh1); cbn [nodes nodeHeap nextNodeIdx] in *.
  { rewrite pool0_length by done. unfold numNodes. lia. }
  { lia. }
  rewrite Har in Hrun, Hh1. rewrite Hrun, !bind_Ok. cbv beta iota.
  destruct (first_combine_count HC) as (q & Hq & Hroom).
  destruct (combine_loop_spec (length (nodeHeap st1)) st1 q HC Hi1 HI1)
    as (st2 & Hloop & Hi2 & HI2 & Hh2 & Hn2 & Hl2).
  { lia. }
  { lia. }
  { rewrite Hl1, pool0_length by done. lia. }
  { nia. }
  rewrite Hloop, bind_Ok. cbv beta iota. exists st2, q.
  split; [done|]. split; [done|]. split; [done|]. split; [done|].
  split; [lia|]. split; [apply Hi2|].
  by rewrite Hl2, Hl1, pool0_length.
Qed.

End tree.

(** ** The label extractor *)

Lemma walk_unfold fuel ns c data :
  walk fuel ns c data
  = if ParentIndex c =? -1 then Ok data else
    match fuel with
    | O => Err OutOfFuel
    | S fuel' =>
        let data' := data ++ [SiblingIndex c] in
        c' ← getZ ns (ParentIndex c);
        walk fuel' ns c' data'
    end.
Proof. destruct fuel; reflexivity. Qed.

Lemma getZ_of_nat {A} `{Inhabited A} (s : list A) (p : nat) :
  (p < length s)%nat -> getZ s (Z.of_nat p) = Ok (s !!! p).
Proof.
  intros Hp. unfold getZ. destruct (Z.ltb_spec (Z.of_nat p) 0); [lia|].
  rewrite Nat2Z.id. by apply get_lt.
Qed.

Lemma climbs_functional ns x l1 l2 :
  climbs ns x l1 -> climbs ns x l2 -> l1 = l2.
Proof.
  intros H1. revert l2. induction H1 as [x Hr|x p l Hp H1 IH]; intros l2 H2.
  - inversion H2 as [|? p ? Hp]; [done|]. lia.
  - inversion H2 as [? Hr|? p' l' Hp' H2']; subst; [lia|].
    assert (p' = p) as -> by lia. f_equal. by apply IH.
Qed.

Section labels.
Variables (base : Z) (freqs : list Z).
Hypothesis Hbase : 2 <= base.
Local Abbreviation C := (length freqs).

Variable st : state.
Hypothesis Hinv : tree_inv base freqs st.
Let ns := nodes st.
Let next := nextNodeIdx st.

(** Every created node climbs to a root, and [walk] follows it within
    its budget. *)
Lemma walk_spec x :
  (x < next)%nat ->
  exists l, climbs ns x l /\ (length l + x < next)%nat /\
    forall fuel data, (length l <= fuel)%nat ->
      walk fuel ns (ns !!! x) data = Ok (data ++ l).
Proof.
  remember (next - x)%nat as m eqn:Hm. revert x Hm.
  induction (lt_wf m) as [m _ IH]. intros x -> Hx.
  destruct (decide (ParentIndex (ns !!! x) = -1)) as [Hroot|Hnr].
  - exists []. split; [by constructor|]. split; [cbn; lia|].
    intros fuel data _. rewrite walk_unfold.
    rewrite (proj2 (Z.eqb_eq _ _) Hroot). by rewrite app_nil_r.
  - destruct (inv_links _ _ _ Hinv x Hx Hnr) as (p & Hp & Hpr & Hxp & _).
    fold next ns in Hp, Hpr.
    destruct (IH (next - p)%nat ltac:(lia) p eq_refl ltac:(lia))
      as (l & Hcl & Hlen & Hwalk).
    exists (SiblingIndex (ns !!! x) :: l).
    split; [by econstructor|]. split; [cbn; lia|].
    intros fuel data Hfuel. rewrite walk_unfold.
    destruct (Z.eqb_spec (ParentIndex (ns !!! x)) (-1)) as [?|_]; [done|].
    destruct fuel as [|fuel]; [cbn in Hfuel; lia|]. cbv zeta.
    rewrite Hp, getZ_of_nat, bind_Ok.
    + rewrite Hwalk by (cbn in Hfuel; lia). by rewrite <- app_assoc.
    + pose proof (inv_next_hi _ _ _ Hinv). fold next ns in H. lia.
Qed.

Hypothesis Hone : length (nodeHeap st) = 1%nat.

Lemma root_unique x y :
  (x < next)%nat -> (y < next)%nat ->
  ParentIndex (ns !!! x) = -1 -> ParentIndex (ns !!! y) = -1 -> x = y.
Proof.
  intros Hx Hy Hrx Hry.
  apply (inv_roots _ _ _ Hinv) in Hrx; [|done].
  apply (inv_roots _ _ _ Hinv) in Hry; [|done].
  destruct (nodeHeap st) as [|r [|??]]; try done.
  apply list_elem_of_singleton in Hrx, Hry. congruence.
Qed.

(** If the climb of [x] is a tail of the climb of [y], then [x] is [y] or
    one of its ancestors, and so has a child. *)
Lemma climbs_suffix y ly :
  climbs ns y ly -> (y < next)%nat ->
  forall x lx t, (x < next)%nat -> climbs ns x lx -> ly = t ++ lx ->
    (t = [] -> x = y) /\
    (t <> [] -> exists c, (c < next)%nat /\
                          ParentIndex (ns !!! c) = Z.of_nat x).
Proof.
  induction 1 as [y Hr|y p l Hp Hcl IH]; intros Hy x lx t Hx Hclx Heq.
  - symmetry in Heq. apply app_eq_nil in Heq as [-> ->].
    split; [|done]. intros _.
    inversion Hclx; subst. by apply root_unique.
  - assert (ParentIndex (ns !!! y) <> -1) as Hnr by lia.
    destruct (inv_links _ _ _ Hinv y Hy Hnr) as (p' & Hp' & Hpr & _).
    fold ns next in Hp', Hpr. assert (p' = p) as -> by lia.
    destruct t as [|s t]; cbn in Heq.
    + split; [|done]. intros _. subst lx.
      inversion Hclx as [|? px ? Hpx Hclpx]; subst.
      assert (ParentIndex (ns !!! x) <> -1) as Hnrx by lia.
      destruct (inv_links _ _ _ Hinv x Hx Hnrx) as (p' & Hp'' & Hpr' & _).
      fold ns next in Hp'', Hpr'. assert (p' = px) as -> by lia.
      destruct (IH ltac:(lia) px l [] ltac:(lia) Hclpx eq_refl) as [Heq' _].
      specialize (Heq' eq_refl). subst px.
      apply (inv_sib_inj _ _ _ Hinv); fold ns; (done || congruence).
    + injection Heq as _ ->. split; [done|]. intros _.
      destruct (IH ltac:(lia) x lx t Hx Hclx eq_refl) as [H0 H1].
      destruct t as [|s' t'].
      * specialize (H0 eq_refl). subst p. by exists y.
      * by apply H1.
Qed.

End labels.

(** Later appends to the shared buffer do not touch a label handed out
    earlier. *)
Lemma subslice_spans paths : forall pre post,
  subslice (pre ++ concat (@rev Z <$> paths) ++ post)
    <$> spans_of (length pre) paths
  = @rev Z <$> paths.
Proof.
  induction paths as [|l rest IH]; intros pre post; [done|].
  cbn [spans_of fmap list_fmap concat]. f_equal.
  - unfold subslice. cbn [fst snd].
    rewrite drop_app_length.
    replace (length pre + length l - length pre)%nat with (length (rev l))
      by (rewrite length_rev; lia).
    rewrite <- !app_assoc. by rewrite take_app_length.
  - specialize (IH (pre ++ rev l) post).
    rewrite length_app, length_rev in IH.
    replace (pre ++ (rev l ++ concat (@rev Z <$> rest)) ++ post)
      with ((pre ++ rev l) ++ concat (@rev Z <$> rest) ++ post)
      by (by rewrite <- !app_assoc).
    exact IH.
Qed.

Lemma extract_spec ns next :
  (forall x, (x < next)%nat ->
     exists l, climbs ns x l /\
       forall data, walk (length ns) ns (ns !!! x) data = Ok (data ++ l)) ->
  forall xs data labels, Forall (fun x => (x < next)%nat) xs ->
    exists paths, Forall2 (climbs ns) xs paths /\
      extract ns ((fun x => ns !!! x) <$> xs) data labels
      = Ok (data ++ concat (@rev Z <$> paths),
            labels ++ spans_of (length data) paths).
Proof.
  intros Hw. induction xs as [|x xs IH]; intros data labels Hxs.
  - exists []. split; [constructor|]. cbn. by rewrite !app_nil_r.
  - apply Forall_cons in Hxs as [Hx Hxs].
    destruct (Hw x Hx) as (l & Hcl & Hwalk).
    cbn [fmap list_fmap extract]. rewrite Hwalk, bind_Ok. cbv zeta.
    assert (reverse_from (length data) (data ++ l) = data ++ rev l) as Hrev.
    { unfold reverse_from. by rewrite take_app_length, drop_app_length. }
    rewrite Hrev.
    destruct (IH (data ++ rev l) (labels ++ [(length data, length (data ++ rev l))]) Hxs)
      as (paths & Hpaths & Hrun).
    exists (l :: paths). split; [by constructor|].
    rewrite Hrun. cbn [fmap list_fmap concat spans_of].
    rewrite !length_app, length_rev, <- !app_assoc. done.
Qed.

Lemma take_as_lookups {A} `{Inhabited A} (l : list A) n :
  (n <= length l)%nat -> take n l = (fun x => l !!! x) <$> seq 0 n.
Proof.
  intros Hn. apply list_eq. intros i.
  rewrite list_lookup_fmap. destruct (decide (i < n)%nat) as [Hi|Hi].
  - rewrite lookup_take_lt by done. rewrite lookup_seq_lt by done. cbn.
    apply list_lookup_lookup_total_lt. lia.
  - rewrite lookup_take_ge by lia. by rewrite lookup_seq_ge by lia.
Qed.

Lemma Label_many base freqs :
  (2 <= length freqs)%nat ->
  Label base freqs
  = if base <? 2 then Err InvalidArgument else
    built ← build base freqs;
    let st := fst built in
    root ← get (nodeHeap st) 0;
    rootNode ← get (nodes st) root;
    let totalHops := TotalHops rootNode in
    if totalHops <? 0 then Err MakeSliceRange else
    '(labelData, labels) ←
      extract (nodes st) (take (length freqs) (nodes st)) [] [];
    Ok (subslice labelData <$> (labels : list span)).
Proof. intros Hlen. destruct freqs as [|? [|? ?]]; cbn in Hlen; (lia || done). Qed.

Section label_spec.
Variables (base : Z) (freqs : list Z).
Hypothesis Hbase : 2 <= base.
Local Abbreviation C := (length freqs).
Hypothesis HC : (2 <= C)%nat.

Variable I : state -> Prop.
Hypothesis I_step : forall st cs st',
  tree_inv base freqs st -> I st ->
  (nextNodeIdx st < length (nodes st))%nat ->
  combines (arity base freqs (nextNodeIdx st)) st cs st' -> I st'.
Hypothesis I_init : forall h0,
  h0 ≡ₚ seq 0 C -> is_heap (pool0 base freqs) h0 ->
  I (mkState (pool0 base freqs) h0 C).

(** For two items or more, [Label] returns the climbs of the leaves of the
    tree that [build] returns, each reversed. *)
Lemma Label_spec :
  exists st (q : nat) paths,
    build base freqs
    = Ok (st, mkCombined (initial_count base freqs) (initial_count base freqs)
                :: replicate q (mkCombined base base)) /\
    tree_inv base freqs st /\ I st /\
    length (nodeHeap st) = 1%nat /\
    nextNodeIdx st = (C + 1 + q)%nat /\
    length (nodes st) = Z.to_nat (numNodes base freqs) /\
    Forall2 (climbs (nodes st)) (seq 0 C) paths /\
    Label base freqs = Ok (@rev Z <$> paths).
Proof.
  destruct (build_spec base freqs Hbase I I_step I_init HC)
    as (st & q & Hbuild & Hinv & HI & Hone & Hnext & Hhi & Hlen).
 
  assert (forall x, (x < nextNodeIdx st)%nat ->
    exists l, climbs (nodes st) x l /\
      forall data, walk (length (nodes st)) (nodes st) (nodes st !!! x) data
                   = Ok (data ++ l)) as Hw.
  { intros x Hx. destruct (walk_spec base freqs st Hinv x Hx)
      as (l & Hcl & Hl & Hwalk).
    exists l. split; [done|]. intros data. apply Hwalk. lia. }
  destruct (extract_spec (nodes st) (nextNodeIdx st) Hw (seq 0 C) [] [])
    as (paths & Hpaths & Hext).
  { apply Forall_forall. intros x Hx. apply elem_of_seq in Hx. lia. }
  exists st, q, paths.
  split; [done|]. split; [done|]. split; [done|]. split; [done|].
  split; [done|]. split; [done|]. split; [done|].
  rewrite Label_many by done.
  destruct (Z.ltb_spec base 2) as [?|_]; [lia|].
  rewrite Hbuild, bind_Ok. cbn [fst].
  destruct (nodeHeap st) as [|r [|??]] eqn:Eh; try done.
  assert (r < nextNodeIdx st)%nat as Hr
    by (apply (inv_heap_lt _ _ _ Hinv); rewrite Eh; apply list_elem_of_here).
  cbn [get lookup list_lookup]. rewrite bind_Ok.
  rewrite (get_lt (nodes st) r) by lia. rewrite bind_Ok. cbv zeta.
  pose proof (inv_hops _ _ _ Hinv r Hr) as Hh.
  destruct (Z.ltb_spec (TotalHops (nodes st !!! r)) 0) as [?|_]; [lia|].
  rewrite take_as_lookups by lia.
  rewrite Hext, bind_Ok. cbn [app length]. f_equal.
  pose proof (subslice_spans paths [] []) as Hs.
  cbn [app length] in Hs. by rewrite app_nil_r in Hs.
Qed.

End label_spec.

(** [Label_spec] with nothing further to carry through the loop. *)
Lemma Label_tree base freqs :
  2 <= base -> (2 <= length freqs)%nat ->
  exists st (q : nat) paths,
    build base freqs
    = Ok (st, mkCombined (initial_count base freqs) (initial_count base freqs)
                :: replicate q (mkCombined base base)) /\
    tree_inv base freqs st /\
    length (nodeHeap st) = 1%nat /\
    nextNodeIdx st = (length freqs + 1 + q)%nat /\
    length (nodes st) = Z.to_nat (numNodes base freqs) /\
    Forall2 (climbs (nodes st)) (seq 0 (length freqs)) paths /\
    Label base freqs = Ok (@rev Z <$> paths).
Proof.
  intros Hbase HC.
  destruct (Label_spec base freqs Hbase HC (fun _ => True))
    as (st & q & paths & H1 & H2 & _ & H3); [done | done |].
  by exists st, q, paths.
Qed.

Lemma Label_nil base : 2 <= base -> Label base [] = Ok [].
Proof. intros H. unfold Label. destruct (Z.ltb_spec base 2); [lia | done]. Qed.

Lemma Label_single base f : 2 <= base -> Label base [f] = Ok [[0]].
Proof. intros H. unfold Label. destruct (Z.ltb_spec base 2); [lia | done]. Qed.

(** The three shapes of the input. *)
Lemma freqs_cases (freqs : list Z) :
  freqs = [] \/ (exists f, freqs = [f]) \/ (2 <= length freqs)%nat.
Proof.
  destruct freqs as [|f [|g r]]; [by left | right; left; by exists f |].
  right. right. cbn. lia.
Qed.

(** In the finished tree a leaf is not the root. *)
Lemma leaf_has_parent base freqs st (q : nat) x :
  tree_inv base freqs st -> length (nodeHeap st) = 1%nat ->
  nextNodeIdx st = (length freqs + 1 + q)%nat ->
  (x < length freqs)%nat -> ParentIndex (nodes st !!! x) <> -1.
Proof.
  intros Hinv Hone Hnext Hx Hroot.
  apply (inv_roots _ _ _ Hinv) in Hroot; [|lia].
  pose proof (inv_last _ _ _ Hinv ltac:(lia)) as Hlast.
  destruct (nodeHeap st) as [|r [|??]]; try done.
  apply list_elem_of_singleton in Hroot, Hlast. lia.
Qed.

(** Along a climb every sibling index is below [base], and below a
    non-root node the climb is not empty. *)
Lemma climbs_range base freqs st x l :
  2 <= base -> (2 <= length freqs)%nat ->
  tree_inv base freqs st -> climbs (nodes st) x l ->
  (x < nextNodeIdx st)%nat -> Forall (fun s => 0 <= s < base) l.
Proof.
  intros Hbase HC Hinv Hcl. induction Hcl as [x Hr|x p l Hp Hcl IH]; intros Hx.
  - constructor.
  - destruct (inv_links _ _ _ Hinv x Hx ltac:(lia)) as (p' & Hp' & Hpr & _ & Hs).
    assert (p' = p) as -> by lia.
    pose proof (arity_range base freqs Hbase p HC).
    constructor; [lia|]. apply IH. lia.
Qed.

(** * The labels of a finished tree *)

(** The labels of a finished tree, read off [Label_tree]. *)
Lemma Label_lookup (freqs : list Z) st paths ls i a :
  Forall2 (climbs (nodes st)) (seq 0 (length freqs)) paths ->
  ls = @rev Z <$> paths -> ls !! i = Some a ->
  exists l, (i < length freqs)%nat /\ climbs (nodes st) i l /\ a = rev l.
Proof.
  intros Hpaths -> Ha. rewrite list_lookup_fmap in Ha.
  destruct (paths !! i) as [l|] eqn:El; [|done]. injection Ha as <-.
  pose proof (Forall2_length _ _ _ Hpaths) as Hlen. rewrite length_seq in Hlen.
  pose proof (lookup_lt_Some _ _ _ El) as Hi.
  exists l. split; [lia|]. split; [|done].
  eapply Forall2_lookup_lr; [exact Hpaths | | exact El].
  by rewrite lookup_seq_lt by lia.
Qed.

(** For [base >= 2], [Label] returns labels. *)
Lemma Label_succeeds (base : Z) (freqs : list Z) :
  2 <= base -> exists ls, Label base freqs = Ok ls.
Proof.
  intros Hbase.
  destruct (freqs_cases freqs) as [->|[[f ->]|HC]].
  - exists []. by apply Label_nil.
  - exists [[0]]. by apply Label_single.
  - destruct (Label_tree base freqs Hbase HC) as (st & q & paths & H).
    exists (@rev Z <$> paths). apply H.
Qed.

(** * Frequency and label length *)

(** ** Sums of frequencies *)

Lemma zsum_nil : zsum [] = 0.
Proof. reflexivity. Qed.

Lemma zsum_cons x l : zsum (x :: l) = x + zsum l.
Proof. reflexivity. Qed.

Lemma zsum_app l1 l2 : zsum (l1 ++ l2) = zsum l1 + zsum l2.
Proof.
  induction l1 as [|x l1 IH]; [done|].
  cbn [app]. rewrite !zsum_cons, IH. lia.
Qed.

#[global] Instance zsum_perm : Proper (Permutation ==> eq) zsum.
Proof.
  intros l1 l2 Hp. induction Hp as [|x l1 l2 _ IH|x y l|l1 l2 l3 _ IH1 _ IH2];
    rewrite ?zsum_cons; lia.
Qed.

Lemma zsum_upper l hi :
  (forall y, y ∈ l -> y <= hi) -> zsum l <= Z.of_nat (length l) * hi.
Proof.
  induction l as [|x l IH]; intros Hb; [rewrite zsum_nil; cbn; lia|].
  specialize (IH ltac:(intros y Hy; apply Hb; by apply list_elem_of_further)).
  specialize (Hb x ltac:(apply list_elem_of_here)).
  rewrite zsum_cons. cbn [length]. lia.
Qed.

Lemma zsum_lower l lo :
  (forall y, y ∈ l -> lo <= y) -> Z.of_nat (length l) * lo <= zsum l.
Proof.
  induction l as [|x l IH]; intros Hb; [rewrite zsum_nil; cbn; lia|].
  specialize (IH ltac:(intros y Hy; apply Hb; by apply list_elem_of_further)).
  specialize (Hb x ltac:(apply list_elem_of_here)).
  rewrite zsum_cons. cbn [length]. lia.
Qed.

(** A sum against one of its terms. *)
Lemma zsum_split {A} (f : A -> Z) (l : list A) (x : A) :
  x ∈ l -> exists l', l ≡ₚ x :: l' /\ zsum (f <$> l) = f x + zsum (f <$> l').
Proof.
  intros Hx. apply elem_of_Permutation in Hx as [l' Hp].
  exists l'. split; [done|]. by rewrite Hp.
Qed.

Lemma zsum_abs l : Z.abs (zsum l) <= zsum (Z.abs <$> l).
Proof.
  induction l as [|x l IH]; [done|].
  rewrite fmap_cons, !zsum_cons. lia.
Qed.

Lemma zsum_abs_nonneg l : 0 <= zsum (Z.abs <$> l).
Proof.
  induction l as [|x l IH]; [done|].
  rewrite fmap_cons, !zsum_cons. lia.
Qed.

Lemma wrap64_small z : - 2 ^ 63 <= z < 2 ^ 63 -> wrap64 z = z.
Proof.
  intros Hz. unfold wrap64. rewrite Z.mod_small; lia.
Qed.

(** While the absolute values stay below [2^63] the sum of [combine] is
    the sum of the integers. *)
Lemma sum_freq_exact ns cs : forall a,
  Z.abs a + zsum (Z.abs <$> (wt ns <$> cs)) < 2 ^ 63 ->
  sum_freq ns a cs = a + zsum (wt ns <$> cs).
Proof.
  unfold sum_freq. induction cs as [|c cs IH]; intros a Ha.
  - cbn. rewrite zsum_nil. lia.
  - rewrite !fmap_cons, !zsum_cons in *. cbn [foldl].
    pose proof (zsum_abs_nonneg (wt ns <$> cs)).
    rewrite wrap64_small by lia. rewrite IH by lia. lia.
Qed.

(** ** What one combination does to the tree links *)

#[global] Instance parent_of_dec ns x p : Decision (parent_of ns x p).
Proof. unfold parent_of. apply _. Defined.

Section step_facts.
Variables (base : Z) (freqs : list Z).
Context {k : Z} {st : state} {cs : list nat} {st' : state}.
Hypothesis Hi : tree_inv base freqs st.
Hypothesis Hc : combines k st cs st'.

Lemma kid_lt c : c ∈ cs -> (c < nextNodeIdx st)%nat.
Proof. intros Hin. by apply (inv_heap_lt _ _ _ Hi), (combines_kid_in_heap Hc). Qed.

Lemma kid_root c : c ∈ cs -> ParentIndex (nodes st !!! c) = -1.
Proof.
  intros Hin. apply (inv_roots _ _ _ Hi); [by apply kid_lt|].
  by apply (combines_kid_in_heap Hc).
Qed.

Lemma kid_parent c : c ∈ cs -> parent_of (nodes st') c (nextNodeIdx st).
Proof.
  intros Hin. apply list_elem_of_lookup in Hin as [j Hj].
  unfold parent_of. by rewrite (combines_at_kid Hc j c Hj).
Qed.

Lemma wt_after x :
  (x < nextNodeIdx st)%nat -> wt (nodes st') x = wt (nodes st) x.
Proof.
  intros Hx. unfold wt. destruct (decide (x ∈ cs)) as [Hin|Hin].
  - apply list_elem_of_lookup in Hin as [j Hj].
    by rewrite (combines_at_kid Hc j x Hj).
  - rewrite (combines_at_other Hc); [done | done | lia].
Qed.

Lemma parent_before x p :
  (x < nextNodeIdx st)%nat -> parent_of (nodes st) x p ->
  parent_of (nodes st') x p /\ x ∉ cs.
Proof.
  unfold parent_of. intros Hx Hp.
  assert (x ∉ cs) as Hn by (intros Hin; apply kid_root in Hin; lia).
  split; [|done]. rewrite (combines_at_other Hc); [done | done | lia].
Qed.

Lemma parent_after x p :
  (x < S (nextNodeIdx st))%nat -> parent_of (nodes st') x p ->
  (x ∈ cs /\ p = nextNodeIdx st) \/
  ((x ∉ cs) /\ (x < nextNodeIdx st)%nat /\ parent_of (nodes st) x p /\
   (p < nextNodeIdx st)%nat).
Proof.
  unfold parent_of. intros Hx Hp.
  destruct (decide (x = nextNodeIdx st)) as [->|HxP].
  { rewrite (combines_at_parent Hc) in Hp. cbn in Hp. lia. }
  destruct (decide (x ∈ cs)) as [Hin|Hin].
  - left. split; [done|]. pose proof (kid_parent x Hin) as Hk.
    unfold parent_of in Hk. lia.
  - right. rewrite (combines_at_other Hc) in Hp by done.
    split; [done|]. split; [lia|]. split; [done|].
    destruct (inv_links _ _ _ Hi x ltac:(lia) ltac:(lia)) as (p' & Hp' & Hr & _).
    lia.
Qed.

Lemma wt_new : wt (nodes st') (nextNodeIdx st) = sum_freq (nodes st) 0 cs.
Proof. unfold wt. by rewrite (combines_at_parent Hc). Qed.

Lemma children_new :
  children (nodes st') (S (nextNodeIdx st)) (nextNodeIdx st) ≡ₚ cs.
Proof.
  apply NoDup_Permutation.
  - apply NoDup_children.
  - apply (combines_NoDup_kids Hc), Hi.
  - intros x. rewrite elem_of_children. split.
    + intros [Hx Hp]. by destruct (parent_after x _ Hx Hp) as [[? _]|(_ & _ & _ & ?)]; [|lia].
    + intros Hin. split; [apply kid_lt in Hin; lia | by apply kid_parent].
Qed.

Lemma children_old p :
  (p < nextNodeIdx st)%nat ->
  children (nodes st') (S (nextNodeIdx st)) p
  ≡ₚ children (nodes st) (nextNodeIdx st) p.
Proof.
  intros Hp. apply NoDup_Permutation; try apply NoDup_children.
  intros x. rewrite !elem_of_children. split.
  - intros [Hx Hpx]. destruct (parent_after x _ Hx Hpx) as [[_ ?]|(_ & ? & ? & _)];
      [lia | done].
  - intros [Hx Hpx]. destruct (parent_before x p Hx Hpx) as [? _].
    split; [lia | done].
Qed.

End step_facts.

(** ** The order in which nodes are combined *)

Section order.
Variables (base : Z) (freqs : list Z).
Hypothesis Hbase : 2 <= base.
Hypothesis HC : (2 <= length freqs)%nat.

(** No sum of frequencies leaves the 64-bit range. *)
Hypothesis Hfit : zsum (Z.abs <$> freqs) < 2 ^ 63.

Local Abbreviation C := (length freqs).

Lemma order_inv_init h0 :
  h0 ≡ₚ seq 0 C -> is_heap (pool0 base freqs) h0 ->
  order_inv freqs (mkState (pool0 base freqs) h0 C).
Proof.
  intros Hp _.
  assert (forall x p, (x < C)%nat -> ~ parent_of (pool0 base freqs) x p) as Hleaf.
  { intros x p Hx. unfold parent_of.
    destruct (lookup_lt_is_Some_2 freqs x Hx) as [f Hf].
    rewrite (pool0_leaf base freqs x f Hf). cbn. lia. }
  constructor; cbn [nodes nodeHeap nextNodeIdx].
  - intros u v pv _ Hv Hpv. by apply Hleaf in Hpv.
  - intros c pc h Hc Hpc. by apply Hleaf in Hpc.
  - intros a b pa pb Ha _ Hpa. by apply Hleaf in Hpa.
  - intros p Hp'. lia.
  - intros s c pc Hs Hs'. lia.
  - rewrite Hp. apply Z.eq_le_incl. f_equal. f_equal.
    apply list_eq. intros i. rewrite list_lookup_fmap.
    destruct (decide (i < C)%nat) as [Hi|Hi].
    + rewrite lookup_seq_lt by done. cbn.
      destruct (lookup_lt_is_Some_2 freqs i Hi) as [f Hf]. rewrite Hf.
      unfold wt. by rewrite (pool0_leaf base freqs i f Hf).
    + rewrite lookup_seq_ge by lia. cbn. symmetry.
      apply lookup_ge_None. lia.
Qed.

Lemma order_inv_step st cs st' :
  tree_inv base freqs st -> order_inv freqs st ->
  (nextNodeIdx st < length (nodes st))%nat ->
  combines (arity base freqs (nextNodeIdx st)) st cs st' -> order_inv freqs st'.
Proof.
  intros Hi Ho Hfree Hc.
  pose proof (kid_lt base freqs Hi Hc) as Hkid_lt.
  pose proof (kid_parent Hc) as Hkid_parent.
  pose proof (wt_after Hc) as Hwt.
  pose proof (parent_before base freqs Hi Hc) as Hbefore.
  pose proof (parent_after base freqs Hi Hc) as Hafter.
  pose proof (wt_new Hc) as Hwt_new.
  pose proof (children_new base freqs Hi Hc) as Hch_new.
  pose proof (children_old base freqs Hi Hc) as Hch_old.
  pose proof (cb_min _ _ _ _ Hc) as Hmin.
  pose proof (combines_kid_in_heap Hc) as Hkid_heap.
  pose proof (combines_heap_after Hc) as Hheap'.
  pose proof (cb_next _ _ _ _ Hc) as Hnext.
  pose proof (inv_next_lo _ _ _ Hi) as Hlo.
  pose proof (arity_range base freqs Hbase (nextNodeIdx st) HC) as Har.
  pose proof (cb_count _ _ _ _ Hc) as Hcount.
  set (P := nextNodeIdx st) in *.
  assert (exists c0, c0 ∈ cs) as [c0 Hc0].
  { destruct cs as [|c0 ?]; [cbn in Hcount; lia|].
    exists c0. apply list_elem_of_here. }
  assert (forall x, x ∈ nodeHeap st -> ParentIndex (nodes st !!! x) = -1) as Hroot.
  { intros x Hx. apply (inv_roots _ _ _ Hi); [|done].
    by apply (inv_heap_lt _ _ _ Hi). }
  constructor; rewrite ?Hnext.
  - (* oi_min *)
    intros u v pv Hu Hv Hpv Hupv Hlt.
    destruct (Hafter v pv Hv Hpv) as [[Hvin ->]|(Hvn & HvP & Hpv' & HpvP)].
    + rewrite !Hwt in Hlt by (done || by apply Hkid_lt).
      destruct (decide (u ∈ cs)) as [Huin|Hun].
      { exists P. split; [by apply Hkid_parent | done]. }
      destruct (decide (ParentIndex (nodes st !!! u) = -1)) as [Hur|Hunr].
      * apply (inv_roots _ _ _ Hi) in Hur; [|done].
        specialize (Hmin v u Hvin Hur Hun). lia.
      * destruct (inv_links _ _ _ Hi u Hupv Hunr) as (pu & Hpu & Hr & _).
        exists pu. split; [by apply Hbefore | lia].
    + rewrite !Hwt in Hlt by lia.
      destruct (oi_min _ _ Ho u v pv ltac:(lia) HvP Hpv' Hupv Hlt) as (pu & Hpu & Hle).
      exists pu. split; [apply Hbefore; (done || lia) | done].
  - (* oi_mark *)
    intros c pc h Hc' Hpc Hh HhP.
    apply Hheap' in Hh; [|apply Hi].
    destruct Hh as [->|[Hh Hhn]]; [lia|].
    pose proof (inv_heap_lt _ _ _ Hi h Hh) as HhP'. fold P in HhP'.
    destruct (Hafter c pc Hc' Hpc) as [[Hcin ->]|(Hcn & HcP & Hpc' & HpcP)].
    + rewrite !Hwt by (done || by apply Hkid_lt). by apply Hmin.
    + rewrite !Hwt by done.
      destruct (decide (h = (P - 1)%nat)) as [Heq|Hne].
      * transitivity (wt (nodes st) c0).
        -- apply (oi_mark _ _ Ho c pc c0); [done | done | by apply Hkid_heap |].
           fold P. intros ->. by subst h.
        -- by apply Hmin.
      * by apply (oi_mark _ _ Ho c pc h).
  - (* oi_sorted *)
    intros a b pa pb Ha Hb Hpa Hpb Hlt.
    destruct (Hafter b pb Hb Hpb) as [[Hbin ->]|(Hbn & HbP & Hpb' & HpbP)].
    + destruct (Hafter a pa Ha Hpa) as [[_ ->]|(Han & HaP & Hpa' & HpaP)]; [lia|].
      rewrite !Hwt by (done || by apply Hkid_lt).
      destruct (decide (b = (P - 1)%nat)) as [->|Hne]; [right; lia|].
      left. apply (oi_mark _ _ Ho a pa b); [done | done | by apply Hkid_heap | done].
    + destruct (Hafter a pa Ha Hpa) as [[_ ->]|(Han & HaP & Hpa' & HpaP)]; [lia|].
      rewrite !Hwt by done. by apply (oi_sorted _ _ Ho a b pa pb).
  - (* oi_sum *)
    intros p Hp. destruct (decide (p = P)) as [->|HpP].
    + rewrite Hch_new, Hwt_new.
      rewrite sum_freq_exact.
      * rewrite Z.add_0_l. f_equal. apply list_fmap_ext.
        intros i x Hx. symmetry. apply Hwt, Hkid_lt. by eapply list_elem_of_lookup_2.
      * destruct (cb_heap _ _ _ _ Hc) as (h1 & Hp1 & _).
        pose proof (oi_fit _ _ Ho) as Hf. rewrite Hp1 in Hf.
        rewrite !fmap_app, zsum_app in Hf.
        pose proof (zsum_abs_nonneg (wt (nodes st) <$> h1)). lia.
    + rewrite Hch_old by lia. rewrite Hwt by lia.
      rewrite (oi_sum _ _ Ho p) by (fold P; lia). f_equal.
      apply list_fmap_ext. intros i x Hx. symmetry. apply Hwt.
      apply list_elem_of_lookup_2 in Hx. apply elem_of_children in Hx. lia.
  - (* oi_chain *)
    intros s c pc Hs HsP Hc' Hpc Hpcs Hlt.
    destruct (Hafter c pc Hc' Hpc) as [[_ ->]|(Hcn & HcP & Hpc' & HpcP)]; [lia|].
    rewrite !Hwt in Hlt by lia.
    destruct (decide (S s = P)) as [HsP'|HsP'].
    + assert (s ∈ nodeHeap st) as Hsh.
      { replace s with (P - 1)%nat by lia. apply (inv_last _ _ _ Hi). fold P. lia. }
      destruct (decide (s ∈ cs)) as [Hsin|Hsn].
      { rewrite HsP'. by apply Hkid_parent. }
      exfalso.
      assert (wt (nodes st) c <= wt (nodes st) c0) as H1.
      { apply (oi_mark _ _ Ho c pc c0); [done | done | by apply Hkid_heap |].
        fold P. intros ->. apply Hsn. by replace s with (P - 1)%nat by lia. }
      specialize (Hmin c0 s Hc0 Hsh Hsn). lia.
    + apply Hbefore; [lia|].
      apply (oi_chain _ _ Ho s c pc); (done || (fold P; lia)).
  - (* oi_fit *)
    destruct (cb_heap _ _ _ _ Hc) as (h1 & Hp1 & Hp1').
    pose proof (oi_fit _ _ Ho) as Hf. rewrite Hp1 in Hf.
    rewrite !fmap_app, zsum_app in Hf.
    rewrite Hp1'. fold P. rewrite !fmap_cons, zsum_cons.
    assert (wt (nodes st') <$> h1 = wt (nodes st) <$> h1) as ->.
    { apply list_fmap_ext. intros i x Hx. apply Hwt.
      apply (inv_heap_lt _ _ _ Hi). rewrite Hp1. apply elem_of_app. right.
      by eapply list_elem_of_lookup_2. }
    rewrite Hwt_new. rewrite sum_freq_exact.
    + pose proof (zsum_abs (wt (nodes st) <$> cs)). lia.
    + pose proof (zsum_abs_nonneg (wt (nodes st) <$> h1)). lia.
Qed.

End order.

(** ** Depth against weight in the finished tree *)

Lemma zsum_negative_term {A} (f : A -> Z) (l : list A) :
  zsum (f <$> l) < 0 -> exists y, y ∈ l /\ f y < 0.
Proof.
  induction l as [|x l IH]; [rewrite fmap_nil, zsum_nil; lia|].
  rewrite fmap_cons, zsum_cons. intros Hs.
  destruct (Z.lt_ge_cases (f x) 0) as [Hx|Hx].
  - exists x. split; [apply list_elem_of_here | done].
  - destruct (IH ltac:(lia)) as (y & Hy & Hfy).
    exists y. split; [by apply list_elem_of_further | done].
Qed.

Lemma heaviest_exists {A} (f : A -> Z) (l : list A) :
  l <> [] -> exists m, m ∈ l /\ forall y, y ∈ l -> f y <= f m.
Proof.
  induction l as [|x l IH]; [done|]. intros _.
  destruct l as [|x' l'].
  - exists x. split; [apply list_elem_of_here|].
    intros y Hy. apply list_elem_of_singleton in Hy as ->. lia.
  - destruct (IH ltac:(done)) as (m & Hm & Hmax).
    destruct (Z.le_gt_cases (f x) (f m)) as [Hle|Hgt].
    + exists m. split; [by apply list_elem_of_further|].
      intros y Hy. apply elem_of_cons in Hy as [->|Hy]; [done | by apply Hmax].
    + exists x. split; [apply list_elem_of_here|].
      intros y Hy. apply elem_of_cons in Hy as [->|Hy]; [lia|].
      specialize (Hmax y Hy). lia.
Qed.

Section depth.
Variables (base : Z) (freqs : list Z).
Hypothesis Hbase : 2 <= base.
Hypothesis HC : (2 <= length freqs)%nat.
Variable st : state.
Hypothesis Hinv : tree_inv base freqs st.
Hypothesis Hord : order_inv freqs st.

Local Abbreviation C := (length freqs).
Let ns := nodes st.
Let next := nextNodeIdx st.
Let W := wt ns.

(** The children of the parent in slot [p]. *)
Let kids (p : nat) : list nat := children ns next p.

Lemma elem_of_kids x p : x ∈ kids p <-> (x < next)%nat /\ parent_of ns x p.
Proof. apply elem_of_children. Qed.

Lemma kids_length p :
  (C <= p < next)%nat -> Z.of_nat (length (kids p)) = arity base freqs p.
Proof. apply (inv_children _ _ _ Hinv). Qed.

Lemma kids_two p : (C <= p < next)%nat -> (2 <= length (kids p))%nat.
Proof.
  intros Hp. pose proof (kids_length p Hp).
  pose proof (arity_range base freqs Hbase p HC). lia.
Qed.

Lemma kids_le_base p q :
  (C <= p < q)%nat -> (q < next)%nat -> (length (kids p) <= length (kids q))%nat.
Proof.
  intros Hp Hq. pose proof (kids_length p ltac:(lia)) as H1.
  pose proof (kids_length q ltac:(lia)) as H2.
  pose proof (arity_range base freqs Hbase p HC).
  unfold arity in H2. rewrite decide_False in H2 by lia. lia.
Qed.

Lemma weight_sum p : (C <= p < next)%nat -> W p = zsum (W <$> kids p).
Proof. apply (oi_sum _ _ Hord). Qed.

(** A parent against one child [x] and a bound on the other children. *)
Lemma weight_upper p x hi :
  (C <= p < next)%nat -> x ∈ kids p -> (forall y, y ∈ kids p -> W y <= hi) ->
  W p <= W x + (Z.of_nat (length (kids p)) - 1) * hi.
Proof.
  intros Hp Hx Hhi. rewrite (weight_sum p Hp).
  destruct (zsum_split W (kids p) x Hx) as (l' & Hperm & ->).
  pose proof (zsum_upper (W <$> l') hi) as Hu. rewrite length_fmap in Hu.
  rewrite Hperm. cbn [length].
  assert (forall y, y ∈ W <$> l' -> y <= hi) as Hall.
  { intros y Hy. apply list_elem_of_fmap in Hy as (z & -> & Hz).
    apply Hhi. rewrite Hperm. by apply list_elem_of_further. }
  specialize (Hu Hall). lia.
Qed.

Lemma weight_lower p x lo :
  (C <= p < next)%nat -> x ∈ kids p -> (forall y, y ∈ kids p -> lo <= W y) ->
  W x + (Z.of_nat (length (kids p)) - 1) * lo <= W p.
Proof.
  intros Hp Hx Hlo. rewrite (weight_sum p Hp).
  destruct (zsum_split W (kids p) x Hx) as (l' & Hperm & ->).
  pose proof (zsum_lower (W <$> l') lo) as Hl. rewrite length_fmap in Hl.
  rewrite Hperm. cbn [length].
  assert (forall y, y ∈ W <$> l' -> lo <= y) as Hall.
  { intros y Hy. apply list_elem_of_fmap in Hy as (z & -> & Hz).
    apply Hlo. rewrite Hperm. by apply list_elem_of_further. }
  specialize (Hl Hall). lia.
Qed.

(** A parent lighter than one of its children has another child of
    negative weight. *)
Lemma lighter_than_child p x :
  (C <= p < next)%nat -> x ∈ kids p -> W p < W x ->
  exists y, y ∈ kids p /\ y <> x /\ W y < 0.
Proof.
  intros Hp Hx Hlt. rewrite (weight_sum p Hp) in Hlt.
  destruct (zsum_split W (kids p) x Hx) as (l' & Hperm & Heq).
  rewrite Heq in Hlt.
  destruct (zsum_negative_term W l' ltac:(lia)) as (y & Hy & Hneg).
  exists y. split; [rewrite Hperm; by apply list_elem_of_further|].
  split; [|done]. intros ->.
  pose proof (NoDup_children ns next p) as Hnd. fold (kids p) in Hnd.
  rewrite Hperm in Hnd. by apply NoDup_cons in Hnd as [? _].
Qed.

Lemma heaviest_kid p :
  (C <= p < next)%nat ->
  exists m, m ∈ kids p /\ forall y, y ∈ kids p -> W y <= W m.
Proof.
  intros Hp. apply heaviest_exists. pose proof (kids_two p Hp).
  destruct (kids p); [cbn in *; lia | done].
Qed.

Lemma negative_outweighed s : (C <= s < next)%nat -> W s < 0 -> outweighed st s.
Proof.
  intros Hs Hneg. destruct (heaviest_kid s Hs) as (m & Hm & Hmax).
  apply elem_of_kids in Hm as Hm'. destruct Hm' as [Hmn Hmp].
  exists m, s. split; [done|]. split; [done|]. split; [done|].
  change (W s < W m).
  destruct (Z.lt_ge_cases (W m) 0) as [Hmneg|Hmpos]; [|lia].
  pose proof (weight_upper s m (W m) Hs Hm Hmax) as Hu.
  pose proof (kids_two s Hs). nia.
Qed.

Lemma negative_kids_negative s :
  (C <= s < next)%nat -> (forall y, y ∈ kids s -> W y < 0) -> W s < 0.
Proof.
  intros Hs Hneg. destruct (heaviest_kid s Hs) as (m & Hm & Hmax).
  pose proof (weight_upper s m (W m) Hs Hm Hmax) as Hu.
  pose proof (Hneg m Hm). pose proof (kids_two s Hs). nia.
Qed.

(** If the parent created after [s] is outweighed, so is [s]. *)
Lemma outweighed_down s :
  (C <= s)%nat -> (S s < next)%nat -> outweighed st (S s) -> outweighed st s.
Proof.
  intros Hs Hs' (c & pc & Hc & Hpc & Hle & Hlt).
  change (W (S s) < W c) in Hlt.
  (* a negative child of [S s] other than [s] makes [s] negative *)
  assert (forall b, b ∈ kids (S s) -> W b < 0 -> W s < 0) as Hneg.
  { intros b Hb Hbneg. destruct (decide (b = s)) as [->|Hbs]; [done|].
    apply elem_of_kids in Hb as [Hbn Hbp].
    apply negative_kids_negative; [lia|]. intros y Hy.
    apply elem_of_kids in Hy as [Hyn Hyp].
    destruct (oi_sorted _ _ Hord y b s (S s) Hyn Hbn Hyp Hbp ltac:(lia))
      as [Hyb|Hsb]; [fold ns W in Hyb; lia | lia]. }
  destruct (decide (pc = S s)) as [->|Hne].
  - assert (c ∈ kids (S s)) as Hck by (by apply elem_of_kids).
    destruct (lighter_than_child (S s) c ltac:(lia) Hck Hlt) as (y & Hy & _ & Hyn).
    apply negative_outweighed; [lia|]. by apply (Hneg y).
  - destruct (Z.lt_ge_cases (W s) (W c)) as [Hsc|Hsc].
    { exists c, pc. split; [done|]. split; [done|]. split; [lia | done]. }
    destruct (heaviest_kid (S s) ltac:(lia)) as (m & Hm & _).
    assert (W c <= W m) as Hcm.
    { apply elem_of_kids in Hm as [Hmn Hmp].
      destruct (oi_sorted _ _ Hord c m pc (S s) Hc Hmn Hpc Hmp ltac:(lia))
        as [Hyb|Hsb]; [done|]. injection Hsb as ->. done. }
    destruct (lighter_than_child (S s) m ltac:(lia) Hm ltac:(lia))
      as (y & Hy & _ & Hyn).
    apply negative_outweighed; [lia|]. by apply (Hneg y).
Qed.

Lemma outweighed_below b : forall d p,
  (C <= p)%nat -> (p + d = b)%nat -> (b < next)%nat ->
  outweighed st b -> outweighed st p.
Proof.
  induction d as [|d IH]; intros p Hp Hd Hb Hout.
  - by replace p with b by lia.
  - apply outweighed_down; [done | lia |].
    apply IH; (done || lia).
Qed.

(** An outweighed parent, unless it is the newest, is a child of the
    next. *)
Lemma outweighed_parent s :
  (C <= s)%nat -> (S s < next)%nat -> outweighed st s -> parent_of ns s (S s).
Proof.
  intros Hs Hs' (c & pc & Hc & Hpc & Hle & Hlt).
  by apply (oi_chain _ _ Hord s c pc).
Qed.

Lemma climbs_step_inv x p l :
  parent_of ns x p -> climbs ns x l ->
  exists l', l = SiblingIndex (ns !!! x) :: l' /\ climbs ns p l'.
Proof.
  unfold parent_of. intros Hp Hcl.
  inversion Hcl as [? Hr|? p' l' Hp' Hcl']; subst; [lia|].
  assert (p' = p) as -> by lia. by exists l'.
Qed.

Lemma another_kid q v :
  (C <= q < next)%nat -> exists v', v' ∈ kids q /\ v' <> v.
Proof.
  intros Hq. pose proof (kids_two q Hq) as Hlen.
  pose proof (NoDup_children ns next q) as Hnd. fold (kids q) in Hnd.
  destruct (kids q) as [|a [|b l]]; [cbn in Hlen; lia | cbn in Hlen; lia |].
  apply NoDup_cons in Hnd as [Hab _].
  destruct (decide (a = v)) as [->|Hav].
  - exists b. split; [apply list_elem_of_further, list_elem_of_here|].
    intros ->. apply Hab, list_elem_of_here.
  - exists a. split; [apply list_elem_of_here | done].
Qed.

(** Of two parents, the one created first is at least as deep, if it has a
    child strictly lighter than a child of the other. *)
Lemma depth_order : forall n p q u v lp lq,
  (next - p = n)%nat -> (C <= p)%nat -> (p < q)%nat -> (q < next)%nat ->
  u ∈ kids p -> v ∈ kids q -> W u < W v ->
  climbs ns p lp -> climbs ns q lq -> (length lq <= length lp)%nat.
Proof.
  induction n as [n IH] using lt_wf_ind.
  intros p q u v lp lq Hn Hp Hpq Hq Hu Hv Huv Hclp Hclq.
  destruct (decide (ParentIndex (ns !!! q) = -1)) as [Hqr|Hqnr].
  { inversion Hclq; subst; [cbn; lia | lia]. }
  destruct (inv_links _ _ _ Hinv q Hq Hqnr) as (q' & Hq' & Hq'r & Hqq' & _).
  fold ns next in Hq', Hq'r.
  destruct (climbs_step_inv q q' lq Hq' Hclq) as (lq' & -> & Hclq').
  destruct (Z.lt_ge_cases (W p) (W q)) as [Hlt|Hge].
  - (* the lighter parent is combined no later *)
    destruct (oi_min _ _ Hord p q q' ltac:(fold next; lia) Hq Hq' ltac:(lia) Hlt)
      as (p' & Hp' & Hle). fold ns in Hp'.
    destruct (climbs_step_inv p p' lp Hp' Hclp) as (lp' & -> & Hclp').
    assert (p < p')%nat as Hpp'.
    { destruct (inv_links _ _ _ Hinv p ltac:(fold next; lia)
                  ltac:(unfold parent_of in Hp'; fold ns; lia))
        as (p'' & Hp'' & _ & ? & _).
      fold ns in Hp''. unfold parent_of in Hp'. lia. }
    cbn [length]. apply le_n_S.
    destruct (decide (p' = q')) as [->|Hne].
    + by rewrite (climbs_functional ns q' lp' lq' Hclp' Hclq').
    + apply (IH (next - p')%nat ltac:(lia) p' q' p q); try (done || lia).
      * apply elem_of_kids. split; [lia | done].
      * apply elem_of_kids. split; [lia | done].
  - destruct (decide (parent_of ns p q)) as [Hpq'|Hnpq].
    { destruct (climbs_step_inv p q lp Hpq' Hclp) as (lp' & -> & Hclp').
      rewrite (climbs_functional ns q lp' _ Hclp' Hclq). cbn. lia. }
    apply elem_of_kids in Hu as Hu'. destruct Hu' as [Hun Hup].
    apply elem_of_kids in Hv as Hv'. destruct Hv' as [Hvn Hvp].
    assert (outweighed st p) as Hout.
    { destruct (heaviest_kid p ltac:(lia)) as (m & Hm & Hmax).
      apply elem_of_kids in Hm as Hm'. destruct Hm' as [Hmn Hmp].
      destruct (decide (Forall (fun b => W m <= W b) (kids q))) as [Hall|Hex].
      - rewrite Forall_forall in Hall.
        pose proof (weight_upper p u (W m) ltac:(lia) Hu Hmax) as H1.
        pose proof (weight_lower q v (W m) ltac:(lia) Hv Hall) as H2.
        pose proof (kids_le_base p q ltac:(lia) Hq) as H3.
        pose proof (kids_two p ltac:(lia)) as H4.
        apply negative_outweighed; [lia|].
        apply negative_kids_negative; [lia|].
        intros y Hy. specialize (Hmax y Hy).
        assert (W m < 0); [nia | lia].
      - apply not_Forall_Exists in Hex; [|apply _].
        apply Exists_exists in Hex as (b & Hb & Hbm). cbn in Hbm.
        apply elem_of_kids in Hb as [Hbn Hbp].
        destruct (oi_sorted _ _ Hord m b p q Hmn Hbn Hmp Hbp Hpq) as [Hmb|Hbq];
          [fold ns W in Hmb; lia|].
        assert (b <> p) as Hbp' by (intros ->; done).
        apply (outweighed_below b (b - p) p); try (done || lia).
        exists m, p. split; [done|]. split; [done|].
        split; [lia | change (W b < W m); lia]. }
    pose proof (outweighed_parent p Hp ltac:(lia) Hout) as Hp'.
    assert (S p <> q) as Hne by (intros <-; done).
    destruct (climbs_step_inv p (S p) lp Hp' Hclp) as (lp' & -> & Hclp').
    assert (exists v', v' ∈ kids q /\ W p < W v') as (v' & Hv' & Hpv').
    { destruct Hout as (c & pc & Hc & Hpc & Hle & Hlt).
      change (W p < W c) in Hlt.
      assert (forall v', v' ∈ kids q -> S v' <> q -> W p < W v') as Hvia.
      { intros v' Hv' Hnq. apply elem_of_kids in Hv' as [Hvn' Hvp'].
        destruct (oi_sorted _ _ Hord c v' pc q Hc Hvn' Hpc Hvp' ltac:(lia))
          as [Hcv|?]; [fold ns W in Hcv; lia | done]. }
      destruct (decide (S v = q)) as [Hvq|Hvq].
      - destruct (another_kid q v ltac:(lia)) as (v' & Hv' & Hvv').
        exists v'. split; [done|]. apply Hvia; [done | lia].
      - exists v. split; [done|]. by apply Hvia. }
    cbn [length].
    assert (length lq' < length lp' \/ length lq' = length lp' \/
            length lp' < length lq')%nat as Htri by lia.
    pose proof (IH (next - S p)%nat ltac:(lia) (S p) q p v' lp'
                  (SiblingIndex (ns !!! q) :: lq') eq_refl ltac:(lia)
                  ltac:(lia) Hq) as Hrec.
    specialize (Hrec ltac:(apply elem_of_kids; split; [lia | done]) Hv' Hpv'
                  Hclp' Hclq). cbn [length] in Hrec. lia.
Qed.

(** An item of strictly lower frequency is at least as deep. *)
Lemma leaf_depth_order i j li lj :
  length (nodeHeap st) = 1%nat -> (C < next)%nat ->
  (i < C)%nat -> (j < C)%nat -> W i < W j ->
  climbs ns i li -> climbs ns j lj -> (length lj <= length li)%nat.
Proof.
  intros Hone Hnext Hi Hj Hlt Hcli Hclj.
  assert (forall x, (x < C)%nat -> ParentIndex (ns !!! x) <> -1) as Hleaf.
  { intros x Hx. apply (leaf_has_parent base freqs st (next - C - 1)).
    - done.
    - done.
    - fold next. lia.
    - done. }
  destruct (inv_links _ _ _ Hinv j ltac:(fold next; lia) (Hleaf j Hj))
    as (pj & Hpj & Hpjr & _). fold ns next in Hpj, Hpjr.
  destruct (oi_min _ _ Hord i j pj ltac:(fold next; lia) ltac:(fold next; lia)
              Hpj ltac:(lia) Hlt) as (pi & Hpi & Hle). fold ns in Hpi.
  destruct (inv_links _ _ _ Hinv i ltac:(fold next; lia) (Hleaf i Hi))
    as (pi' & Hpi' & Hpir & _). fold ns next in Hpi', Hpir.
  assert (pi' = pi) as -> by (unfold parent_of in Hpi; lia).
  destruct (climbs_step_inv i pi li Hpi Hcli) as (li' & -> & Hcli').
  destruct (climbs_step_inv j pj lj Hpj Hclj) as (lj' & -> & Hclj').
  cbn [length]. apply le_n_S.
  destruct (decide (pi = pj)) as [->|Hne].
  - by rewrite (climbs_functional ns pj li' lj' Hcli' Hclj').
  - apply (depth_order (next - pi)%nat pi pj i j); try (done || lia).
    + apply elem_of_kids. split; [lia | done].
    + apply elem_of_kids. split; [lia | done].
Qed.

End depth.

(** ** Lower frequency, longer label *)

(** While no sum of frequencies overflows, an item of strictly lower
    frequency than another gets a label at least as long. *)
Lemma Label_length_order (base : Z) (freqs : list Z) :
  2 <= base -> zsum (Z.abs <$> freqs) < 2 ^ 63 ->
  exists ls, Label base freqs = Ok ls /\
    forall i j fi fj a b,
      freqs !! i = Some fi -> freqs !! j = Some fj -> fi < fj ->
      ls !! i = Some a -> ls !! j = Some b ->
      (length b <= length a)%nat.
Proof.
  intros Hbase Hfit.
  destruct (freqs_cases freqs) as [->|[[f ->]|HC]].
  - exists []. split; [by apply Label_nil|]. intros i j fi fj a b Hi. done.
  - exists [[0]]. split; [by apply Label_single|].
    intros [|i] [|j] fi fj a b Hi Hj Hlt; try done.
    cbn in Hi, Hj. simplify_eq. lia.
  - destruct (Label_spec base freqs Hbase HC (order_inv freqs))
      as (st & q & paths & _ & Hinv & Hord & Hone & Hnext & _ & Hpaths & HL).
    { intros st cs st'. by apply order_inv_step. }
    { intros h0. by apply order_inv_init. }
    exists (@rev Z <$> paths). split; [done|].
    intros i j fi fj a b Hfi Hfj Hlt Ha Hb.
    destruct (Label_lookup freqs st paths _ i a Hpaths eq_refl Ha)
      as (li & Hi & Hcli & ->).
    destruct (Label_lookup freqs st paths _ j b Hpaths eq_refl Hb)
      as (lj & Hj & Hclj & ->).
    rewrite !length_rev.
    apply (leaf_depth_order base freqs Hbase HC st Hinv Hord i j li lj);
      try (done || lia).
    unfold wt.
    by rewrite (inv_leaf _ _ _ Hinv i fi Hfi), (inv_leaf _ _ _ Hinv j fj Hfj).
Qed.

(** * The heap orders by frequency alone *)

Lemma same_freqs_get ns1 ns2 p :
  same_freqs ns1 ns2 ->
  (exists n1 n2, get ns1 p = Ok n1 /\ get ns2 p = Ok n2 /\ Freq n1 = Freq n2) \/
  (get ns1 p = Err IndexOutOfRange /\ get ns2 p = Err IndexOutOfRange).
Proof.
  unfold same_freqs, get. intros Hs.
  apply (f_equal (fun l => l !! p)) in Hs. rewrite !list_lookup_fmap in Hs.
  destruct (ns1 !! p) as [n1|], (ns2 !! p) as [n2|]; cbn in Hs; try done.
  - left. exists n1, n2. by simplify_eq.
  - by right.
Qed.

Section freq_only.
Variables ns1 ns2 : list node.
Hypothesis Hsame : same_freqs ns1 ns2.

(** [Less] looks at nothing but [Freq]. *)
Lemma Less_freq_only h i j : nodeHeap.Less ns1 h i j = nodeHeap.Less ns2 h i j.
Proof.
  unfold nodeHeap.Less.
  destruct (get h i) as [pi|e]; [|done]. rewrite !bind_Ok.
  destruct (get h j) as [pj|e]; [|done]. rewrite !bind_Ok.
  destruct (same_freqs_get ns1 ns2 pi Hsame)
    as [(a1 & a2 & -> & -> & Ha)|[-> ->]]; [|done].
  rewrite !bind_Ok.
  destruct (same_freqs_get ns1 ns2 pj Hsame)
    as [(b1 & b2 & -> & -> & Hb)|[-> ->]]; [|done].
  rewrite !bind_Ok. by rewrite Ha, Hb.
Qed.

Lemma up_freq_only fuel : forall h j, heap.up fuel ns1 h j = heap.up fuel ns2 h j.
Proof.
  induction fuel as [|fuel IH]; intros h j; rewrite !up_unfold; cbv zeta;
    rewrite Less_freq_only; [done|].
  case_decide; [done|].
  destruct (nodeHeap.Less ns2 h j ((j - 1) / 2)) as [[]|e]; try done.
  rewrite !bind_Ok. cbn [negb].
  destruct (nodeHeap.Swap h ((j - 1) / 2) j) as [h'|e]; [|done].
  rewrite !bind_Ok. apply IH.
Qed.

Lemma down_freq_only fuel : forall h i n,
  heap.down fuel ns1 h i n = heap.down fuel ns2 h i n.
Proof.
  induction fuel as [|fuel IH]; intros h i n; rewrite !down_unfold; cbv zeta;
    rewrite !Less_freq_only.
  all: case_decide; [done|].
  all: destruct (if decide (2 * i + 1 + 1 < n)%nat
                 then nodeHeap.Less ns2 h (2 * i + 1 + 1) (2 * i + 1)
                 else Ok false) as [lt21|e]; [|done].
  all: rewrite !bind_Ok, Less_freq_only.
  - done.
  - destruct (nodeHeap.Less ns2 h _ i) as [[]|e]; try done.
    rewrite !bind_Ok. cbn [negb].
    destruct (nodeHeap.Swap h i _) as [h'|e]; [|done].
    rewrite !bind_Ok. apply IH.
Qed.

Lemma heapify_freq_only k : forall h n,
  heap.heapify ns1 h k n = heap.heapify ns2 h k n.
Proof.
  induction k as [|k IH]; intros h n; [done|]. cbn [heap.heapify].
  rewrite down_freq_only. destruct (heap.down n ns2 h k n) as [h'|e]; [|done].
  rewrite !bind_Ok. apply IH.
Qed.

Lemma heap_freq_only h x :
  heap.Init ns1 h = heap.Init ns2 h /\
  heap.Push ns1 h x = heap.Push ns2 h x /\
  heap.Pop ns1 h = heap.Pop ns2 h.
Proof.
  split; [apply heapify_freq_only|]. split; [apply up_freq_only|].
  unfold heap.Pop. destruct (nodeHeap.Len h) as [|n]; [done|].
  destruct (nodeHeap.Swap h 0 n) as [h1|e]; [|done]. rewrite !bind_Ok.
  by rewrite down_freq_only.
Qed.

End freq_only.

(** * The claims *)

(** C1. For every [base >= 2] and every list of frequencies, the labels that
    [Label] returns are pairwise distinct and none is a prefix of
    another. *)
Theorem Label_prefix_free (base : Z) (freqs : list Z) :
  2 <= base ->
  exists ls, Label base freqs = Ok ls /\
    forall i j a b, i <> j -> ls !! i = Some a -> ls !! j = Some b ->
      a <> b /\ ~ a `prefix_of` b.
Proof.
  intros Hbase.
  destruct (freqs_cases freqs) as [->|[[f ->]|HC]].
  - exists []. split; [by apply Label_nil|]. intros i j a b _ Ha. done.
  - exists [[0]]. split; [by apply Label_single|].
    intros [|i] [|j] a b Hij Ha Hb; done.
  - destruct (Label_tree base freqs Hbase HC)
      as (st & q & paths & _ & Hinv & Hone & Hnext & _ & Hpaths & HL).
    exists (@rev Z <$> paths). split; [done|].
    intros i j a b Hij Ha Hb.
    destruct (Label_lookup freqs st paths _ i a Hpaths eq_refl Ha)
      as (la & Hi & Hcla & ->).
    destruct (Label_lookup freqs st paths _ j b Hpaths eq_refl Hb)
      as (lb & Hj & Hclb & ->).
    assert (~ rev la `prefix_of` rev lb) as Hnp.
    { intros [k Hk]. apply (f_equal (@rev Z)) in Hk.
      rewrite rev_involutive, rev_app_distr, rev_involutive in Hk.
      destruct (climbs_suffix base freqs st Hinv Hone j lb Hclb ltac:(lia)
                  i la (rev k) ltac:(lia) Hcla Hk) as [H0 H1].
      destruct (rev k) as [|s t]; [by apply Hij, H0|].
      destruct (H1 ltac:(done)) as (c & Hc & Hpc).
      destruct (inv_links _ _ _ Hinv c Hc ltac:(lia)) as (p & Hp & Hpr & _).
      lia. }
    split; [|done]. intros Heq. apply Hnp. by rewrite Heq.
Qed.

Lemma Label_prefix_free_witness :
  exists ls, Label 2 [1; 1; 1; 1; 1] = Ok ls /\
    forall i j a b, i <> j -> ls !! i = Some a -> ls !! j = Some b ->
      a <> b /\ ~ a `prefix_of` b.
Proof. apply (Label_prefix_free 2 [1; 1; 1; 1; 1]). lia. Defined.

(** C2. For every [base >= 2] and every list of frequencies, every label
    that [Label] returns is non-empty and each of its symbol indices lies in
    [0, base). *)
Theorem Label_nonempty_in_range (base : Z) (freqs : list Z) :
  2 <= base ->
  exists ls, Label base freqs = Ok ls /\
    forall l, l ∈ ls -> (1 <= length l)%nat /\ forall s, s ∈ l -> 0 <= s < base.
Proof.
  intros Hbase.
  destruct (freqs_cases freqs) as [->|[[f ->]|HC]].
  - exists []. split; [by apply Label_nil|]. intros l Hl.
    by apply not_elem_of_nil in Hl.
  - exists [[0]]. split; [by apply Label_single|]. intros l Hl.
    apply list_elem_of_singleton in Hl as ->. split; [cbn; lia|].
    intros s Hs. apply list_elem_of_singleton in Hs as ->. lia.
  - destruct (Label_tree base freqs Hbase HC)
      as (st & q & paths & _ & Hinv & Hone & Hnext & _ & Hpaths & HL).
    exists (@rev Z <$> paths). split; [done|]. intros l Hl.
    apply list_elem_of_lookup in Hl as [i Hi].
    destruct (Label_lookup freqs st paths _ i l Hpaths eq_refl Hi)
      as (p & Hlt & Hcl & ->).
    split.
    + rewrite length_rev.
      pose proof (leaf_has_parent base freqs st q i Hinv Hone Hnext Hlt) as Hnr.
      inversion Hcl; subst; [done | cbn; lia].
    + intros s Hs.
      pose proof (climbs_range base freqs st i p Hbase HC Hinv Hcl ltac:(lia))
        as Hr.
      rewrite Forall_forall in Hr. apply Hr.
      apply list_elem_of_In. apply in_rev.
      by apply list_elem_of_In.
Qed.

Lemma Label_nonempty_in_range_witness :
  exists ls, Label 4 [5; 4; 3; 2; 1] = Ok ls /\
    forall l, l ∈ ls -> (1 <= length l)%nat /\ forall s, s ∈ l -> 0 <= s < 4.
Proof. apply (Label_nonempty_in_range 4 [5; 4; 3; 2; 1]). lia. Defined.

(** C3. For every [base >= 2], [Label] returns one label per item, in input
    order: as many labels as frequencies, label [i] being the reversed climb
    from pool slot [i], which holds frequency [i]; and no label for no
    item. *)
Theorem Label_one_per_item (base : Z) (freqs : list Z) :
  2 <= base ->
  Label base [] = Ok [] /\
  exists ls, Label base freqs = Ok ls /\ length ls = length freqs /\
    ((2 <= length freqs)%nat ->
     exists st calls, build base freqs = Ok (st, calls) /\
       forall i f, freqs !! i = Some f ->
         Freq (nodes st !!! i) = f /\
         exists l, climbs (nodes st) i l /\ ls !! i = Some (rev l)).
Proof.
  intros Hbase. split; [by apply Label_nil|].
  destruct (freqs_cases freqs) as [->|[[f ->]|HC]].
  - exists []. split; [by apply Label_nil|]. split; [done|]. cbn. lia.
  - exists [[0]]. split; [by apply Label_single|]. split; [done|]. cbn. lia.
  - destruct (Label_tree base freqs Hbase HC)
      as (st & q & paths & Hbuild & Hinv & Hone & Hnext & _ & Hpaths & HL).
    exists (@rev Z <$> paths). split; [done|].
    pose proof (Forall2_length _ _ _ Hpaths) as Hlen. rewrite length_seq in Hlen.
    split; [by rewrite length_fmap|]. intros _.
    eexists st, _. split; [exact Hbuild|]. intros i f Hf.
    split; [by apply (inv_leaf _ _ _ Hinv)|].
    pose proof (lookup_lt_Some _ _ _ Hf) as Hi.
    destruct (lookup_lt_is_Some_2 paths i ltac:(lia)) as [l Hl].
    exists l. split.
    + eapply Forall2_lookup_lr; [exact Hpaths | | exact Hl].
      by rewrite lookup_seq_lt by lia.
    + by rewrite list_lookup_fmap, Hl.
Qed.

Lemma Label_one_per_item_witness :
  Label 4 [] = Ok [] /\
  exists ls, Label 4 [50; 25; 12; 6] = Ok ls /\
    length ls = length [50; 25; 12; 6] /\
    ((2 <= length [50; 25; 12; 6])%nat ->
     exists st calls, build 4 [50; 25; 12; 6] = Ok (st, calls) /\
       forall i f, [50; 25; 12; 6] !! i = Some f ->
         Freq (nodes st !!! i) = f /\
         exists l, climbs (nodes st) i l /\ ls !! i = Some (rev l)).
Proof. apply (Label_one_per_item 4 [50; 25; 12; 6]). lia. Defined.

(** C4. [Label] panics with the invalid-argument message exactly when
    [base < 2], whatever the frequencies; it does so at once, with no labels;
    for [base >= 2] it returns labels for every list of frequencies. *)
Theorem Label_fails_iff (base : Z) (freqs : list Z) :
  (Label base freqs = Err InvalidArgument <-> base < 2) /\
  ((exists ls, Label base freqs = Ok ls) <-> 2 <= base) /\
  (forall e, Label base freqs = Err e -> e = InvalidArgument).
Proof.
  destruct (Z.lt_ge_cases base 2) as [Hlt|Hge].
  - assert (Label base freqs = Err InvalidArgument) as HL.
    { unfold Label. by destruct (Z.ltb_spec base 2); [|lia]. }
    rewrite HL. split; [done|]. split; [|congruence].
    split; [intros [ls Hls]; done | lia].
  - destruct (Label_succeeds base freqs Hge) as (ls & HL).
    rewrite HL. split; [split; [done | lia]|].
    split; [|done]. split; [done|]. intros _. by exists ls.
Qed.

(** C5 fails as stated, in two ways. With equal frequencies the first item
    of [1;1;1;1;1] is among the lowest and gets [aa], the second is among the
    highest and gets [bbb]. With the distinct frequencies
    [-2^62 - 1; -2^62; 2^62; 2^61; 2^61 + 1; 2^61 + 2], whose sums leave the
    64-bit range, the lowest item gets two symbols and the highest three. *)
Lemma lowest_not_shorter_fails :
  ~ lowest_not_shorter 2 [1; 1; 1; 1; 1] /\
  ~ lowest_not_shorter 2
      [-4611686018427387905; -4611686018427387904; 4611686018427387904;
       2305843009213693952; 2305843009213693953; 2305843009213693954] /\
  Forall int64
      [-4611686018427387905; -4611686018427387904; 4611686018427387904;
       2305843009213693952; 2305843009213693953; 2305843009213693954].
Proof.
  split; [|split; [|repeat (constructor; [unfold int64; lia|]); constructor]];
    intros H.
  - assert (Label 2 [1; 1; 1; 1; 1]
            = Ok [[0; 0]; [1; 1; 1]; [1; 0]; [1; 1; 0]; [0; 1]])
      as HL by (vm_compute; reflexivity).
    specialize (H _ 0%nat 1%nat 1 1 [0; 0] [1; 1; 1] HL eq_refl eq_refl).
    assert (forall f, f ∈ [1; 1; 1; 1; 1] -> 1 <= f <= 1) as Hall.
    { apply Forall_forall. repeat (constructor; [lia|]). constructor. }
    specialize (H Hall eq_refl eq_refl). cbn in H. lia.
  - assert (Label 2
              [-4611686018427387905; -4611686018427387904; 4611686018427387904;
               2305843009213693952; 2305843009213693953; 2305843009213693954]
            = Ok [[1; 0]; [1; 1]; [0; 1; 1]; [0; 0; 0]; [0; 0; 1]; [0; 1; 0]])
      as HL by (vm_compute; reflexivity).
    specialize (H _ 0%nat 2%nat (-4611686018427387905) 4611686018427387904
                  [1; 0] [0; 1; 1] HL eq_refl eq_refl).
    assert (forall f,
      f ∈ [-4611686018427387905; -4611686018427387904; 4611686018427387904;
           2305843009213693952; 2305843009213693953; 2305843009213693954] ->
      -4611686018427387905 <= f <= 4611686018427387904) as Hall.
    { apply Forall_forall. repeat (constructor; [lia|]). constructor. }
    specialize (H Hall eq_refl eq_refl). cbn in H. lia.
Qed.

(** C5, amended. For [base >= 2] and at least two frequencies whose absolute
    values sum to less than [2^63], an item of globally lowest frequency
    never gets a strictly shorter label than an item of globally highest
    frequency, when the lowest frequency is strictly below the highest. *)
Theorem lowest_not_shorter_strict (base : Z) (freqs : list Z) :
  2 <= base -> (2 <= length freqs)%nat ->
  zsum (Z.abs <$> freqs) < 2 ^ 63 ->
  exists ls, Label base freqs = Ok ls /\
    forall i j fi fj a b,
      freqs !! i = Some fi -> freqs !! j = Some fj ->
      (forall f, f ∈ freqs -> fi <= f <= fj) -> fi < fj ->
      ls !! i = Some a -> ls !! j = Some b ->
      (length b <= length a)%nat.
Proof.
  intros Hbase _ Hfit.
  destruct (Label_length_order base freqs Hbase Hfit) as (ls & HL & Hord).
  exists ls. split; [done|].
  intros i j fi fj a b Hfi Hfj _ Hlt Ha Hb. by apply (Hord i j fi fj).
Qed.

Lemma lowest_not_shorter_strict_witness :
  exists ls, Label 4 [10; 12; 7; 8; 32; 1; 17; 18] = Ok ls /\
    forall i j fi fj a b,
      [10; 12; 7; 8; 32; 1; 17; 18] !! i = Some fi ->
      [10; 12; 7; 8; 32; 1; 17; 18] !! j = Some fj ->
      (forall f, f ∈ [10; 12; 7; 8; 32; 1; 17; 18] -> fi <= f <= fj) ->
      fi < fj ->
      ls !! i = Some a -> ls !! j = Some b ->
      (length b <= length a)%nat.
Proof.
  apply (lowest_not_shorter_strict 4 [10; 12; 7; 8; 32; 1; 17; 18]).
  - lia.
  - cbn. lia.
  - vm_compute. reflexivity.
Defined.

(** C6. For [base >= 2] and [C >= 2] items the first call of [combine] asks
    for and pops [2 + (C - 2) mod (base - 1)] nodes, a count between [2] and
    [base]; every later call asks for and pops [base] nodes; the calls end
    with one root in the heap, the finished tree; so the first parent
    created has that many children and every other parent has [base]. *)
Theorem combine_counts (base : Z) (freqs : list Z) :
  2 <= base -> (2 <= length freqs)%nat ->
  let initialCount := 2 + (Z.of_nat (length freqs) - 2) mod (base - 1) in
  2 <= initialCount <= base /\
  exists st (q : nat),
    build base freqs
    = Ok (st, mkCombined initialCount initialCount
                :: replicate q (mkCombined base base)) /\
    length (nodeHeap st) = 1%nat /\
    nextNodeIdx st = (length freqs + 1 + q)%nat /\
    forall p, (length freqs <= p < nextNodeIdx st)%nat ->
      Z.of_nat (length (children (nodes st) (nextNodeIdx st) p))
      = if decide (p = length freqs) then initialCount else base.
Proof.
  intros Hbase HC initialCount.
  assert (initialCount = initial_count base freqs) as ->.
  { unfold initialCount, initial_count. by rewrite Z.rem_mod_nonneg by lia. }
  split; [apply (initial_count_range base freqs Hbase HC)|].
  destruct (Label_tree base freqs Hbase HC)
    as (st & q & paths & Hbuild & Hinv & Hone & Hnext & _).
  exists st, q. split; [done|]. split; [done|]. split; [done|].
  intros p Hp. apply (inv_children _ _ _ Hinv p Hp).
Qed.

Lemma combine_counts_witness :
  let initialCount := 2 + (Z.of_nat (length [5; 4; 3; 2; 1]) - 2) mod (4 - 1) in
  2 <= initialCount <= 4 /\
  exists st (q : nat),
    build 4 [5; 4; 3; 2; 1]
    = Ok (st, mkCombined initialCount initialCount
                :: replicate q (mkCombined 4 4)) /\
    length (nodeHeap st) = 1%nat /\
    nextNodeIdx st = (length [5; 4; 3; 2; 1] + 1 + q)%nat /\
    forall p, (length [5; 4; 3; 2; 1] <= p < nextNodeIdx st)%nat ->
      Z.of_nat (length (children (nodes st) (nextNodeIdx st) p))
      = if decide (p = length [5; 4; 3; 2; 1]) then initialCount else 4.
Proof. apply (combine_counts 4 [5; 4; 3; 2; 1]); cbn; lia. Defined.

(** C7. For [base >= 2] and [C >= 2] items the pool of
    [C + ((C - 1) / (base - 1) + 1)] nodes is enough: [build] runs to the end
    without a slot out of range, it creates no more than
    [(C - 1) / (base - 1) + 1] parents, one per call of [combine], and every
    call pops exactly the count it was asked for. *)
Theorem pool_suffices (base : Z) (freqs : list Z) :
  2 <= base -> (2 <= length freqs)%nat ->
  let C := Z.of_nat (length freqs) in
  let I := (C - 1) / (base - 1) + 1 in
  exists st calls,
    build base freqs = Ok (st, calls) /\
    Z.of_nat (length (nodes st)) = C + I /\
    Z.of_nat (nextNodeIdx st) - C <= I /\
    Z.of_nat (length calls) = Z.of_nat (nextNodeIdx st) - C /\
    Forall (fun c => popped c = requested c) calls.
Proof.
  intros Hbase HC C I.
  assert (I = numIters base freqs) as HI.
  { unfold I, numIters, C. by rewrite Z.quot_div_nonneg by lia. }
  destruct (Label_tree base freqs Hbase HC)
    as (st & q & paths & Hbuild & Hinv & _ & Hnext & Hlen & _).
  pose proof (numIters_pos base freqs Hbase ltac:(lia)) as Hpos.
  pose proof (inv_next_hi _ _ _ Hinv) as Hhi.
  eexists st, _. split; [exact Hbuild|].
  assert (Z.of_nat (length (nodes st)) = C + I) as Hpool.
  { rewrite Hlen, HI. unfold numNodes, C. lia. }
  split; [done|]. split; [lia|].
  split; [cbn; rewrite length_replicate; unfold C; lia|].
  constructor; [done|]. apply Forall_forall. intros c Hc.
  apply elem_of_replicate in Hc as [-> _]. done.
Qed.

Lemma pool_suffices_witness :
  let C := Z.of_nat (length [1; 1; 1; 1; 1]) in
  let I := (C - 1) / (2 - 1) + 1 in
  exists st calls,
    build 2 [1; 1; 1; 1; 1] = Ok (st, calls) /\
    Z.of_nat (length (nodes st)) = C + I /\
    Z.of_nat (nextNodeIdx st) - C <= I /\
    Z.of_nat (length calls) = Z.of_nat (nextNodeIdx st) - C /\
    Forall (fun c => popped c = requested c) calls.
Proof. apply (pool_suffices 2 [1; 1; 1; 1; 1]); cbn; lia. Defined.

(** C8. [Label 2 [1;1;1;1;1]] is [aa, bbb, ba, bba, ab] over the alphabet
    [ab], in that order. *)
Theorem Label_five_ones :
  Label 2 [1; 1; 1; 1; 1]
  = Ok [[0; 0]; [1; 1; 1]; [1; 0]; [1; 1; 0]; [0; 1]].
Proof. vm_compute. reflexivity. Qed.

(** C9. For every [base >= 2] and every single frequency [f],
    [Label base [f]] is the one label [[0]]. *)
Theorem Label_single_item (base f : Z) :
  2 <= base -> Label base [f] = Ok [[0]].
Proof. apply Label_single. Qed.

Lemma Label_single_item_witness : Label 26 [-7] = Ok [[0]].
Proof. apply (Label_single_item 26 (-7)). lia. Defined.

(** * Further properties

    What follows goes beyond the claims: the shape of the tree that [Label]
    builds, what its root holds, and the behaviour of [combine], of
    [container/heap] and of the methods of [nodeHeap] on their own. *)

(** ** The number of calls of [combine] *)

Lemma count_inv_init base freqs h0 :
  h0 ≡ₚ seq 0 (length freqs) ->
  count_inv base freqs (mkState (pool0 base freqs) h0 (length freqs)).
Proof.
  intros Hp. unfold count_inv. cbn [nodeHeap nextNodeIdx].
  rewrite decide_True by done.
  apply Permutation_length in Hp. rewrite length_seq in Hp. lia.
Qed.

Lemma count_inv_step base freqs st cs st' :
  2 <= base -> (2 <= length freqs)%nat ->
  tree_inv base freqs st -> count_inv base freqs st ->
  combines (arity base freqs (nextNodeIdx st)) st cs st' ->
  count_inv base freqs st'.
Proof.
  intros Hbase HC Hi Hn Hc. unfold count_inv in *.
  pose proof (combines_length_after Hc) as Hlen.
  pose proof (arity_range base freqs Hbase (nextNodeIdx st) HC) as Har.
  pose proof (inv_next_lo _ _ _ Hi) as Hlo.
  rewrite (cb_next _ _ _ _ Hc).
  rewrite decide_False by lia.
  unfold arity in *. repeat case_decide; try lia.
Qed.

(** [Label_spec] with the number of calls after the first: there are
    [(C - 2) / (base - 1)] of them. *)
Lemma calls_exact base freqs :
  2 <= base -> (2 <= length freqs)%nat ->
  exists st (q : nat) paths,
    build base freqs
    = Ok (st, mkCombined (initial_count base freqs) (initial_count base freqs)
                :: replicate q (mkCombined base base)) /\
    tree_inv base freqs st /\
    length (nodeHeap st) = 1%nat /\
    nextNodeIdx st = (length freqs + 1 + q)%nat /\
    length (nodes st) = Z.to_nat (numNodes base freqs) /\
    Forall2 (climbs (nodes st)) (seq 0 (length freqs)) paths /\
    Label base freqs = Ok (@rev Z <$> paths) /\
    Z.of_nat q = (Z.of_nat (length freqs) - 2) / (base - 1).
Proof.
  intros Hbase HC.
  destruct (Label_spec base freqs Hbase HC (count_inv base freqs))
    as (st & q & paths & H1 & H2 & Hn & Hone & Hnext & H3).
  { intros st cs st' Hi Hn _ Hc. by apply (count_inv_step base freqs st cs st'). }
  { intros h0 Hp _. by apply count_inv_init. }
  exists st, q, paths. do 4 (split; [done|]).
  destruct H3 as (H3 & H4 & H5). do 3 (split; [done|]).
  unfold count_inv in Hn. rewrite Hone, Hnext in Hn.
  rewrite decide_False in Hn by lia. unfold initial_count in Hn.
  rewrite <- Z.quot_div_nonneg by lia.
  pose proof (Z.quot_rem' (Z.of_nat (length freqs) - 2) (base - 1)) as Hqr.
  nia.
Qed.

(** ** Climbs in the finished tree *)

(** A climb passes through parents only, each created after the node below
    it. *)
Lemma climbs_length base freqs st x l :
  tree_inv base freqs st -> climbs (nodes st) x l ->
  (x < nextNodeIdx st)%nat ->
  (length l + Nat.max (S x) (length freqs) <= nextNodeIdx st)%nat.
Proof.
  intros Hinv Hcl. induction Hcl as [x Hr|x p l Hp Hcl IH]; intros Hx.
  - pose proof (inv_next_lo _ _ _ Hinv). cbn. lia.
  - destruct (inv_links _ _ _ Hinv x Hx ltac:(lia)) as (p' & Hp' & Hpr & Hxp & _).
    assert (p' = p) as -> by lia.
    specialize (IH ltac:(lia)). cbn [length]. lia.
Qed.

(** Two nodes with the same climb are the same node. *)
Lemma climbs_inj base freqs st x y l :
  tree_inv base freqs st -> length (nodeHeap st) = 1%nat ->
  (x < nextNodeIdx st)%nat -> (y < nextNodeIdx st)%nat ->
  climbs (nodes st) x l -> climbs (nodes st) y l -> x = y.
Proof.
  intros Hinv Hone Hx Hy Hcx Hcy.
  by destruct (climbs_suffix base freqs st Hinv Hone y l Hcy Hy x l [] Hx Hcx
                 eq_refl) as [H0 _]; apply H0.
Qed.

(** The root is the parent created last. *)
Lemma root_is_last base freqs st x :
  tree_inv base freqs st -> length (nodeHeap st) = 1%nat ->
  (length freqs < nextNodeIdx st)%nat -> (x < nextNodeIdx st)%nat ->
  ParentIndex (nodes st !!! x) = -1 <-> x = (nextNodeIdx st - 1)%nat.
Proof.
  intros Hinv Hone Hlt Hx. rewrite (inv_roots _ _ _ Hinv x Hx).
  pose proof (inv_last _ _ _ Hinv Hlt) as Hlast.
  destruct (nodeHeap st) as [|r [|??]]; try done.
  apply list_elem_of_singleton in Hlast. rewrite list_elem_of_singleton. lia.
Qed.

(** Below every node there is a leaf. *)
Lemma leaf_below base freqs st x :
  2 <= base -> (2 <= length freqs)%nat -> tree_inv base freqs st ->
  (x < nextNodeIdx st)%nat ->
  exists i t, (i < length freqs)%nat /\
    forall l, climbs (nodes st) x l -> climbs (nodes st) i (t ++ l).
Proof.
  intros Hbase HC Hinv. induction (lt_wf x) as [x _ IH]. intros Hx.
  destruct (decide (x < length freqs)%nat) as [Hleaf|Hpar].
  { exists x, []. split; [done|]. by intros l Hl. }
  pose proof (inv_children _ _ _ Hinv x ltac:(lia)) as Hch.
  pose proof (arity_range base freqs Hbase x HC) as Har.
  destruct (children (nodes st) (nextNodeIdx st) x) as [|c cs] eqn:Ec;
    [cbn in Hch; lia|].
  assert (c ∈ children (nodes st) (nextNodeIdx st) x) as Hc
    by (rewrite Ec; apply list_elem_of_here).
  apply elem_of_children in Hc as [Hcn Hcp].
  destruct (inv_links _ _ _ Hinv c Hcn ltac:(lia)) as (p & Hp & _ & Hcx & _).
  assert (p = x) as -> by lia.
  destruct (IH c Hcx Hcn) as (i & t & Hi & Hcl).
  exists i, (t ++ [SiblingIndex (nodes st !!! c)]). split; [done|].
  intros l Hl. rewrite <- app_assoc. apply Hcl. by econstructor.
Qed.

(** A tail of a climb is the climb of an ancestor. *)
Lemma climbs_split base freqs st t : forall x m,
  tree_inv base freqs st ->
  climbs (nodes st) x (t ++ m) -> (x < nextNodeIdx st)%nat ->
  exists y, (y < nextNodeIdx st)%nat /\ climbs (nodes st) y m.
Proof.
  induction t as [|s t IH]; intros x m Hinv Hcl Hx.
  - by exists x.
  - inversion Hcl as [|? p ? Hp Hcl']; subst.
    destruct (inv_links _ _ _ Hinv x Hx ltac:(lia)) as (p' & Hp' & Hpr & _).
    assert (p' = p) as -> by lia.
    apply (IH p m Hinv Hcl'). lia.
Qed.

(** The children of a parent carry every sibling index below their
    number. *)
Lemma sibling_onto base freqs st p s :
  tree_inv base freqs st ->
  (length freqs <= p < nextNodeIdx st)%nat -> 0 <= s < arity base freqs p ->
  exists z, (z < nextNodeIdx st)%nat /\ parent_of (nodes st) z p /\
            SiblingIndex (nodes st !!! z) = s.
Proof.
  intros Hinv Hp Hs.
  pose (kids := children (nodes st) (nextNodeIdx st) p).
  pose (sibs := (fun z => SiblingIndex (nodes st !!! z)) <$> kids).
  assert (sibs ≡ₚ seqZ 0 (arity base freqs p)) as Hperm.
  { apply submseteq_length_Permutation.
    - apply NoDup_submseteq.
      + apply NoDup_fmap_2_strong; [|apply NoDup_children].
        intros x y Hx Hy Heq.
        apply elem_of_children in Hx as [Hx Hpx].
        apply elem_of_children in Hy as [Hy Hpy].
        apply (inv_sib_inj _ _ _ Hinv); try done; lia.
      + intros v Hv. apply list_elem_of_fmap in Hv as (z & -> & Hz).
        apply elem_of_children in Hz as [Hz Hpz].
        destruct (inv_links _ _ _ Hinv z Hz ltac:(lia)) as (p' & Hp' & _ & _ & Hr).
        assert (p' = p) as -> by lia.
        apply elem_of_seqZ. lia.
    - rewrite length_seqZ. unfold sibs. rewrite length_fmap.
      pose proof (inv_children _ _ _ Hinv p Hp). fold kids in H. lia. }
  assert (s ∈ sibs) as Hin by (rewrite Hperm; apply elem_of_seqZ; lia).
  apply list_elem_of_fmap in Hin as (z & -> & Hz).
  apply elem_of_children in Hz as [Hz Hpz]. by exists z.
Qed.

(** ** Sibling indices follow the frequencies *)

Lemma sib_sorted_init base freqs h0 :
  sib_sorted (mkState (pool0 base freqs) h0 (length freqs)).
Proof.
  intros x y p Hx _ Hp. cbn [nodes nextNodeIdx] in *. unfold parent_of in Hp.
  destruct (lookup_lt_is_Some_2 freqs x Hx) as [f Hf].
  rewrite (pool0_leaf base freqs x f Hf) in Hp. cbn in Hp. lia.
Qed.

Lemma sib_sorted_step base freqs k st cs st' :
  tree_inv base freqs st -> sib_sorted st -> combines k st cs st' ->
  sib_sorted st'.
Proof.
  intros Hi Hs Hc x y p Hx Hy Hpx Hpy Hle.
  rewrite (cb_next _ _ _ _ Hc) in Hx, Hy.
  rewrite (wt_after Hc x), (wt_after Hc y).
  - destruct (parent_after base freqs Hi Hc x p Hx Hpx)
      as [[Hxc ->]|(Hxc & Hxn & Hpx' & Hp)];
    destruct (parent_after base freqs Hi Hc y _ Hy Hpy)
      as [[Hyc Hyp]|(Hyc & Hyn & Hpy' & Hp')]; try lia.
    + apply list_elem_of_lookup in Hxc as [jx Hjx].
      apply list_elem_of_lookup in Hyc as [jy Hjy].
      rewrite (combines_at_kid Hc jx x Hjx), (combines_at_kid Hc jy y Hjy) in Hle.
      cbn in Hle. apply (cb_sorted _ _ _ _ Hc jx jy); (done || lia).
    + apply (Hs x y p); try done.
      rewrite (combines_at_other Hc x), (combines_at_other Hc y) in Hle;
        (done || lia).
  - destruct (parent_after base freqs Hi Hc y p Hy Hpy)
      as [[Hyc _]|(_ & ? & _)]; [|done].
    by apply (kid_lt base freqs Hi Hc).
  - destruct (parent_after base freqs Hi Hc x p Hx Hpx)
      as [[Hxc _]|(_ & ? & _)]; [|done].
    by apply (kid_lt base freqs Hi Hc).
Qed.

(** ** What the root ends up holding *)

Lemma sum_hops_zsum ns cs : forall a,
  sum_hops ns a cs = a + zsum (hops ns <$> cs).
Proof.
  unfold sum_hops. induction cs as [|c cs IH]; intros a.
  - cbn. rewrite zsum_nil. lia.
  - rewrite fmap_cons, zsum_cons. cbn [foldl]. rewrite IH. unfold hops. lia.
Qed.

Lemma wrap64_mod z : wrap64 z mod 2 ^ 64 = z mod 2 ^ 64.
Proof.
  unfold wrap64. rewrite Zminus_mod_idemp_l. f_equal. lia.
Qed.

Lemma wrap64_int64 z : int64 (wrap64 z).
Proof.
  unfold wrap64, int64.
  pose proof (Z.mod_pos_bound (z + 2 ^ 63) (2 ^ 64) ltac:(lia)). lia.
Qed.

Lemma wrap64_eq x y :
  int64 x -> x mod 2 ^ 64 = y mod 2 ^ 64 -> x = wrap64 y.
Proof.
  intros Hx Heq. rewrite <- (wrap64_small x) by done. unfold wrap64.
  f_equal. rewrite (Zplus_mod x), (Zplus_mod y), Heq. done.
Qed.

Lemma sum_freq_mod ns cs : forall a,
  sum_freq ns a cs mod 2 ^ 64 = (a + zsum (wt ns <$> cs)) mod 2 ^ 64.
Proof.
  unfold sum_freq. induction cs as [|c cs IH]; intros a.
  - cbn. rewrite zsum_nil. f_equal. lia.
  - rewrite fmap_cons, zsum_cons. cbn [foldl]. rewrite IH.
    rewrite Zplus_mod, wrap64_mod, <- Zplus_mod. f_equal. lia.
Qed.

Lemma sum_freq_int64 ns cs : forall a,
  int64 a \/ cs <> [] -> int64 (sum_freq ns a cs).
Proof.
  unfold sum_freq. induction cs as [|c cs IH]; intros a Ha.
  - by destruct Ha.
  - cbn [foldl]. apply IH. left. apply wrap64_int64.
Qed.

(** The sum of [f] over the heap after a combination, for an [f] that reads
    one node: the new parent comes in, the children go out. *)
Lemma combines_rest {k st cs st'} (f : list node -> nat -> Z) :
  combines k st cs st' -> NoDup (nodeHeap st) ->
  (forall x, x ∈ nodeHeap st -> (x < nextNodeIdx st)%nat) ->
  (forall x, nodes st' !! x = nodes st !! x -> f (nodes st') x = f (nodes st) x) ->
  zsum (f (nodes st') <$> nodeHeap st')
  = f (nodes st') (nextNodeIdx st)
    + zsum (f (nodes st) <$> nodeHeap st) - zsum (f (nodes st) <$> cs).
Proof.
  intros Hc Hnd Hlt Hf. destruct (cb_heap _ _ _ _ Hc) as (h1 & Hp & Hp').
  rewrite Hp', Hp, fmap_cons, zsum_cons, fmap_app, zsum_app.
  assert (f (nodes st') <$> h1 = f (nodes st) <$> h1) as ->; [|lia].
  apply list_fmap_ext. intros i x Hx. apply Hf.
  assert (x ∈ h1) as Hin by (by eapply list_elem_of_lookup_2).
  rewrite Hp in Hnd. apply NoDup_app in Hnd as (_ & Hdisj & _).
  apply (cb_other _ _ _ _ Hc).
  - intros Hxc. by apply (Hdisj x).
  - assert (x ∈ nodeHeap st) as Hin'
      by (rewrite Hp; apply elem_of_app; by right).
    apply Hlt in Hin'. lia.
Qed.

Lemma hops_inv_init base freqs h0 :
  h0 ≡ₚ seq 0 (length freqs) ->
  hops_inv (mkState (pool0 base freqs) h0 (length freqs)).
Proof.
  intros Hp. unfold hops_inv. cbn [nodes nodeHeap nextNodeIdx].
  pose proof (Permutation_length Hp) as Hlen. rewrite length_seq in Hlen.
  rewrite Hlen, Z.sub_diag.
  assert (forall h : list nat, Forall (fun x => (x < length freqs)%nat) h ->
            zsum (hops (pool0 base freqs) <$> h) = 0) as Hz.
  { induction 1 as [|x h Hx _ IH]; [reflexivity|].
    rewrite fmap_cons, zsum_cons, IH. unfold hops.
    destruct (lookup_lt_is_Some_2 freqs x Hx) as [f Hf].
    by rewrite (pool0_leaf base freqs x f Hf). }
  apply Hz. rewrite Hp. apply Forall_forall. intros x Hx.
  apply elem_of_seq in Hx. lia.
Qed.

Lemma hops_inv_step base freqs k st cs st' :
  0 <= k -> tree_inv base freqs st -> hops_inv st -> combines k st cs st' ->
  hops_inv st'.
Proof.
  intros Hk Hi Hh Hc. unfold hops_inv in *.
  rewrite (combines_rest hops Hc (inv_nodup _ _ _ Hi) (inv_heap_lt _ _ _ Hi)).
  - unfold hops at 1. rewrite (combines_at_parent Hc). cbn [TotalHops].
    rewrite sum_hops_zsum, Hh, (cb_next _ _ _ _ Hc).
    pose proof (combines_length_after Hc). lia.
  - intros x Hx. unfold hops. by rewrite (lookup_total_eq _ _ _ Hx).
Qed.

Lemma freq_inv_init base freqs h0 :
  h0 ≡ₚ seq 0 (length freqs) ->
  freq_inv freqs (mkState (pool0 base freqs) h0 (length freqs)).
Proof.
  intros Hp. split; cbn [nodes nodeHeap nextNodeIdx]; [|lia].
  rewrite Hp. f_equal. f_equal.
  apply list_eq. intros i. rewrite list_lookup_fmap.
  destruct (decide (i < length freqs)%nat) as [Hi|Hi].
  - rewrite lookup_seq_lt by done. cbn.
    destruct (lookup_lt_is_Some_2 freqs i Hi) as [f Hf]. rewrite Hf.
    unfold wt. by rewrite (pool0_leaf base freqs i f Hf).
  - rewrite lookup_seq_ge by lia. cbn. symmetry.
    apply lookup_ge_None. lia.
Qed.

Lemma freq_inv_step base freqs k st cs st' :
  1 <= k -> tree_inv base freqs st -> freq_inv freqs st ->
  combines k st cs st' -> freq_inv freqs st'.
Proof.
  intros Hk Hi [Hsum Hfit] Hc. split.
  - rewrite (combines_rest wt Hc (inv_nodup _ _ _ Hi) (inv_heap_lt _ _ _ Hi)).
    + rewrite (wt_new Hc). rewrite <- Hsum.
      rewrite <- Z.add_sub_assoc, Zplus_mod, sum_freq_mod, <- Zplus_mod.
      f_equal. lia.
    + intros x Hx. unfold wt. by rewrite (lookup_total_eq _ _ _ Hx).
  - intros p Hp. rewrite (cb_next _ _ _ _ Hc) in Hp.
    destruct (decide (p = nextNodeIdx st)) as [->|Hne].
    + rewrite (wt_new Hc). apply sum_freq_int64. right.
      pose proof (cb_count _ _ _ _ Hc). destruct cs; [cbn in *; lia | done].
    + rewrite (wt_after Hc) by lia. apply Hfit. lia.
Qed.

(** ** Reading results back *)

Lemma get_Ok_lt {A} (s : list A) i x : get s i = Ok x -> (i < length s)%nat.
Proof.
  unfold get. destruct (s !! i) eqn:E; [|done].
  intros _. by eapply lookup_lt_Some.
Qed.

Lemma bind_Ok_inv {A B} (m : result A) (k : A -> result B) b :
  (m ≫= k) = Ok b -> exists a, m = Ok a /\ k a = Ok b.
Proof. destruct m as [a|e]; [by exists a | done]. Qed.

Lemma Less_Ok_lt ns h i j b :
  nodeHeap.Less ns h i j = Ok b -> (i < length h)%nat /\ (j < length h)%nat.
Proof.
  unfold nodeHeap.Less. intros H.
  apply bind_Ok_inv in H as (pi & Hi & H).
  apply bind_Ok_inv in H as (pj & Hj & _).
  split; by eapply get_Ok_lt.
Qed.

(** ** [down] on a heap *)

(** [down] leaves a position alone that is no heavier than its children. *)
Lemma down_ordered fuel ns h i n :
  (n <= length h)%nat -> in_pool ns h -> ordered_at ns h n i ->
  heap.down fuel ns h i n = Ok h.
Proof.
  intros Hn Hv Ho.
  destruct (decide (n <= 2 * i + 1)%nat) as [Hleaf|Hkid].
  - rewrite down_unfold. cbv zeta. by rewrite decide_True.
  - rewrite down_step by (done || lia). cbv zeta.
    pose proof (lighter_child_spec ns h i n ltac:(lia)) as (Hj & Hjn & _).
    specialize (Ho _ Hj Hjn).
    destruct (Z.ltb_spec (key ns h (lighter_child ns h i n)) (key ns h i));
      [lia | done].
Qed.

Lemma heapify_ordered ns h n : forall k,
  n = length h -> in_pool ns h -> is_heap ns h ->
  heap.heapify ns h k n = Ok h.
Proof.
  intros k -> Hv Hheap. induction k as [|i IH]; [done|].
  cbn [heap.heapify]. rewrite down_ordered; [|done|done|apply Hheap].
  by rewrite bind_Ok.
Qed.

(** ** The labels *)

(** X1. While no sum of frequencies overflows ([sum |f| < 2^63]), of any
    two items the one with the strictly higher frequency gets a label that
    is no longer than the other's: "items with higher frequencies will be
    assigned shorter labels", pair by pair. *)
Theorem Label_higher_not_longer (base : Z) (freqs : list Z) :
  2 <= base -> zsum (Z.abs <$> freqs) < 2 ^ 63 ->
  exists ls, Label base freqs = Ok ls /\
    forall i j fi fj a b,
      freqs !! i = Some fi -> freqs !! j = Some fj -> fi < fj ->
      ls !! i = Some a -> ls !! j = Some b ->
      (length b <= length a)%nat.
Proof.
  intros Hbase Hfit.
  destruct (freqs_cases freqs) as [->|[[f ->]|HC]].
  - exists []. split; [by apply Label_nil|]. intros i j fi fj a b Hi. done.
  - exists [[0]]. split; [by apply Label_single|].
    intros [|i] [|j] fi fj a b Hi Hj Hlt; try done.
    cbn in Hi, Hj. simplify_eq. lia.
  - destruct (Label_spec base freqs Hbase HC (order_inv freqs))
      as (st & q & paths & _ & Hinv & Hord & Hone & Hnext & _ & Hpaths & HL).
    { intros st cs st'. by apply order_inv_step. }
    { intros h0. by apply order_inv_init. }
    exists (@rev Z <$> paths). split; [done|].
    intros i j fi fj a b Hfi Hfj Hlt Ha Hb.
    destruct (Label_lookup freqs st paths _ i a Hpaths eq_refl Ha)
      as (li & Hi & Hcli & ->).
    destruct (Label_lookup freqs st paths _ j b Hpaths eq_refl Hb)
      as (lj & Hj & Hclj & ->).
    rewrite !length_rev.
    apply (leaf_depth_order base freqs Hbase HC st Hinv Hord i j li lj);
      try (done || lia).
    unfold wt.
    by rewrite (inv_leaf _ _ _ Hinv i fi Hfi), (inv_leaf _ _ _ Hinv j fj Hfj).
Qed.

Lemma Label_higher_not_longer_witness :
  exists ls, Label 4 [10; 12; 7; 8; 32; 1; 17; 18] = Ok ls /\
    forall i j fi fj a b,
      [10; 12; 7; 8; 32; 1; 17; 18] !! i = Some fi ->
      [10; 12; 7; 8; 32; 1; 17; 18] !! j = Some fj -> fi < fj ->
      ls !! i = Some a -> ls !! j = Some b ->
      (length b <= length a)%nat.
Proof.
  apply (Label_higher_not_longer 4 [10; 12; 7; 8; 32; 1; 17; 18]).
  - lia.
  - vm_compute. reflexivity.
Defined.

(** X2. For [base >= 2] and [C >= 2] items no label is longer than
    [(C - 2) / (base - 1) + 1], the number of calls of [combine]. *)
Theorem Label_length_bound (base : Z) (freqs : list Z) :
  2 <= base -> (2 <= length freqs)%nat ->
  exists ls, Label base freqs = Ok ls /\
    forall l, l ∈ ls ->
      Z.of_nat (length l) <= (Z.of_nat (length freqs) - 2) / (base - 1) + 1.
Proof.
  intros Hbase HC.
  destruct (calls_exact base freqs Hbase HC)
    as (st & q & paths & _ & Hinv & _ & Hnext & _ & Hpaths & HL & Hq).
  exists (@rev Z <$> paths). split; [done|]. intros l Hl.
  apply list_elem_of_lookup in Hl as [i Hi].
  destruct (Label_lookup freqs st paths _ i l Hpaths eq_refl Hi)
    as (p & Hlt & Hcl & ->).
  rewrite length_rev.
  pose proof (climbs_length base freqs st i p Hinv Hcl ltac:(lia)). lia.
Qed.

Lemma Label_length_bound_witness :
  exists ls, Label 2 [1; 2; 4; 8] = Ok ls /\
    forall l, l ∈ ls ->
      Z.of_nat (length l) <= (Z.of_nat (length [1; 2; 4; 8]) - 2) / (2 - 1) + 1.
Proof. apply (Label_length_bound 2 [1; 2; 4; 8]); cbn; lia. Defined.

(** X3. For [base >= 2], every label is a single symbol exactly when there
    are no more items than symbols, [len(freqs) <= base]. *)
Theorem Label_single_symbols (base : Z) (freqs : list Z) :
  2 <= base ->
  exists ls, Label base freqs = Ok ls /\
    ((forall l, l ∈ ls -> length l = 1%nat)
     <-> Z.of_nat (length freqs) <= base).
Proof.
  intros Hbase.
  destruct (freqs_cases freqs) as [->|[[f ->]|HC]].
  - exists []. split; [by apply Label_nil|]. split; [cbn; lia|].
    intros _ l Hl. by apply not_elem_of_nil in Hl.
  - exists [[0]]. split; [by apply Label_single|]. split; [cbn; lia|].
    intros _ l Hl. by apply list_elem_of_singleton in Hl as ->.
  - destruct (calls_exact base freqs Hbase HC)
      as (st & q & paths & _ & Hinv & Hone & Hnext & _ & Hpaths & HL & Hq).
    exists (@rev Z <$> paths). split; [done|].
    pose proof (Forall2_length _ _ _ Hpaths) as Hlen. rewrite length_seq in Hlen.
    assert (forall i, (i < length freqs)%nat ->
      exists l, climbs (nodes st) i l /\ rev l ∈ @rev Z <$> paths) as Hleaf.
    { intros i Hi. destruct (lookup_lt_is_Some_2 paths i ltac:(lia)) as [l Hl].
      exists l. split.
      - eapply Forall2_lookup_lr; [exact Hpaths | | exact Hl].
        by rewrite lookup_seq_lt by lia.
      - apply list_elem_of_fmap. exists l. split; [done|].
        by eapply list_elem_of_lookup_2. }
    split.
    + (* more items than symbols: a child of the first parent lies deeper *)
      intros Hall.
      destruct (Z.le_gt_cases (Z.of_nat (length freqs)) base) as [?|Hgt]; [done|].
      exfalso.
      assert (1 <= Z.of_nat q) as Hq1.
      { rewrite Hq. apply Z.div_le_lower_bound; lia. }
      pose proof (inv_children _ _ _ Hinv (length freqs) ltac:(lia)) as Hch.
      pose proof (arity_range base freqs Hbase (length freqs) HC) as Har.
      destruct (children (nodes st) (nextNodeIdx st) (length freqs))
        as [|x xs] eqn:Ex; [cbn in Hch; lia|].
      assert (x ∈ children (nodes st) (nextNodeIdx st) (length freqs)) as Hx
        by (rewrite Ex; apply list_elem_of_here).
      apply elem_of_children in Hx as [Hxn Hxp].
      destruct (inv_links _ _ _ Hinv x Hxn ltac:(lia)) as (p & Hp & _ & Hxlt & _).
      assert (p = length freqs) as -> by lia.
      destruct (Hleaf x Hxlt) as (l & Hcl & Hin).
      specialize (Hall _ Hin). rewrite length_rev in Hall.
      inversion Hcl as [? Hr|? p' l' Hp' Hcl']; subst; [lia|].
      assert (p' = length freqs) as -> by lia.
      inversion Hcl' as [? Hr|]; subst; [|cbn in Hall; lia].
      apply (root_is_last base freqs st _ Hinv Hone) in Hr; lia.
    + intros Hle l Hl.
      apply list_elem_of_lookup in Hl as [i Hi].
      destruct (Label_lookup freqs st paths _ i l Hpaths eq_refl Hi)
        as (p & Hlt & Hcl & ->).
      rewrite length_rev.
      assert (Z.of_nat q = 0) as Hq0.
      { rewrite Hq. apply Z.div_small. lia. }
      pose proof (climbs_length base freqs st i p Hinv Hcl ltac:(lia)).
      pose proof (leaf_has_parent base freqs st q i Hinv Hone Hnext Hlt) as Hnr.
      inversion Hcl; subst; [done | cbn in *; lia].
Qed.

Lemma Label_single_symbols_witness :
  exists ls, Label 4 [50; 25; 12; 6] = Ok ls /\
    ((forall l, l ∈ ls -> length l = 1%nat)
     <-> Z.of_nat (length [50; 25; 12; 6]) <= 4).
Proof. apply (Label_single_symbols 4 [50; 25; 12; 6]). lia. Defined.

(** X4. For [base >= 2], the symbols that labels begin with are exactly
    [0 .. min(len(freqs), base) - 1]: with [base] items or more every symbol
    of the alphabet starts some label. *)
Theorem Label_first_symbols (base : Z) (freqs : list Z) :
  2 <= base ->
  exists ls, Label base freqs = Ok ls /\
    forall s, (exists l, l ∈ ls /\ head l = Some s)
              <-> 0 <= s < Z.min (Z.of_nat (length freqs)) base.
Proof.
  intros Hbase.
  destruct (freqs_cases freqs) as [->|[[f ->]|HC]].
  - exists []. split; [by apply Label_nil|]. intros s. split; [|cbn; lia].
    intros (l & Hl & _). by apply not_elem_of_nil in Hl.
  - exists [[0]]. split; [by apply Label_single|]. intros s. split.
    + intros (l & Hl & Hh). apply list_elem_of_singleton in Hl as ->.
      cbn in Hh. simplify_eq. cbn. lia.
    + intros Hs. cbn in Hs. exists [0]. split; [apply list_elem_of_here|].
      cbn. f_equal. lia.
  - destruct (calls_exact base freqs Hbase HC)
      as (st & q & paths & _ & Hinv & Hone & Hnext & _ & Hpaths & HL & Hq).
    exists (@rev Z <$> paths). split; [done|].
    pose proof (Forall2_length _ _ _ Hpaths) as Hlen. rewrite length_seq in Hlen.
    pose (r := (nextNodeIdx st - 1)%nat).
    assert (ParentIndex (nodes st !!! r) = -1) as Hroot
      by (apply (root_is_last base freqs st r Hinv Hone); unfold r; lia).
    assert (arity base freqs r = Z.min (Z.of_nat (length freqs)) base) as Har.
    { unfold arity, initial_count, r. rewrite Hnext.
      destruct (Z.le_gt_cases (Z.of_nat (length freqs)) base) as [Hle|Hgt].
      - assert (Z.of_nat q = 0) as Hq0 by (rewrite Hq; apply Z.div_small; lia).
        rewrite decide_True by lia. rewrite Z.rem_small by lia. lia.
      - assert (1 <= Z.of_nat q) as Hq1
          by (rewrite Hq; apply Z.div_le_lower_bound; lia).
        rewrite decide_False by lia. lia. }
    intros s. rewrite <- Har. split.
    + intros (l & Hl & Hh).
      apply list_elem_of_lookup in Hl as [i Hi].
      destruct (Label_lookup freqs st paths _ i l Hpaths eq_refl Hi)
        as (li & Hlt & Hcli & ->).
      destruct (rev li) as [|s' rest] eqn:El; [done|]. cbn in Hh. simplify_eq.
      apply (f_equal (@rev Z)) in El. rewrite rev_involutive in El. cbn in El.
      subst li.
      destruct (climbs_split base freqs st _ i _ Hinv Hcli ltac:(lia))
        as (y & Hy & Hcly).
      inversion Hcly as [|? p ? Hp Hclp]; subst.
      destruct (inv_links _ _ _ Hinv y Hy ltac:(lia)) as (p' & Hp' & Hpr & _ & Hs).
      assert (p' = p) as -> by lia.
      inversion Hclp as [? Hr|]; subst.
      apply (root_is_last base freqs st _ Hinv Hone) in Hr; [|lia|lia].
      fold r in Hr. by subst p.
    + intros Hs.
      destruct (sibling_onto base freqs st r s Hinv ltac:(unfold r; lia) Hs)
        as (z & Hz & Hpz & Hsz).
      destruct (leaf_below base freqs st z Hbase HC Hinv Hz) as (j & tt & Hj & Hclj).
      specialize (Hclj [s]). rewrite <- Hsz in Hclj.
      specialize (Hclj ltac:(econstructor; [exact Hpz | by constructor])).
      rewrite Hsz in Hclj.
      destruct (lookup_lt_is_Some_2 paths j ltac:(lia)) as [lj Hlj].
      assert (climbs (nodes st) j lj) as Hclj'.
      { eapply Forall2_lookup_lr; [exact Hpaths | | exact Hlj].
        by rewrite lookup_seq_lt by lia. }
      pose proof (climbs_functional _ _ _ _ Hclj Hclj') as <-.
      exists (rev (tt ++ [s])). split.
      * apply list_elem_of_fmap. eexists. split; [done|].
        by eapply list_elem_of_lookup_2.
      * by rewrite rev_app_distr.
Qed.

Lemma Label_first_symbols_witness :
  exists ls, Label 4 [5; 4; 3] = Ok ls /\
    forall s, (exists l, l ∈ ls /\ head l = Some s)
              <-> 0 <= s < Z.min (Z.of_nat (length [5; 4; 3])) 4.
Proof. apply (Label_first_symbols 4 [5; 4; 3]). lia. Defined.

(** X5. For [base >= 2], symbols are used without gaps at every position:
    if a label continues a prefix [pre] with the symbol [s], then for every
    [t] with [0 <= t < s] some label continues [pre] with [t]. *)
Theorem Label_no_gaps (base : Z) (freqs : list Z) :
  2 <= base ->
  exists ls, Label base freqs = Ok ls /\
    forall l pre s rest t,
      l ∈ ls -> l = pre ++ s :: rest -> 0 <= t < s ->
      exists l', l' ∈ ls /\ (pre ++ [t]) `prefix_of` l'.
Proof.
  intros Hbase.
  destruct (freqs_cases freqs) as [->|[[f ->]|HC]].
  - exists []. split; [by apply Label_nil|]. intros l pre s rest t Hl.
    by apply not_elem_of_nil in Hl.
  - exists [[0]]. split; [by apply Label_single|].
    intros l pre s rest t Hl Heq Ht.
    apply list_elem_of_singleton in Hl as ->.
    destruct pre as [|? [|??]]; simplify_eq/=. lia.
  - destruct (Label_tree base freqs Hbase HC)
      as (st & q & paths & _ & Hinv & Hone & Hnext & _ & Hpaths & HL).
    exists (@rev Z <$> paths). split; [done|].
    intros l pre s rest t Hl Heq Ht.
    apply list_elem_of_lookup in Hl as [i Hi].
    destruct (Label_lookup freqs st paths _ i l Hpaths eq_refl Hi)
      as (li & Hlt & Hcli & El).
    assert (li = rev rest ++ s :: rev pre) as ->.
    { apply (f_equal (@rev Z)) in El. rewrite rev_involutive in El.
      rewrite <- El, Heq, rev_app_distr. cbn. by rewrite <- app_assoc. }
    destruct (climbs_split base freqs st _ i _ Hinv Hcli ltac:(lia))
      as (y & Hy & Hcly).
    inversion Hcly as [|? p ? Hp Hclp]; subst.
    destruct (inv_links _ _ _ Hinv y Hy ltac:(lia)) as (p' & Hp' & Hpr & _ & Hs).
    assert (p' = p) as -> by lia.
    destruct (sibling_onto base freqs st p t Hinv Hpr ltac:(lia))
      as (z & Hz & Hpz & Hsz).
    destruct (leaf_below base freqs st z Hbase HC Hinv Hz) as (j & tt & Hj & Hclj).
    specialize (Hclj (t :: rev pre)).
    rewrite <- Hsz in Hclj. specialize (Hclj ltac:(by econstructor)).
    rewrite Hsz in Hclj.
    pose proof (Forall2_length _ _ _ Hpaths) as Hlen. rewrite length_seq in Hlen.
    destruct (lookup_lt_is_Some_2 paths j ltac:(lia)) as [lj Hlj].
    assert (climbs (nodes st) j lj) as Hclj'.
    { eapply Forall2_lookup_lr; [exact Hpaths | | exact Hlj].
      by rewrite lookup_seq_lt by lia. }
    pose proof (climbs_functional _ _ _ _ Hclj Hclj') as <-.
    exists (rev (tt ++ t :: rev pre)). split.
    + apply list_elem_of_fmap. eexists. split; [done|].
      by eapply list_elem_of_lookup_2.
    + exists (rev tt). rewrite rev_app_distr. cbn.
      by rewrite rev_involutive, <- app_assoc.
Qed.

Lemma Label_no_gaps_witness :
  exists ls, Label 2 [1; 1; 1; 1; 1] = Ok ls /\
    forall l pre s rest t,
      l ∈ ls -> l = pre ++ s :: rest -> 0 <= t < s ->
      exists l', l' ∈ ls /\ (pre ++ [t]) `prefix_of` l'.
Proof. apply (Label_no_gaps 2 [1; 1; 1; 1; 1]). lia. Defined.

(** X6. For [base >= 2], among items whose labels differ in the last symbol
    only, the symbols follow the frequencies: the smaller last symbol
    belongs to an item whose frequency is no higher. [combine] gives the
    sibling indices [0, 1, ...] to the nodes in the order in which the heap
    yields them. *)
Theorem Label_sibling_order (base : Z) (freqs : list Z) :
  2 <= base ->
  exists ls, Label base freqs = Ok ls /\
    forall i j fi fj pre s t,
      freqs !! i = Some fi -> freqs !! j = Some fj ->
      ls !! i = Some (pre ++ [s]) -> ls !! j = Some (pre ++ [t]) ->
      s <= t -> fi <= fj.
Proof.
  intros Hbase.
  destruct (freqs_cases freqs) as [->|[[f ->]|HC]].
  - exists []. split; [by apply Label_nil|]. intros i j fi fj pre s t Hi. done.
  - exists [[0]]. split; [by apply Label_single|].
    intros [|i] [|j] fi fj pre s t Hi Hj; try done.
    cbn in Hi, Hj. simplify_eq. lia.
  - destruct (Label_spec base freqs Hbase HC sib_sorted)
      as (st & q & paths & _ & Hinv & Hs & Hone & Hnext & _ & Hpaths & HL).
    { intros st cs st' Hi Hs _ Hc. by eapply sib_sorted_step. }
    { intros h0 _ _. apply sib_sorted_init. }
    exists (@rev Z <$> paths). split; [done|].
    intros i j fi fj pre s t Hfi Hfj Ha Hb Hst.
    destruct (Label_lookup freqs st paths _ i _ Hpaths eq_refl Ha)
      as (li & Hi & Hcli & Eli).
    destruct (Label_lookup freqs st paths _ j _ Hpaths eq_refl Hb)
      as (lj & Hj & Hclj & Elj).
    apply (f_equal (@rev Z)) in Eli, Elj.
    rewrite rev_involutive, rev_app_distr in Eli, Elj. cbn in Eli, Elj.
    subst li lj.
    pose proof (inv_next_lo _ _ _ Hinv) as Hlo.
    inversion Hcli as [|? pi ? Hpi Hcpi]; subst.
    inversion Hclj as [|? pj ? Hpj Hcpj]; subst.
    destruct (inv_links _ _ _ Hinv i ltac:(lia) ltac:(lia)) as (p1 & Hp1 & Hr1 & _).
    destruct (inv_links _ _ _ Hinv j ltac:(lia) ltac:(lia)) as (p2 & Hp2 & Hr2 & _).
    assert (pi = pj) as <-.
    { apply (climbs_inj base freqs st pi pj (rev pre)); (done || lia). }
    pose proof (Hs i j pi ltac:(lia) ltac:(lia) Hpi Hpj Hst) as Hw.
    unfold wt in Hw.
    by rewrite (inv_leaf _ _ _ Hinv i fi Hfi), (inv_leaf _ _ _ Hinv j fj Hfj) in Hw.
Qed.

Lemma Label_sibling_order_witness :
  exists ls, Label 4 [5; 4; 3; 2; 1] = Ok ls /\
    forall i j fi fj pre s t,
      [5; 4; 3; 2; 1] !! i = Some fi -> [5; 4; 3; 2; 1] !! j = Some fj ->
      ls !! i = Some (pre ++ [s]) -> ls !! j = Some (pre ++ [t]) ->
      s <= t -> fi <= fj.
Proof. apply (Label_sibling_order 4 [5; 4; 3; 2; 1]). lia. Defined.

(** ** The tree builder *)

(** X7. For [base >= 2] and [C >= 2] items, [combine] is called exactly
    [(C - 2) / (base - 1) + 1] times and creates as many parents; of the
    [(C - 1) / (base - 1) + 1] slots that [numIters] reserves for parents,
    one stays unused when [base - 1] divides [C - 1] and none otherwise. *)
Theorem combine_call_count (base : Z) (freqs : list Z) :
  2 <= base -> (2 <= length freqs)%nat ->
  let C := Z.of_nat (length freqs) in
  let made := (C - 2) / (base - 1) + 1 in
  exists st calls,
    build base freqs = Ok (st, calls) /\
    Z.of_nat (length calls) = made /\
    Z.of_nat (nextNodeIdx st) = C + made /\
    Z.of_nat (length (nodes st)) - Z.of_nat (nextNodeIdx st)
    = if decide ((C - 1) mod (base - 1) = 0) then 1 else 0.
Proof.
  intros Hbase HC C made.
  destruct (calls_exact base freqs Hbase HC)
    as (st & q & paths & Hbuild & Hinv & _ & Hnext & Hlen & _ & _ & Hq).
  eexists st, _. split; [exact Hbuild|].
  split; [cbn; rewrite length_replicate; unfold made, C; lia|].
  split; [unfold made, C; lia|].
  rewrite Hlen, Hnext. unfold numNodes, numIters.
  rewrite Z.quot_div_nonneg by lia. fold C in Hq |- *.
  assert (2 <= C) as HC' by (unfold C; lia).
  pose proof (Z.div_mod (C - 2) (base - 1) ltac:(lia)) as H2.
  pose proof (Z.mod_pos_bound (C - 2) (base - 1) ltac:(lia)) as H2'.
  pose proof (Z.div_mod (C - 1) (base - 1) ltac:(lia)) as H1.
  pose proof (Z.mod_pos_bound (C - 1) (base - 1) ltac:(lia)) as H1'.
  case_decide; nia.
Qed.

Lemma combine_call_count_witness :
  let C := Z.of_nat (length [5; 4; 3; 2; 1]) in
  let made := (C - 2) / (4 - 1) + 1 in
  exists st calls,
    build 4 [5; 4; 3; 2; 1] = Ok (st, calls) /\
    Z.of_nat (length calls) = made /\
    Z.of_nat (nextNodeIdx st) = C + made /\
    Z.of_nat (length (nodes st)) - Z.of_nat (nextNodeIdx st)
    = if decide ((C - 1) mod (4 - 1) = 0) then 1 else 0.
Proof. apply (combine_call_count 4 [5; 4; 3; 2; 1]); cbn; lia. Defined.

(** X8. For [base >= 2] and [C >= 2] items, the [TotalHops] of the root,
    which [Label] hands to [make] as the capacity of [labelData], is
    [C + (C - 2) / (base - 1)]: the number of nodes of the tree other than
    the root. *)
Theorem root_total_hops (base : Z) (freqs : list Z) :
  2 <= base -> (2 <= length freqs)%nat ->
  exists st calls root,
    build base freqs = Ok (st, calls) /\ nodeHeap st = [root] /\
    TotalHops (nodes st !!! root)
    = Z.of_nat (length freqs) + (Z.of_nat (length freqs) - 2) / (base - 1).
Proof.
  intros Hbase HC.
  destruct (build_spec base freqs Hbase
              (fun st => count_inv base freqs st /\ hops_inv st))
    as (st & q & Hbuild & Hinv & [Hn Hh] & Hone & Hnext & _); [| |done|].
  { intros st cs st' Hi [Hn Hh] _ Hc.
    pose proof (arity_range base freqs Hbase (nextNodeIdx st) HC).
    split; [by eapply count_inv_step|].
    eapply hops_inv_step; [|exact Hi|exact Hh|exact Hc]. lia. }
  { intros h0 Hp _. split; [by apply count_inv_init|by apply hops_inv_init]. }
  destruct (nodeHeap st) as [|root [|??]] eqn:Eh; try done.
  eexists st, _, root. split; [exact Hbuild|]. split; [by rewrite Eh|].
  unfold hops_inv in Hh. rewrite Eh in Hh.
  rewrite fmap_cons, zsum_cons in Hh. change (zsum (hops (nodes st) <$> []))
    with 0 in Hh. unfold hops in Hh.
  unfold count_inv in Hn. rewrite Eh, Hnext in Hn.
  rewrite decide_False in Hn by lia. unfold initial_count in Hn.
  rewrite <- Z.quot_div_nonneg by lia.
  pose proof (Z.quot_rem' (Z.of_nat (length freqs) - 2) (base - 1)) as Hqr.
  cbn [length] in Hh, Hn. nia.
Qed.

Lemma root_total_hops_witness :
  exists st calls root,
    build 2 [1; 1; 1; 1; 1] = Ok (st, calls) /\ nodeHeap st = [root] /\
    TotalHops (nodes st !!! root)
    = Z.of_nat (length [1; 1; 1; 1; 1])
      + (Z.of_nat (length [1; 1; 1; 1; 1]) - 2) / (2 - 1).
Proof. apply (root_total_hops 2 [1; 1; 1; 1; 1]); cbn; lia. Defined.

(** X9. For [base >= 2] and [C >= 2] items, the [Freq] of the root is the
    sum of all frequencies wrapped to 64 bits, whatever overflowed on the
    way; it is the sum itself when that is a 64-bit integer. *)
Theorem root_frequency (base : Z) (freqs : list Z) :
  2 <= base -> (2 <= length freqs)%nat ->
  exists st calls root,
    build base freqs = Ok (st, calls) /\ nodeHeap st = [root] /\
    Freq (nodes st !!! root) = wrap64 (zsum freqs) /\
    (int64 (zsum freqs) -> Freq (nodes st !!! root) = zsum freqs).
Proof.
  intros Hbase HC.
  destruct (build_spec base freqs Hbase (freq_inv freqs))
    as (st & q & Hbuild & Hinv & [Hsum Hfit] & Hone & Hnext & _); [| |done|].
  { intros st cs st' Hi Hf _ Hc.
    pose proof (arity_range base freqs Hbase (nextNodeIdx st) HC).
    eapply freq_inv_step; [|exact Hi|exact Hf|exact Hc]. lia. }
  { intros h0 Hp _. by apply freq_inv_init. }
  pose proof (inv_last _ _ _ Hinv ltac:(lia)) as Hlast.
  destruct (nodeHeap st) as [|root [|??]] eqn:Eh; try done.
  apply list_elem_of_singleton in Hlast.
  eexists st, _, root. split; [exact Hbuild|]. split; [done|].
  rewrite fmap_cons, zsum_cons in Hsum.
  change (zsum (wt (nodes st) <$> [])) with 0 in Hsum.
  rewrite Z.add_0_r in Hsum.
  assert (Freq (nodes st !!! root) = wrap64 (zsum freqs)) as Hroot.
  { apply wrap64_eq; [|done]. apply (Hfit root). lia. }
  split; [done|]. intros Hin. by rewrite Hroot, wrap64_small.
Qed.

Lemma root_frequency_witness :
  exists st calls root,
    build 2 [2 ^ 62; 2 ^ 62; 1] = Ok (st, calls) /\ nodeHeap st = [root] /\
    Freq (nodes st !!! root) = wrap64 (zsum [2 ^ 62; 2 ^ 62; 1]) /\
    (int64 (zsum [2 ^ 62; 2 ^ 62; 1]) ->
     Freq (nodes st !!! root) = zsum [2 ^ 62; 2 ^ 62; 1]).
Proof. apply (root_frequency 2 [2 ^ 62; 2 ^ 62; 1]); cbn; lia. Defined.

Lemma hops_sum_nonneg ns (l : list nat) :
  (forall x, x ∈ l -> 0 <= hops ns x) -> 0 <= zsum (hops ns <$> l).
Proof.
  induction l as [|x l IH]; intros H; [done|].
  rewrite fmap_cons, zsum_cons.
  pose proof (H x ltac:(apply list_elem_of_here)).
  specialize (IH ltac:(intros y Hy; apply H; by apply list_elem_of_further)).
  lia.
Qed.

(** The hop counts of [combine] do not wrap as long as they are not
    negative and their sum plus [numChildren] is below [2^63]. *)
Lemma hops64_exact ns (cs rest : list nat) (h : list nat) (k : Z) :
  int64 k -> h ≡ₚ cs ++ rest ->
  (forall x, x ∈ h -> 0 <= hops ns x) ->
  zsum (hops ns <$> h) + k < 2 ^ 63 ->
  (k <= 0 -> cs = []) ->
  hops64 ns cs k = sum_hops ns 0 cs + k.
Proof.
  intros Hk Hp Hpos Hfit Hnone. unfold hops64, int64 in *.
  destruct (decide (k <= 0)) as [Hle|Hgt].
  { rewrite (Hnone Hle). cbn. apply wrap64_small. lia. }
  assert (forall x, x ∈ rest -> 0 <= hops ns x) as Hrest.
  { intros x Hx. apply Hpos. rewrite Hp. apply elem_of_app. by right. }
  assert (forall x, x ∈ cs -> 0 <= hops ns x) as Hcs.
  { intros x Hx. apply Hpos. rewrite Hp. apply elem_of_app. by left. }
  pose proof (hops_sum_nonneg ns rest Hrest) as Hr0.
  rewrite Hp, fmap_app, zsum_app in Hfit.
  assert (forall a, 0 <= a -> a + zsum (hops ns <$> cs) + k < 2 ^ 63 ->
            foldl (fun a c => wrap64 (a + TotalHops (ns !!! c))) a cs
            = sum_hops ns a cs /\ 0 <= sum_hops ns a cs) as Hsum.
  { clear Hp Hfit Hnone. revert Hcs. unfold sum_hops.
    induction cs as [|c cs IH]; intros Hcs a Ha Hlt; [done|].
    rewrite fmap_cons, zsum_cons in Hlt. cbn [foldl].
    pose proof (Hcs c ltac:(apply list_elem_of_here)) as Hc. unfold hops in Hc.
    assert (0 <= zsum (hops ns <$> cs)) as Hcs0.
    { apply hops_sum_nonneg. intros x Hx.
      by apply Hcs, list_elem_of_further. }
    unfold hops in Hlt at 1. rewrite wrap64_small by lia.
    apply IH; [|lia|lia].
    intros x Hx. by apply Hcs, list_elem_of_further. }
  destruct (Hsum 0 ltac:(lia) ltac:(lia)) as [-> Hnn].
  rewrite sum_hops_zsum in Hnn |- *. apply wrap64_small. lia.
Qed.

(** X10. One call [combine(k)] on a state whose heap is in heap order and
    holds distinct pointers to nodes created so far, with hop counts that
    are not negative and whose sum plus [k] is below [2^63], for an [int]
    [k]. With a free slot in the pool it pops [min(k, len(nodeHeap))] nodes
    (none for [k <= 0]), each no heavier than any node left in the heap, in
    order of non-decreasing frequency; it links them to the new parent with
    sibling indices [0, 1, ...], writes the parent with the wrapped sum of
    their frequencies and with the sum of their hop counts plus [k], which
    no 64-bit addition of the loop wraps, touches no other node, and leaves
    a heap of the remaining nodes and the parent. With no free slot it
    panics with an index out of range. *)
Theorem combine_takes_lightest (k : Z) (st : state) :
  in_pool (nodes st) (nodeHeap st) -> is_heap (nodes st) (nodeHeap st) ->
  NoDup (nodeHeap st) ->
  (forall x, x ∈ nodeHeap st -> (x < nextNodeIdx st)%nat) ->
  int64 k ->
  (forall x, x ∈ nodeHeap st -> 0 <= TotalHops (nodes st !!! x)) ->
  zsum ((fun x => TotalHops (nodes st !!! x)) <$> nodeHeap st) + k < 2 ^ 63 ->
  if decide (nextNodeIdx st < length (nodes st))%nat then
    exists cs rest st',
      combine k st = Ok (st', mkCombined k (Z.of_nat (length cs))) /\
      length cs = Nat.min (Z.to_nat k) (length (nodeHeap st)) /\
      nodeHeap st ≡ₚ cs ++ rest /\
      nodeHeap st' ≡ₚ nextNodeIdx st :: rest /\
      is_heap (nodes st') (nodeHeap st') /\
      nextNodeIdx st' = S (nextNodeIdx st) /\
      length (nodes st') = length (nodes st) /\
      (forall c x, c ∈ cs -> x ∈ rest ->
         Freq (nodes st !!! c) <= Freq (nodes st !!! x)) /\
      (forall j1 j2 c1 c2, (j1 <= j2)%nat ->
         cs !! j1 = Some c1 -> cs !! j2 = Some c2 ->
         Freq (nodes st !!! c1) <= Freq (nodes st !!! c2)) /\
      (forall j c, cs !! j = Some c ->
         nodes st' !! c
         = Some (mkNode (Z.of_nat (nextNodeIdx st)) (Z.of_nat j)
                   (TotalHops (nodes st !!! c)) (Freq (nodes st !!! c)))) /\
      nodes st' !! nextNodeIdx st
      = Some (mkNode (-1) (-1)
                (foldl (fun a c => a + TotalHops (nodes st !!! c)) 0 cs + k)
                (foldl (fun a c => wrap64 (a + Freq (nodes st !!! c))) 0 cs)) /\
      hops64 (nodes st) cs k
      = foldl (fun a c => a + TotalHops (nodes st !!! c)) 0 cs + k /\
      (forall p, p ∉ cs -> p <> nextNodeIdx st ->
         nodes st' !! p = nodes st !! p)
  else combine k st = Err IndexOutOfRange.
Proof.
  intros Hv Hheap Hnd Hlt Hk Hhops Hfit. unfold combine.
  destruct st as [ns h P]. cbn [nodes nodeHeap nextNodeIdx] in *.
  destruct (pop_children_spec P k (length h) ns h 0 0 0 Hv Hheap Hnd ltac:(lia))
    as (cs & h1 & ns1 & Hrun & Hp & Hlen & Hsp & Hother & Hkids & Hheap1
        & Hmin & Hsorted).
  rewrite Hrun, bind_Ok. cbv beta iota zeta.
  rewrite Z.sub_0_r in Hlen. destruct Hsp as [Hl1 Hpay].
  case_decide as Hfree; [|unfold set; by rewrite decide_False by lia].
  assert (forall x, x ∈ cs -> x ∈ h) as Hcsh
    by (intros x Hx; rewrite Hp; apply elem_of_app; by left).
  assert (forall x, x ∈ h1 -> x ∈ h) as Hh1h
    by (intros x Hx; rewrite Hp; apply elem_of_app; by right).
  rewrite set_lt by lia. rewrite bind_Ok.
  set (root := mkNode (-1) (-1) (sum_hops ns 0 cs + k) (sum_freq ns 0 cs)).
  set (ns2 := <[P:=root]> ns1).
  assert (P ∉ h) as HPh by (intros HP; apply Hlt in HP; lia).
  destruct (Push_spec ns2 h1 P) as (h2 & Hpush & Hp2 & Hheap2).
  - unfold in_pool, ns2. rewrite length_insert, Hl1.
    apply Forall_forall. intros x Hx. eapply in_pool_elem; [exact Hv|auto].
  - unfold ns2. rewrite length_insert. lia.
  - apply (is_heap_ext ns1); [|done].
    intros x Hx. unfold wt, ns2. rewrite list_lookup_total_insert_ne; [done|].
    intros ->. auto.
  - rewrite Hpush, bind_Ok. exists cs, h1, (mkState ns2 h2 (S P)).
    cbn [nodes nodeHeap nextNodeIdx].
    split; [by rewrite Z.add_0_l|]. split; [done|]. split; [done|].
    split; [done|]. split; [done|]. split; [done|].
    split; [unfold ns2; by rewrite length_insert|].
    split; [exact Hmin|]. split; [exact Hsorted|].
    split; [|split; [|split]].
    + intros j c Hj. unfold ns2. rewrite list_lookup_insert_ne.
      * rewrite (Hkids j c Hj). by rewrite Z.add_0_l.
      * intros ->. apply HPh, Hcsh. by eapply list_elem_of_lookup_2.
    + unfold ns2. rewrite list_lookup_insert_eq by lia. done.
    + apply (hops64_exact ns cs h1 h k Hk Hp Hhops Hfit).
      intros Hle. apply length_zero_iff_nil. lia.
    + intros p Hpcs HpP. unfold ns2. rewrite list_lookup_insert_ne by done.
      by apply Hother.
Qed.

Lemma combine_takes_lightest_witness :
  exists cs rest st',
    combine 2 sample_state = Ok (st', mkCombined 2 (Z.of_nat (length cs))) /\
    length cs = Nat.min (Z.to_nat 2) (length (nodeHeap sample_state)) /\
    nodeHeap sample_state ≡ₚ cs ++ rest /\
    nodeHeap st' ≡ₚ nextNodeIdx sample_state :: rest /\
    is_heap (nodes st') (nodeHeap st') /\
    nextNodeIdx st' = S (nextNodeIdx sample_state) /\
    length (nodes st') = length (nodes sample_state) /\
    (forall c x, c ∈ cs -> x ∈ rest ->
       Freq (nodes sample_state !!! c) <= Freq (nodes sample_state !!! x)) /\
    (forall j1 j2 c1 c2, (j1 <= j2)%nat ->
       cs !! j1 = Some c1 -> cs !! j2 = Some c2 ->
       Freq (nodes sample_state !!! c1) <= Freq (nodes sample_state !!! c2)) /\
    (forall j c, cs !! j = Some c ->
       nodes st' !! c
       = Some (mkNode (Z.of_nat (nextNodeIdx sample_state)) (Z.of_nat j)
                 (TotalHops (nodes sample_state !!! c)) (Freq (nodes sample_state !!! c)))) /\
    nodes st' !! nextNodeIdx sample_state
    = Some (mkNode (-1) (-1)
              (foldl (fun a c => a + TotalHops (nodes sample_state !!! c)) 0 cs + 2)
              (foldl (fun a c => wrap64 (a + Freq (nodes sample_state !!! c))) 0 cs)) /\
    hops64 (nodes sample_state) cs 2
    = foldl (fun a c => a + TotalHops (nodes sample_state !!! c)) 0 cs + 2 /\
    (forall p, p ∉ cs -> p <> nextNodeIdx sample_state ->
       nodes st' !! p = nodes sample_state !! p).
Proof.
  apply (combine_takes_lightest 2 sample_state).
  - unfold in_pool. cbn. repeat constructor.
  - intros k c Hc Hcn. cbn in Hcn.
    assert (k = 0%nat) as -> by lia.
    destruct Hc as [-> | ->]; vm_compute; discriminate.
  - cbn. apply (bool_decide_unpack _). vm_compute. reflexivity.
  - intros x Hx. cbn in Hx |- *. rewrite !elem_of_cons in Hx.
    destruct Hx as [->|[->|[->|Hx]]]; [lia | lia | lia |].
    by apply elem_of_nil in Hx.
  - unfold int64. lia.
  - intros x Hx. cbn in Hx. rewrite !elem_of_cons in Hx.
    destruct Hx as [->|[->|[->|Hx]]]; [done | done | done |].
    by apply elem_of_nil in Hx.
  - vm_compute. reflexivity.
Defined.

(** ** [container/heap] on a [nodeHeap] *)

(** X11. [heap.Init] on pointers into the pool returns a permutation of
    them in heap order; on a slice that it has put into heap order it
    changes nothing. *)
Theorem heap_Init_heapifies (ns : list node) (h : list nat) :
  in_pool ns h ->
  exists h', heap.Init ns h = Ok h' /\ h' ≡ₚ h /\ is_heap ns h' /\
             heap.Init ns h' = Ok h'.
Proof.
  intros Hv. destruct (Init_spec ns h Hv) as (h' & HI & Hp & Hheap).
  exists h'. split; [done|]. split; [done|]. split; [done|].
  unfold heap.Init, nodeHeap.Len. apply heapify_ordered; [done| |done].
  eapply in_pool_perm; [symmetry; exact Hp | done].
Qed.

Lemma heap_Init_heapifies_witness :
  exists h', heap.Init [leaf 3; leaf 1; leaf 2] [0; 1; 2]%nat = Ok h' /\
    h' ≡ₚ [0; 1; 2]%nat /\ is_heap [leaf 3; leaf 1; leaf 2] h' /\
    heap.Init [leaf 3; leaf 1; leaf 2] h' = Ok h'.
Proof.
  apply (heap_Init_heapifies [leaf 3; leaf 1; leaf 2] [0; 1; 2]%nat).
  unfold in_pool. repeat constructor.
Defined.

(** X12. [heap.Pop] on a heap in heap order returns the pointer at the
    root, whose frequency is the least in the heap, and leaves the other
    pointers in heap order; on an empty heap it panics with an index out of
    range. *)
Theorem heap_Pop_least (ns : list node) (h : list nat) :
  in_pool ns h -> is_heap ns h ->
  match h with
  | [] => heap.Pop ns h = Err IndexOutOfRange
  | root :: _ =>
      exists h', heap.Pop ns h = Ok (h', root) /\
        h ≡ₚ root :: h' /\ is_heap ns h' /\
        forall y, y ∈ h -> Freq (ns !!! root) <= Freq (ns !!! y)
  end.
Proof.
  intros Hv Hheap. destruct h as [|root t] eqn:Eh; [done|]. rewrite <- Eh in *.
  destruct (Pop_spec ns h Hv Hheap) as (h' & HP & Hp & Hheap');
    [rewrite Eh; cbn; lia|].
  assert (h !!! 0%nat = root) as Hr by (by rewrite Eh).
  rewrite Hr in HP, Hp. exists h'. split; [done|]. split; [done|].
  split; [done|]. intros y Hy.
  pose proof (heap_root_least ns h y Hheap Hy) as Hmin.
  by rewrite Hr in Hmin.
Qed.

Lemma heap_Pop_least_witness :
  exists h', heap.Pop [leaf 3; leaf 1; leaf 2] [1; 0; 2]%nat = Ok (h', 1%nat) /\
    [1; 0; 2]%nat ≡ₚ 1%nat :: h' /\ is_heap [leaf 3; leaf 1; leaf 2] h' /\
    forall y, y ∈ [1; 0; 2]%nat ->
      Freq ([leaf 3; leaf 1; leaf 2] !!! 1%nat)
      <= Freq ([leaf 3; leaf 1; leaf 2] !!! y).
Proof.
  apply (heap_Pop_least [leaf 3; leaf 1; leaf 2] [1; 0; 2]%nat).
  - unfold in_pool. repeat constructor.
  - intros k c Hc Hcn. cbn in Hcn.
    assert (k = 0%nat) as -> by lia.
    destruct Hc as [-> | ->]; vm_compute; discriminate.
Defined.

(** X13. [heap.Push] on a heap in heap order adds the pointer and leaves
    the heap in heap order, a node of least frequency at the root. *)
Theorem heap_Push_keeps_heap (ns : list node) (h : list nat) (x : nat) :
  in_pool ns h -> (x < length ns)%nat -> is_heap ns h ->
  exists h', heap.Push ns h x = Ok h' /\ h' ≡ₚ x :: h /\ is_heap ns h' /\
    forall y, y ∈ x :: h ->
      Freq (ns !!! (h' !!! 0%nat)) <= Freq (ns !!! y).
Proof.
  intros Hv Hx Hheap.
  destruct (Push_spec ns h x Hv Hx Hheap) as (h' & HP & Hp & Hheap').
  exists h'. split; [done|]. split; [done|]. split; [done|].
  intros y Hy. apply (heap_root_least ns h' y Hheap'). by rewrite Hp.
Qed.

Lemma heap_Push_keeps_heap_witness :
  exists h', heap.Push [leaf 3; leaf 1; leaf 2] [2; 0]%nat 1 = Ok h' /\
    h' ≡ₚ 1%nat :: [2; 0]%nat /\ is_heap [leaf 3; leaf 1; leaf 2] h' /\
    forall y, y ∈ 1%nat :: [2; 0]%nat ->
      Freq ([leaf 3; leaf 1; leaf 2] !!! (h' !!! 0%nat))
      <= Freq ([leaf 3; leaf 1; leaf 2] !!! y).
Proof.
  apply (heap_Push_keeps_heap [leaf 3; leaf 1; leaf 2] [2; 0]%nat 1).
  - unfold in_pool. repeat constructor.
  - cbn. lia.
  - intros k c Hc Hcn. cbn in Hcn.
    assert (k = 0%nat) as -> by lia.
    destruct Hc as [-> | ->]; [vm_compute; discriminate | lia].
Defined.

(** ** The methods of [nodeHeap] *)

(** On indices that are not negative [Less_int] is [nodeHeap.Less]; on a
    negative one it panics. *)
Lemma Less_int_nonneg ns h (i j : Z) :
  0 <= i -> 0 <= j ->
  Less_int ns h i j = nodeHeap.Less ns h (Z.to_nat i) (Z.to_nat j).
Proof.
  intros Hi Hj. unfold Less_int, nodeHeap.Less, getZ.
  destruct (Z.ltb_spec i 0); [lia|]. by destruct (Z.ltb_spec j 0); [lia|].
Qed.

Lemma Less_int_negative ns h (i j : Z) :
  i < 0 \/ j < 0 -> Less_int ns h i j = Err IndexOutOfRange.
Proof.
  intros Hneg. unfold Less_int, getZ.
  destruct (Z.ltb_spec i 0) as [|Hi]; [done|].
  destruct (Z.ltb_spec j 0) as [|Hj]; [|lia].
  unfold get. by destruct (h !! Z.to_nat i).
Qed.

Lemma Less_int_Ok ns h (i j : Z) b :
  Less_int ns h i j = Ok b ->
  0 <= i < Z.of_nat (length h) /\ 0 <= j < Z.of_nat (length h) /\
  nodeHeap.Less ns h (Z.to_nat i) (Z.to_nat j) = Ok b.
Proof.
  intros H.
  destruct (decide (i < 0 \/ j < 0)) as [Hneg|Hpos].
  { by rewrite Less_int_negative in H. }
  rewrite Less_int_nonneg in H by lia.
  destruct (Less_Ok_lt _ _ _ _ _ H). split; [lia|]. split; [lia|done].
Qed.

(** X14. [Less(i, j)], for [int] indices and a heap of pointers into the
    pool, returns exactly when both indices are in [0 .. Len - 1] and panics
    with an index out of range otherwise, on a negative index too; on the
    indices that [container/heap] passes it is the [Less] that the heap is
    modelled on; and where it returns it is a strict weak order:
    irreflexive, transitive, and with a transitive complement. *)
Theorem Less_strict_weak_order (ns : list node) (h : list nat) :
  in_pool ns h ->
  (forall i j : Z,
     (exists b, Less_int ns h i j = Ok b)
     <-> 0 <= i < Z.of_nat (length h) /\ 0 <= j < Z.of_nat (length h)) /\
  (forall i j : Z,
     ~ (0 <= i < Z.of_nat (length h) /\ 0 <= j < Z.of_nat (length h)) ->
     Less_int ns h i j = Err IndexOutOfRange) /\
  (forall i j : nat,
     Less_int ns h (Z.of_nat i) (Z.of_nat j) = nodeHeap.Less ns h i j) /\
  (forall i : Z, 0 <= i < Z.of_nat (length h) ->
     Less_int ns h i i = Ok false) /\
  (forall i j k : Z, Less_int ns h i j = Ok true ->
                     Less_int ns h j k = Ok true ->
                     Less_int ns h i k = Ok true) /\
  (forall i j k : Z, Less_int ns h i j = Ok false ->
                     Less_int ns h j k = Ok false ->
                     Less_int ns h i k = Ok false).
Proof.
  intros Hv.
  assert (forall i j : Z,
            0 <= i < Z.of_nat (length h) -> 0 <= j < Z.of_nat (length h) ->
            Less_int ns h i j
            = Ok (key ns h (Z.to_nat i) <? key ns h (Z.to_nat j))) as Hin.
  { intros i j Hi Hj. rewrite Less_int_nonneg by lia.
    apply Less_ok; [done | lia | lia]. }
  split; [|split; [|split; [|split; [|split]]]].
  - intros i j. split.
    + intros [b Hb]. destruct (Less_int_Ok _ _ _ _ _ Hb) as (Hi & Hj & _).
      by split.
    + intros [Hi Hj]. eexists. by apply Hin.
  - intros i j Hout.
    destruct (decide (i < 0 \/ j < 0)) as [Hneg|Hpos];
      [by apply Less_int_negative|].
    rewrite Less_int_nonneg by lia. unfold nodeHeap.Less, get.
    destruct (h !! Z.to_nat i) as [pi|] eqn:Ei; [|done].
    apply lookup_lt_Some in Ei. rewrite bind_Ok.
    destruct (h !! Z.to_nat j) as [pj|] eqn:Ej; [|done].
    apply lookup_lt_Some in Ej. lia.
  - intros i j. rewrite Less_int_nonneg by lia. by rewrite !Nat2Z.id.
  - intros i Hi. rewrite Hin by done. f_equal. apply Z.ltb_irrefl.
  - intros i j k Hij Hjk.
    destruct (Less_int_Ok _ _ _ _ _ Hij) as (Hi & Hj & _).
    destruct (Less_int_Ok _ _ _ _ _ Hjk) as (_ & Hk & _).
    rewrite Hin in Hij, Hjk |- * by done. f_equal.
    injection Hij as Hij. injection Hjk as Hjk. lia.
  - intros i j k Hij Hjk.
    destruct (Less_int_Ok _ _ _ _ _ Hij) as (Hi & Hj & _).
    destruct (Less_int_Ok _ _ _ _ _ Hjk) as (_ & Hk & _).
    rewrite Hin in Hij, Hjk |- * by done. f_equal.
    injection Hij as Hij. injection Hjk as Hjk. lia.
Qed.

Lemma Less_strict_weak_order_witness :
  (forall i j : Z,
     (exists b, Less_int [leaf 3; leaf 1; leaf 2] [0; 1; 2]%nat i j = Ok b)
     <-> 0 <= i < 3 /\ 0 <= j < 3) /\
  (forall i j : Z,
     ~ (0 <= i < 3 /\ 0 <= j < 3) ->
     Less_int [leaf 3; leaf 1; leaf 2] [0; 1; 2]%nat i j
     = Err IndexOutOfRange) /\
  (forall i j : nat,
     Less_int [leaf 3; leaf 1; leaf 2] [0; 1; 2]%nat (Z.of_nat i) (Z.of_nat j)
     = nodeHeap.Less [leaf 3; leaf 1; leaf 2] [0; 1; 2]%nat i j) /\
  (forall i : Z, 0 <= i < 3 ->
     Less_int [leaf 3; leaf 1; leaf 2] [0; 1; 2]%nat i i = Ok false) /\
  (forall i j k : Z,
     Less_int [leaf 3; leaf 1; leaf 2] [0; 1; 2]%nat i j = Ok true ->
     Less_int [leaf 3; leaf 1; leaf 2] [0; 1; 2]%nat j k = Ok true ->
     Less_int [leaf 3; leaf 1; leaf 2] [0; 1; 2]%nat i k = Ok true) /\
  (forall i j k : Z,
     Less_int [leaf 3; leaf 1; leaf 2] [0; 1; 2]%nat i j = Ok false ->
     Less_int [leaf 3; leaf 1; leaf 2] [0; 1; 2]%nat j k = Ok false ->
     Less_int [leaf 3; leaf 1; leaf 2] [0; 1; 2]%nat i k = Ok false).
Proof.
  apply (Less_strict_weak_order [leaf 3; leaf 1; leaf 2] [0; 1; 2]%nat).
  unfold in_pool. repeat constructor.
Defined.

(** X15. The method [Pop] undoes the method [Push]: after [Push(e)], [Pop]
    returns [e] and leaves the slice as it was; [Pop] panics on the empty
    slice and on no other; and pushing back what [Pop] returned restores
    the slice. *)
Theorem nodeHeap_Push_Pop (h : list nat) (e : nat) :
  nodeHeap.Pop (nodeHeap.Push h e) = Ok (h, e) /\
  (nodeHeap.Pop h = Err IndexOutOfRange <-> h = []) /\
  (forall h' v, nodeHeap.Pop h = Ok (h', v) -> nodeHeap.Push h' v = h).
Proof.
  unfold nodeHeap.Pop, nodeHeap.Push. split; [|split].
  - rewrite length_app. cbn [length]. rewrite Nat.add_1_r.
    unfold get. rewrite lookup_app_r by lia. rewrite Nat.sub_diag. cbn.
    by rewrite take_app_length.
  - destruct h as [|x h] using rev_ind; [done|].
    rewrite length_app. cbn [length]. rewrite Nat.add_1_r.
    unfold get. rewrite lookup_app_r by lia. rewrite Nat.sub_diag. cbn.
    split; [done|]. intros Heq. by destruct h.
  - intros h' v. destruct h as [|x h _] using rev_ind; [done|].
    rewrite length_app. cbn [length]. rewrite Nat.add_1_r.
    unfold get. rewrite lookup_app_r by lia. rewrite Nat.sub_diag. cbn.
    rewrite take_app_length. by intros [= <- <-].
Qed.

(** X16. [Swap(i, j)], when it returns, has exchanged the entries at [i]
    and [j] and nothing else, and a second [Swap(i, j)] restores the
    slice. *)
Theorem nodeHeap_Swap_twice (h h' : list nat) (i j : nat) :
  nodeHeap.Swap h i j = Ok h' ->
  h' ≡ₚ h /\ h' !! i = h !! j /\ h' !! j = h !! i /\
  (forall k, k <> i -> k <> j -> h' !! k = h !! k) /\
  nodeHeap.Swap h' i j = Ok h.
Proof.
  intros H. assert (i < length h /\ j < length h)%nat as [Hi Hj].
  { unfold nodeHeap.Swap in H.
    apply bind_Ok_inv in H as (pi & Hpi & H).
    apply bind_Ok_inv in H as (pj & Hpj & _).
    split; by eapply get_Ok_lt. }
  rewrite Swap_ok in H by done. injection H as <-.
  split; [by apply swapped_perm|].
  assert (swapped h i j !! i = h !! j) as Hli.
  { rewrite (list_lookup_lookup_total_lt (swapped h i j))
      by (by rewrite swapped_length).
    rewrite swapped_lookup by done. rewrite (list_lookup_lookup_total_lt h j Hj).
    f_equal. repeat case_decide; congruence. }
  assert (swapped h i j !! j = h !! i) as Hlj.
  { rewrite (list_lookup_lookup_total_lt (swapped h i j))
      by (by rewrite swapped_length).
    rewrite swapped_lookup by done. rewrite (list_lookup_lookup_total_lt h i Hi).
    f_equal. by rewrite decide_True. }
  split; [done|]. split; [done|].
  split; [intros k Hki Hkj; by apply swapped_lookup_other|].
  rewrite Swap_ok by (by rewrite swapped_length). f_equal.
  apply list_eq. intros k.
  destruct (decide (k = j)) as [->|Hkj].
  - rewrite (list_lookup_lookup_total_lt (swapped _ i j))
      by (by rewrite !swapped_length).
    rewrite swapped_lookup by (by rewrite swapped_length).
    rewrite decide_True by done.
    rewrite (list_lookup_total_correct _ _ _
               (eq_trans Hli (list_lookup_lookup_total_lt h j Hj))).
    by rewrite (list_lookup_lookup_total_lt h j Hj).
  - destruct (decide (k = i)) as [->|Hki].
    + rewrite (list_lookup_lookup_total_lt (swapped _ i j))
        by (by rewrite !swapped_length).
      rewrite swapped_lookup by (by rewrite swapped_length).
      rewrite decide_False by done. rewrite decide_True by done.
      rewrite (list_lookup_total_correct _ _ _
                 (eq_trans Hlj (list_lookup_lookup_total_lt h i Hi))).
      by rewrite (list_lookup_lookup_total_lt h i Hi).
    + rewrite !swapped_lookup_other by done. done.
Qed.

Lemma nodeHeap_Swap_twice_witness :
  [2; 1; 0]%nat ≡ₚ [0; 1; 2]%nat /\
  [2; 1; 0]%nat !! 0%nat = [0; 1; 2]%nat !! 2%nat /\
  [2; 1; 0]%nat !! 2%nat = [0; 1; 2]%nat !! 0%nat /\
  (forall k, k <> 0%nat -> k <> 2%nat ->
     [2; 1; 0]%nat !! k = [0; 1; 2]%nat !! k) /\
  nodeHeap.Swap [2; 1; 0]%nat 0 2 = Ok [0; 1; 2]%nat.
Proof. apply (nodeHeap_Swap_twice [0; 1; 2]%nat [2; 1; 0]%nat 0 2). reflexivity. Defined.

(** * The labels are optimal

    For frequencies that are not negative and do not overflow, no
    prefix-free code over the same alphabet has a lower weighted length
    than the labels of [Label]. A prefix-free code satisfies Kraft's
    inequality; one step of the exchange argument turns lengths that
    satisfy it for the nodes in the heap into lengths for the nodes left
    after a call of [combine]; and the weighted length of the labels is the
    sum of the frequencies of the parents. *)

(** ** Sums *)

Lemma zsum_fmap_add {A} (f g : A -> Z) (l : list A) :
  zsum ((fun x => f x + g x) <$> l) = zsum (f <$> l) + zsum (g <$> l).
Proof.
  induction l as [|x l IH]; [done|].
  rewrite !fmap_cons, !zsum_cons, IH. lia.
Qed.

Lemma zsum_fmap_const {A} (c : Z) (l : list A) :
  zsum ((fun _ => c) <$> l) = Z.of_nat (length l) * c.
Proof.
  induction l as [|x l IH]; [done|].
  rewrite fmap_cons, zsum_cons, IH. cbn [length]. lia.
Qed.

Lemma zsum_fmap_le {A} (f g : A -> Z) (l : list A) :
  (forall x, x ∈ l -> f x <= g x) -> zsum (f <$> l) <= zsum (g <$> l).
Proof.
  induction l as [|x l IH]; intros H; [done|].
  rewrite !fmap_cons, !zsum_cons.
  pose proof (H x ltac:(apply list_elem_of_here)).
  specialize (IH ltac:(intros y Hy; apply H; by apply list_elem_of_further)).
  lia.
Qed.

Lemma zsum_fmap_ext {A} (f g : A -> Z) (l : list A) :
  (forall x, x ∈ l -> f x = g x) -> zsum (f <$> l) = zsum (g <$> l).
Proof.
  induction l as [|x l IH]; intros H; [done|].
  rewrite !fmap_cons, !zsum_cons.
  rewrite (H x ltac:(apply list_elem_of_here)).
  by rewrite IH by (intros y Hy; apply H; by apply list_elem_of_further).
Qed.

Lemma zsum_fmap_scale {A} (c : Z) (f : A -> Z) (l : list A) :
  zsum ((fun x => f x * c) <$> l) = zsum (f <$> l) * c.
Proof.
  induction l as [|x l IH]; [done|].
  rewrite !fmap_cons, !zsum_cons, IH. lia.
Qed.

Lemma zsum_indicator (x v : Z) (l : list Z) :
  NoDup l ->
  zsum ((fun s => if decide (x = s) then v else 0) <$> l)
  = if decide (x ∈ l) then v else 0.
Proof.
  induction 1 as [|y l Hy Hnd IH]; [done|].
  rewrite fmap_cons, zsum_cons, IH.
  destruct (decide (x = y)) as [->|Hxy].
  - rewrite (decide_False (P := y ∈ l)) by done.
    rewrite decide_True by apply list_elem_of_here. lia.
  - destruct (decide (x ∈ l)) as [Hin|Hin].
    + rewrite decide_True by (by apply list_elem_of_further). lia.
    + rewrite decide_False; [lia|]. rewrite elem_of_cons. tauto.
Qed.

Lemma zsum_insert (l : list Z) i x y :
  l !! i = Some x -> zsum (<[i:=y]> l) = zsum l + y - x.
Proof.
  revert i. induction l as [|z l IH]; intros [|i] Hi; try done.
  - cbn in Hi. simplify_eq. cbn. rewrite !zsum_cons. lia.
  - cbn in Hi. change (<[S i:=y]> (z :: l)) with (z :: <[i:=y]> l).
    rewrite !zsum_cons, (IH i Hi). lia.
Qed.

Lemma zsum_fmap_insert {A} (f : A -> Z) (l : list A) i x y :
  l !! i = Some x -> zsum (f <$> <[i:=y]> l) = zsum (f <$> l) + f y - f x.
Proof.
  intros Hi. rewrite list_fmap_insert. apply zsum_insert.
  by rewrite list_lookup_fmap, Hi.
Qed.

Lemma zsum_nonneg (l : list Z) : Forall (fun x => 0 <= x) l -> 0 <= zsum l.
Proof.
  induction 1 as [|x l Hx _ IH]; [done|]. rewrite zsum_cons. lia.
Qed.

Lemma zsum_le_app (l1 l2 : list Z) :
  Forall (fun x => 0 <= x) l2 -> zsum l1 <= zsum (l1 ++ l2).
Proof. intros H. rewrite zsum_app. pose proof (zsum_nonneg _ H). lia. Qed.

Lemma abs_nonneg_list (l : list Z) :
  Forall (fun x => 0 <= x) l -> Z.abs <$> l = l.
Proof.
  induction 1 as [|x l Hx _ IH]; [done|].
  rewrite fmap_cons, IH. f_equal. lia.
Qed.

(** ** Kraft's inequality for a prefix-free code *)

Lemma prefix_free_pairwise (code : list (list Z)) :
  (forall i j a b, i <> j -> code !! i = Some a -> code !! j = Some b ->
     ~ a `prefix_of` b) ->
  pairwise_prefix_free code.
Proof.
  induction code as [|c rest IH]; intros H; [done|]. split.
  - intros d Hd. apply list_elem_of_lookup in Hd as [j Hj].
    split; [apply (H 0%nat (S j)) | apply (H (S j) 0%nat)]; done.
  - apply IH. intros i j a b Hij Ha Hb. by apply (H (S i) (S j)); [lia|..].
Qed.

Lemma elem_of_tails_of s t code :
  t ∈ tails_of s code <-> (s :: t) ∈ code.
Proof.
  unfold tails_of. rewrite list_elem_of_omap. split.
  - intros (c & Hc & Hs). destruct c as [|x u]; [done|].
    case_decide; simplify_eq. done.
  - intros Hin. exists (s :: t). split; [done|]. by rewrite decide_True.
Qed.

Lemma pairwise_tails_of s code :
  pairwise_prefix_free code -> pairwise_prefix_free (tails_of s code).
Proof.
  induction code as [|c rest IH]; [done|]. intros [Hc Hrest].
  unfold tails_of. cbn [omap list_omap]. fold (tails_of s rest).
  destruct c as [|x t]; [by apply IH|].
  case_decide as Hx; [|by apply IH]. subst x. split; [|by apply IH].
  intros d Hd. apply elem_of_tails_of in Hd.
  destruct (Hc _ Hd) as [H1 H2].
  split; intros Hp; [apply H1 | apply H2]; by apply prefix_cons.
Qed.

Lemma pairwise_nil_in code :
  pairwise_prefix_free code -> [] ∈ code -> code = [[]].
Proof.
  destruct code as [|c rest]; intros Hpf Hin.
  - by apply elem_of_nil in Hin.
  - destruct Hpf as [Hc _]. destruct c as [|x t].
    + destruct rest as [|d rest]; [done|].
      destruct (Hc d ltac:(apply list_elem_of_here)) as [H _].
      exfalso. apply H. apply prefix_nil.
    + apply elem_of_cons in Hin as [?|Hin]; [done|].
      destruct (Hc [] Hin) as [_ H]. exfalso. apply H. apply prefix_nil.
Qed.

(** The sum of a code without the empty label, split by first symbol. *)
Lemma split_by_head (b : Z) (Hb : 2 <= b) (D : nat) (code : list (list Z)) :
  Forall (fun c => c <> [] /\ Forall (fun s => 0 <= s < b) c) code ->
  Forall (fun c => (length c <= S D)%nat) code ->
  zsum ((fun c => b ^ Z.of_nat (S D - length c)) <$> code)
  = zsum ((fun s => zsum ((fun t => b ^ Z.of_nat (D - length t))
                            <$> tails_of s code)) <$> seqZ 0 b).
Proof.
  induction code as [|c rest IH]; intros Hne Hlen.
  - transitivity (zsum ((fun _ : Z => 0) <$> seqZ 0 b)); [|done].
    rewrite zsum_fmap_const. cbn. rewrite zsum_nil. lia.
  - apply Forall_cons in Hne as [[Hc Hr] Hne].
    apply Forall_cons in Hlen as [Hcl Hlen].
    destruct c as [|x t]; [done|]. apply Forall_cons in Hr as [Hx _].
    rewrite fmap_cons, zsum_cons, (IH Hne Hlen).
    rewrite (zsum_fmap_ext
      (fun s => zsum ((fun t => b ^ Z.of_nat (D - length t))
                        <$> tails_of s ((x :: t) :: rest)))
      (fun s => (if decide (x = s) then b ^ Z.of_nat (D - length t) else 0)
                + zsum ((fun t => b ^ Z.of_nat (D - length t))
                          <$> tails_of s rest))).
    + rewrite zsum_fmap_add, zsum_indicator by apply NoDup_seqZ.
      rewrite decide_True by (apply elem_of_seqZ; lia).
      cbn [length]. by replace (S D - S (length t))%nat with (D - length t)%nat by lia.
    + intros s _. unfold tails_of. cbn [omap list_omap].
      case_decide; [by rewrite fmap_cons, zsum_cons | lia].
Qed.

Lemma kraft_inequality (b : Z) (Hb : 2 <= b) (D : nat) : forall code,
  Forall (fun c => (length c <= D)%nat) code ->
  Forall (Forall (fun s => 0 <= s < b)) code ->
  pairwise_prefix_free code ->
  kraftsum b D (length <$> code) <= b ^ Z.of_nat D.
Proof.
  unfold kraftsum. induction D as [|D IH]; intros code Hlen Hr Hpf.
  - destruct code as [|c [|d rest]]; [done| |].
    + cbn. rewrite zsum_cons, zsum_nil. rewrite Nat.sub_0_l. lia.
    + exfalso. apply Forall_cons in Hlen as [Hc Hlen].
      apply Forall_cons in Hlen as [Hd _].
      destruct c; [|cbn in Hc; lia]. destruct d; [|cbn in Hd; lia].
      destruct Hpf as [H _]. by destruct (H [] ltac:(apply list_elem_of_here)).
  - rewrite <- list_fmap_compose.
    destruct (decide ([] ∈ code)) as [Hnil|Hnil].
    { rewrite (pairwise_nil_in code Hpf Hnil). cbn.
      rewrite zsum_cons, zsum_nil. lia. }
    change ((λ l : nat, b ^ Z.of_nat (S D - l)) ∘ length)
      with (fun c : list Z => b ^ Z.of_nat (S D - length c)).
    rewrite (split_by_head b Hb); [| |done].
    + etrans; [apply (zsum_fmap_le _ (fun _ => b ^ Z.of_nat D))|].
      * intros s _. specialize (IH (tails_of s code)).
        rewrite <- list_fmap_compose in IH. apply IH.
        -- apply Forall_forall. intros t Ht. apply elem_of_tails_of in Ht.
           rewrite Forall_forall in Hlen. specialize (Hlen _ Ht). cbn in Hlen. lia.
        -- apply Forall_forall. intros t Ht. apply elem_of_tails_of in Ht.
           rewrite Forall_forall in Hr. specialize (Hr _ Ht).
           by apply Forall_cons in Hr as [_ ?].
        -- by apply pairwise_tails_of.
      * rewrite zsum_fmap_const, length_seqZ.
        rewrite Nat2Z.inj_succ, Z.pow_succ_r by lia. lia.
    + apply Forall_forall. intros c Hc. split; [by intros ->|].
      rewrite Forall_forall in Hr. by apply Hr.
Qed.

(** ** Weighted lengths *)

Lemma weighted_length_cost freqs code :
  weighted_length freqs code = cost freqs (length <$> code).
Proof. unfold weighted_length, cost. by rewrite zip_with_fmap_r. Qed.

Lemma cost_as_seq (ws : list Z) : forall ls : list nat,
  length ls = length ws ->
  cost ws ls
  = zsum ((fun i => ws !!! i * Z.of_nat (ls !!! i)) <$> seq 0 (length ws)).
Proof.
  unfold cost. induction ws as [|w ws IH]; intros [|l ls] Hlen; try done.
  cbn [zip_with length seq]. rewrite fmap_cons, !zsum_cons.
  rewrite IH by (cbn in Hlen; lia).
  rewrite <- fmap_S_seq, <- list_fmap_compose. done.
Qed.

Lemma cost_app ws1 ws2 ls1 ls2 :
  length ls1 = length ws1 ->
  cost (ws1 ++ ws2) (ls1 ++ ls2) = cost ws1 ls1 + cost ws2 ls2.
Proof.
  intros Hlen. unfold cost. rewrite zip_with_app by done. apply zsum_app.
Qed.

Lemma cost_insert ws ls i w l v :
  ws !! i = Some w -> ls !! i = Some l ->
  cost ws (<[i:=v]> ls) = cost ws ls + w * (Z.of_nat v - Z.of_nat l).
Proof.
  intros Hw Hl. unfold cost.
  rewrite <- (list_insert_id ws i w Hw) at 1.
  rewrite <- insert_zip_with.
  rewrite (zsum_insert _ i (w * Z.of_nat l)); [lia|].
  by rewrite lookup_zip_with, Hw, Hl.
Qed.

Lemma cost_const ws ls L :
  length ls = length ws -> Forall (fun l => l = L) ls ->
  cost ws ls = zsum ws * Z.of_nat L.
Proof.
  revert ls. induction ws as [|w ws IH]; intros [|l ls] Hlen Hall; try done.
  apply Forall_cons in Hall as [-> Hall].
  unfold cost in *. cbn [zip_with]. rewrite !zsum_cons.
  rewrite IH by (done || (cbn in Hlen; lia)). lia.
Qed.

Lemma cost_pairs (w : nat -> Z) (items : list (nat * nat)) :
  cost (w <$> items.*1) items.*2
  = zsum ((fun it => w it.1 * Z.of_nat it.2) <$> items).
Proof.
  unfold cost. induction items as [|[x l] items IH]; [done|].
  cbn [fmap list_fmap zip_with fst snd]. by rewrite !zsum_cons, <- IH.
Qed.

Lemma cost_zip (w : nat -> Z) (h : list nat) (ls : list nat) :
  length ls = length h ->
  zsum ((fun it => w it.1 * Z.of_nat it.2) <$> zip h ls) = cost (w <$> h) ls.
Proof.
  intros Hlen. rewrite <- cost_pairs.
  by rewrite fst_zip, snd_zip by lia.
Qed.

(** ** Kraft sums *)

Lemma kraftsum_nil (b : Z) D : kraftsum b D [] = 0.
Proof. done. Qed.

Lemma kraftsum_cons (b : Z) D l ls :
  kraftsum b D (l :: ls) = b ^ Z.of_nat (D - l) + kraftsum b D ls.
Proof. done. Qed.

Lemma kraftsum_app (b : Z) D ls1 ls2 :
  kraftsum b D (ls1 ++ ls2) = kraftsum b D ls1 + kraftsum b D ls2.
Proof. unfold kraftsum. by rewrite fmap_app, zsum_app. Qed.

#[global] Instance kraftsum_perm (b : Z) D : Proper (Permutation ==> eq) (kraftsum b D).
Proof. intros l1 l2 Hp. unfold kraftsum. by rewrite Hp. Qed.

Lemma kraftsum_S (b : Z) D ls :
  Forall (fun l => (l <= D)%nat) ls -> kraftsum b (S D) ls = b * kraftsum b D ls.
Proof.
  induction 1 as [|l ls Hl _ IH]; [rewrite !kraftsum_nil; lia|].
  rewrite !kraftsum_cons, IH.
  replace (S D - l)%nat with (S (D - l)) by lia.
  rewrite Nat2Z.inj_succ, Z.pow_succ_r by lia. lia.
Qed.

Lemma kraftsum_insert (b : Z) D ls i l v :
  ls !! i = Some l ->
  kraftsum b D (<[i:=v]> ls)
  = kraftsum b D ls + b ^ Z.of_nat (D - v) - b ^ Z.of_nat (D - l).
Proof. intros Hi. unfold kraftsum. by rewrite (zsum_fmap_insert _ _ _ _ _ Hi). Qed.

Lemma kraftsum_const (b : Z) D ls :
  Forall (fun l => l = D) ls -> kraftsum b D ls = Z.of_nat (length ls).
Proof.
  induction 1 as [|l ls -> _ IH]; [done|].
  rewrite kraftsum_cons, IH, Nat.sub_diag. cbn [length]. lia.
Qed.

(** The inequality does not depend on the exponent it is written with. *)
Lemma kraft_shift (b : Z) (Hb : 2 <= b) D ls :
  Forall (fun l => (l <= D)%nat) ls ->
  kraftsum b (S D) ls <= b ^ Z.of_nat (S D) <-> kraftsum b D ls <= b ^ Z.of_nat D.
Proof.
  intros Hle. rewrite kraftsum_S by done.
  rewrite Nat2Z.inj_succ, Z.pow_succ_r by lia. nia.
Qed.

Lemma kraft_shift_many (b : Z) (Hb : 2 <= b) D ls : forall d,
  Forall (fun l => (l <= D)%nat) ls ->
  kraftsum b (D + d) ls <= b ^ Z.of_nat (D + d)
  <-> kraftsum b D ls <= b ^ Z.of_nat D.
Proof.
  induction d as [|d IH]; intros Hle.
  - by rewrite Nat.add_0_r.
  - replace (D + S d)%nat with (S (D + d)) by lia.
    rewrite (kraft_shift b Hb); [by apply IH|].
    eapply Forall_impl; [exact Hle|]. cbn. lia.
Qed.

Lemma kraft_at (b : Z) (Hb : 2 <= b) D ls :
  kraft b ls -> Forall (fun l => (l <= D)%nat) ls ->
  kraftsum b D ls <= b ^ Z.of_nat D.
Proof.
  intros (D0 & Hle0 & HK) Hle.
  destruct (decide (D0 <= D)%nat) as [Hd|Hd].
  - replace D with (D0 + (D - D0))%nat by lia. by apply (kraft_shift_many b Hb).
  - replace D0 with (D + (D0 - D))%nat in HK by lia.
    by apply (kraft_shift_many b Hb) in HK.
Qed.

#[global] Instance kraft_perm (b : Z) : Proper (Permutation ==> iff) (kraft b).
Proof.
  intros l1 l2 Hp. unfold kraft.
  split; intros (D & Hle & HK); exists D.
  - by rewrite <- Hp.
  - by rewrite Hp.
Qed.

(** With two lengths or more, lengths that satisfy the inequality have a
    positive maximum. *)
Lemma kraft_max_pos (b : Z) (Hb : 2 <= b) ls L :
  (2 <= length ls)%nat -> Forall (fun l => (l <= L)%nat) ls ->
  kraftsum b L ls <= b ^ Z.of_nat L -> (1 <= L)%nat.
Proof.
  intros Hn Hle HK. destruct L as [|L]; [|lia]. exfalso.
  assert (Forall (fun l => l = 0%nat) ls) as H0
    by (eapply Forall_impl; [exact Hle|]; cbn; lia).
  rewrite (kraftsum_const b) in HK by done. cbn in HK. lia.
Qed.

(** ** The exchange argument *)

(** Shortening a longest label while there is room: the result costs no
    more and leaves less than [b - 1] of the room unused. *)
Lemma tighten (b : Z) (Hb : 2 <= b) (ws : list Z) : forall (n : nat) (ls : list nat),
  Z.to_nat (zsum (Z.of_nat <$> ls)) = n ->
  length ls = length ws -> (2 <= length ls)%nat ->
  Forall (fun w => 0 <= w) ws -> kraft b ls ->
  exists ls' L,
    length ls' = length ls /\ Forall (fun l => (l <= L)%nat) ls' /\
    L ∈ ls' /\ (1 <= L)%nat /\
    kraftsum b L ls' <= b ^ Z.of_nat L /\
    b ^ Z.of_nat L - kraftsum b L ls' <= b - 2 /\
    cost ws ls' <= cost ws ls.
Proof.
  intros n. induction (lt_wf n) as [n _ IH]. intros ls Hn Hlen H2 Hw HK.
  set (L := max_list ls).
  assert (Forall (fun l => (l <= L)%nat) ls) as Hle
    by (apply Forall_forall; intros l Hl; by apply max_list_elem_of_le).
  assert (L ∈ ls) as HL
    by (apply max_list_elem_of; destruct ls; [cbn in H2; lia | done]).
  pose proof (kraft_at b Hb L ls HK Hle) as HKL.
  pose proof (kraft_max_pos b Hb ls L H2 Hle HKL) as HL1.
  destruct (Z.le_gt_cases (b ^ Z.of_nat L - kraftsum b L ls) (b - 2))
    as [Htight|Hroom].
  { exists ls, L. by repeat split. }
  apply list_elem_of_lookup in HL as [i Hi].
  destruct (lookup_lt_is_Some_2 ws i) as [w Hwi];
    [rewrite <- Hlen; by eapply lookup_lt_Some|].
  assert (0 <= w) as Hw0
    by (rewrite Forall_forall in Hw; apply Hw; by eapply list_elem_of_lookup_2).
  set (ls1 := <[i:=(L - 1)%nat]> ls).
  assert (0 <= zsum (Z.of_nat <$> ls1)) as Hpos.
  { apply zsum_nonneg, Forall_forall. intros x Hx.
    apply list_elem_of_fmap in Hx as (y & -> & _). lia. }
  destruct (IH (Z.to_nat (zsum (Z.of_nat <$> ls1)))) with (ls := ls1)
    as (ls' & L' & Hlen' & Hle' & HL' & HL1' & HK' & Ht' & Hc').
  - unfold ls1 in *. rewrite (zsum_fmap_insert _ _ _ _ _ Hi) in Hpos |- *. lia.
  - done.
  - unfold ls1. by rewrite length_insert.
  - unfold ls1. by rewrite length_insert.
  - done.
  - exists L. split.
    + unfold ls1. apply Forall_insert; [done | lia].
    + unfold ls1. rewrite (kraftsum_insert b _ _ _ _ _ Hi).
      rewrite Nat.sub_diag. replace (L - (L - 1))%nat with 1%nat by lia.
      change (b ^ Z.of_nat 1) with (b ^ 1). change (b ^ Z.of_nat 0) with 1.
      lia.
  - exists ls', L'. unfold ls1 in Hlen'. rewrite length_insert in Hlen'.
    repeat split; try done.
    etrans; [exact Hc'|]. unfold ls1.
    rewrite (cost_insert _ _ _ _ _ _ Hwi Hi). nia.
Qed.

(** Powers of [b] modulo [b - 1] and modulo [b]. *)
Lemma pow_mod_pred (b : Z) (j : nat) : exists q, b ^ Z.of_nat j = 1 + (b - 1) * q.
Proof.
  induction j as [|j [q IH]]; [exists 0; cbn; lia|].
  exists (b * q + 1). rewrite Nat2Z.inj_succ, Z.pow_succ_r, IH by lia. lia.
Qed.

Lemma kraftsum_mod_pred (b : Z) D ls :
  exists Q, kraftsum b D ls = Z.of_nat (length ls) + (b - 1) * Q.
Proof.
  induction ls as [|l ls [Q IH]]; [exists 0; rewrite kraftsum_nil; cbn; lia|].
  destruct (pow_mod_pred b (D - l)) as [q Hq].
  exists (Q + q). rewrite kraftsum_cons, IH, Hq. cbn [length]. lia.
Qed.

Lemma kraftsum_mod_base (b : Z) L ls :
  Forall (fun l => (l <= L)%nat) ls ->
  exists R, kraftsum b L ls = deepest L ls + b * R.
Proof.
  unfold deepest. induction 1 as [|l ls Hl _ [R IH]].
  - exists 0. rewrite kraftsum_nil. cbn. rewrite zsum_nil. lia.
  - rewrite kraftsum_cons, fmap_cons, zsum_cons, IH.
    case_decide as Hd.
    + subst l. exists R. rewrite Nat.sub_diag. cbn. lia.
    + exists (R + b ^ Z.of_nat (L - l - 1)).
      replace (L - l)%nat with (S (L - l - 1)) at 1 by lia.
      rewrite Nat2Z.inj_succ, Z.pow_succ_r by lia. lia.
Qed.

Lemma deepest_shallower L ls :
  deepest L ls + shallower L ls = Z.of_nat (length ls).
Proof.
  unfold deepest, shallower. rewrite <- zsum_fmap_add.
  rewrite (zsum_fmap_ext _ (fun _ => 1)) by (intros; case_decide; lia).
  rewrite zsum_fmap_const. lia.
Qed.

Lemma deepest_app L l1 l2 : deepest L (l1 ++ l2) = deepest L l1 + deepest L l2.
Proof. unfold deepest. by rewrite fmap_app, zsum_app. Qed.

Lemma deepest_pos L ls : 0 < deepest L ls -> exists j, ls !! j = Some L.
Proof.
  unfold deepest. induction ls as [|l ls IH]; intros Hpos.
  - cbn in Hpos. rewrite zsum_nil in Hpos. lia.
  - rewrite fmap_cons, zsum_cons in Hpos. case_decide as Hd.
    + subst. by exists 0%nat.
    + destruct IH as [j Hj]; [lia|]. by exists (S j).
Qed.

Lemma deepest_elem L ls : L ∈ ls -> 1 <= deepest L ls.
Proof.
  unfold deepest. induction ls as [|l ls IH]; intros Hin.
  - by apply elem_of_nil in Hin.
  - rewrite fmap_cons, zsum_cons.
    assert (0 <= zsum ((λ l0 : nat, if decide (l0 = L) then 1 else 0) <$> ls)).
    { apply zsum_nonneg, Forall_forall. intros x Hx.
      apply list_elem_of_fmap in Hx as (y & -> & _). case_decide; lia. }
    apply elem_of_cons in Hin as [<-|Hin].
    + rewrite decide_True by done. lia.
    + specialize (IH Hin). case_decide; lia.
Qed.

Lemma shallower_nonneg L ls : 0 <= shallower L ls.
Proof.
  apply zsum_nonneg, Forall_forall. intros x Hx.
  apply list_elem_of_fmap in Hx as (y & -> & _). case_decide; lia.
Qed.

Lemma shallower_zero L ls : shallower L ls = 0 -> Forall (fun l => l = L) ls.
Proof.
  unfold shallower. induction ls as [|l ls IH]; intros H0; [done|].
  rewrite fmap_cons, zsum_cons in H0.
  pose proof (shallower_nonneg L ls) as Hnn. unfold shallower in Hnn.
  case_decide; [|lia]. constructor; [done|]. apply IH. lia.
Qed.

Lemma shallower_pos L ls :
  0 < shallower L ls -> exists i l, ls !! i = Some l /\ l <> L.
Proof.
  unfold shallower. induction ls as [|l ls IH]; intros Hpos.
  - cbn in Hpos. rewrite zsum_nil in Hpos. lia.
  - rewrite fmap_cons, zsum_cons in Hpos. case_decide as Hd.
    + destruct IH as (i & l' & Hi & Hl'); [lia|]. by exists (S i), l'.
    + by exists 0%nat, l.
Qed.

(** The arithmetic of lengths that leave less than [b - 1] unused: exactly
    [b - k] is unused, and at least [k] lengths are the longest. *)
Lemma tight_counts (b : Z) (Hb : 2 <= b) (n k K P Q R m Q0 R0 : Z) :
  2 <= n -> k = 2 + (n - 2) mod (b - 1) ->
  P = 1 + (b - 1) * Q0 -> P = b * R0 ->
  K = n + (b - 1) * Q -> K = m + b * R ->
  0 <= P - K <= b - 2 -> 1 <= m ->
  P - K = b - k /\ k <= m.
Proof.
  intros Hn Hk HP1 HP2 HK1 HK2 Ht Hm.
  pose proof (Z.div_mod (n - 2) (b - 1) ltac:(lia)) as Hdm.
  pose proof (Z.mod_pos_bound (n - 2) (b - 1) ltac:(lia)) as Hmb.
  set (t := (n - 2) / (b - 1)) in *.
  assert (P - K + k = 1 + (b - 1) * (Q0 - Q - t)) as Hz by lia.
  assert (Q0 - Q - t = 1) as Hz1 by nia.
  assert (P - K = b - k) as Hs by nia.
  split; [done|].
  assert (m = b * (R0 - R - 1) + k) as Hy by lia.
  assert (0 <= R0 - R - 1) by nia. nia.
Qed.

(** Exchanging lengths until the chosen items are the deepest. *)
Lemma deepen (b : Z) (Hb : 2 <= b) (L : nat) (wc wr : list Z) : forall (t : nat) (lc lr : list nat),
  shallower L lc = Z.of_nat t ->
  length lc = length wc -> length lr = length wr ->
  Forall (fun l => (l <= L)%nat) lc -> Forall (fun l => (l <= L)%nat) lr ->
  Z.of_nat (length lc) <= deepest L (lc ++ lr) ->
  (forall c x, c ∈ wc -> x ∈ wr -> c <= x) ->
  exists lc' lr',
    length lc' = length lc /\ length lr' = length lr /\
    Forall (fun l => l = L) lc' /\ Forall (fun l => (l <= L)%nat) lr' /\
    kraftsum b L (lc' ++ lr') = kraftsum b L (lc ++ lr) /\
    cost wc lc' + cost wr lr' <= cost wc lc + cost wr lr.
Proof.
  induction t as [|t IH]; intros lc lr Ht Hlc Hlr Hlec Hler Hdeep Hmin.
  { exists lc, lr. repeat split; try done. by apply shallower_zero. }
  destruct (shallower_pos L lc) as (i & l & Hi & Hl); [lia|].
  pose proof (deepest_shallower L lc) as Hds.
  rewrite deepest_app in Hdeep.
  destruct (deepest_pos L lr) as [j Hj]; [lia|].
  destruct (lookup_lt_is_Some_2 wc i) as [w Hw];
    [rewrite <- Hlc; by eapply lookup_lt_Some|].
  destruct (lookup_lt_is_Some_2 wr j) as [w' Hw'];
    [rewrite <- Hlr; by eapply lookup_lt_Some|].
  assert (w <= w') as Hww
    by (apply Hmin; by eapply list_elem_of_lookup_2).
  assert (l <= L)%nat as HlL
    by (rewrite Forall_forall in Hlec; apply Hlec;
        by eapply list_elem_of_lookup_2).
  destruct (IH (<[i:=L]> lc) (<[j:=l]> lr))
    as (lc' & lr' & Hlc' & Hlr' & Hall & Hle' & HK' & Hc').
  - unfold shallower in *. rewrite (zsum_fmap_insert _ _ _ _ _ Hi).
    rewrite decide_True by done. rewrite decide_False by done. lia.
  - by rewrite length_insert.
  - by rewrite length_insert.
  - apply Forall_insert; [done | lia].
  - by apply Forall_insert.
  - rewrite length_insert, deepest_app. unfold deepest in *.
    rewrite (zsum_fmap_insert _ _ _ _ _ Hi), (zsum_fmap_insert _ _ _ _ _ Hj).
    rewrite !decide_True by done. rewrite !decide_False by done. lia.
  - done.
  - exists lc', lr'. rewrite length_insert in Hlc', Hlr'.
    repeat split; try done.
    + rewrite HK', !kraftsum_app.
      rewrite (kraftsum_insert b _ _ _ _ _ Hi), (kraftsum_insert b _ _ _ _ _ Hj).
      lia.
    + etrans; [exact Hc'|].
      rewrite (cost_insert _ _ _ _ _ _ Hw Hi), (cost_insert _ _ _ _ _ _ Hw' Hj).
      nia.
Qed.

(** One step of the exchange argument. Of [n >= 2] weighted items let the
    first [k = 2 + (n - 2) mod (b - 1)] be no heavier than the others. Any
    lengths for the [n] items that satisfy the inequality can be turned
    into lengths for the others and for one item that stands for the first
    [k], at a cost lower by the weight of these at least. *)
Lemma merge_step (b : Z) (Hb : 2 <= b) (wc wr : list Z) (ls : list nat) :
  length ls = (length wc + length wr)%nat -> (2 <= length ls)%nat ->
  Z.of_nat (length wc) = 2 + (Z.of_nat (length ls) - 2) mod (b - 1) ->
  Forall (fun w => 0 <= w) wc -> Forall (fun w => 0 <= w) wr ->
  (forall c x, c ∈ wc -> x ∈ wr -> c <= x) ->
  kraft b ls ->
  exists (l : nat) (lr : list nat),
    length lr = length wr /\ kraft b (l :: lr) /\
    zsum wc * Z.of_nat l + cost wr lr + zsum wc <= cost (wc ++ wr) ls.
Proof.
  intros Hlen H2 Hk Hwc Hwr Hmin HK.
  destruct (tighten b Hb (wc ++ wr) _ ls eq_refl)
    as (ls1 & L & Hlen1 & Hle1 & HL & HL1 & HK1 & Ht1 & Hc1); try done.
  { by rewrite length_app. }
  { by apply Forall_app. }
  set (k := length wc) in *.
  set (lc := take k ls1). set (lr := drop k ls1).
  assert (ls1 = lc ++ lr) as Els by (symmetry; apply take_drop).
  assert (length lc = k) as Hlc by (unfold lc; rewrite length_take; lia).
  assert (length lr = length wr) as Hlr
    by (unfold lr; rewrite length_drop; lia).
  assert (Forall (fun l => (l <= L)%nat) lc /\
          Forall (fun l => (l <= L)%nat) lr) as [Hlec Hler]
    by (apply Forall_app; by rewrite <- Els).
  (* the counts *)
  destruct (pow_mod_pred b L) as [Q0 HQ0].
  destruct (kraftsum_mod_pred b L ls1) as [Q HQ].
  destruct (kraftsum_mod_base b L ls1 Hle1) as [R HR].
  pose proof (deepest_elem L ls1 HL) as Hm.
  assert (b ^ Z.of_nat L = b * b ^ Z.of_nat (L - 1)) as HR0.
  { replace L with (S (L - 1)) at 1 by lia.
    rewrite Nat2Z.inj_succ, Z.pow_succ_r by lia. done. }
  destruct (tight_counts b Hb (Z.of_nat (length ls)) (Z.of_nat k)
              (kraftsum b L ls1) (b ^ Z.of_nat L) Q R (deepest L ls1) Q0
              (b ^ Z.of_nat (L - 1)))
    as [Hroom Hdeep]; try (done || lia).
  destruct (deepen b Hb L wc wr (Z.to_nat (shallower L lc)) lc lr)
    as (lc' & lr' & Hlc' & Hlr' & Hall & Hle' & HK' & Hc'); try done.
  { pose proof (shallower_nonneg L lc). lia. }
  { rewrite Hlc, <- Els. done. }
  exists (L - 1)%nat, lr'. split; [lia|]. split.
  - exists L. split; [constructor; [lia | done]|].
    rewrite kraftsum_cons. rewrite <- Els in HK'.
    rewrite kraftsum_app, (kraftsum_const b L lc') in HK' by done.
    replace (L - (L - 1))%nat with 1%nat by lia.
    change (b ^ Z.of_nat 1) with (b ^ 1). lia.
  - rewrite (cost_const wc lc' L) in Hc' by (done || lia).
    rewrite <- (cost_app wc wr lc lr), <- Els in Hc' by lia.
    rewrite Nat2Z.inj_sub by lia. lia.
Qed.

(** ** Depths and roots while the tree is built *)

Lemma rise_root fuel ns x :
  ParentIndex (ns !!! x) = -1 -> rise fuel ns x = (0%nat, x).
Proof. intros H. destruct fuel; cbn; by rewrite H. Qed.

Lemma rise_parent fuel ns x p :
  ParentIndex (ns !!! x) = Z.of_nat p ->
  rise (S fuel) ns x = (S (fst (rise fuel ns p)), snd (rise fuel ns p)).
Proof.
  intros H. cbn [rise]. rewrite H.
  destruct (Z.eqb_spec (Z.of_nat p) (-1)) as [?|_]; [lia|].
  by rewrite Nat2Z.id.
Qed.

Lemma tree_inv_upwards base freqs st :
  tree_inv base freqs st -> upwards (nodes st) (nextNodeIdx st).
Proof.
  intros Hi x Hx Hnr.
  destruct (inv_links _ _ _ Hi x Hx Hnr) as (p & Hp & Hpr & Hxp & _).
  exists p. split; [done | lia].
Qed.

Lemma rise_fuel ns next :
  upwards ns next -> forall fuel1 fuel2 x,
  (x < next)%nat -> (next <= fuel1 + S x)%nat -> (next <= fuel2 + S x)%nat ->
  rise fuel1 ns x = rise fuel2 ns x.
Proof.
  intros Hup. induction fuel1 as [|fuel1 IH]; intros fuel2 x Hx H1 H2.
  - destruct (decide (ParentIndex (ns !!! x) = -1)) as [Hr|Hnr].
    + by rewrite !rise_root.
    + destruct (Hup x Hx Hnr) as (p & _ & Hp). lia.
  - destruct (decide (ParentIndex (ns !!! x) = -1)) as [Hr|Hnr].
    + by rewrite !rise_root.
    + destruct (Hup x Hx Hnr) as (p & Hp & Hpr).
      destruct fuel2 as [|fuel2]; [lia|].
      rewrite !(rise_parent _ _ _ p Hp).
      by rewrite (IH fuel2 p) by lia.
Qed.

(** The climb of a node has the length of its rise. *)
Lemma rise_climbs ns x l :
  climbs ns x l -> forall fuel, (length l <= fuel)%nat ->
  fst (rise fuel ns x) = length l.
Proof.
  induction 1 as [x Hr|x p l Hp Hcl IH]; intros fuel Hf.
  - by rewrite rise_root.
  - destruct fuel as [|fuel]; [cbn in Hf; lia|].
    rewrite (rise_parent _ _ _ p Hp). cbn [fst length].
    rewrite IH; [done | cbn in Hf; lia].
Qed.

(** What one combination does to depths and roots. *)
Lemma rise_combine base freqs k st cs st' :
  tree_inv base freqs st -> tree_inv base freqs st' ->
  combines k st cs st' -> (nextNodeIdx st < length (nodes st))%nat ->
  forall x, (x < nextNodeIdx st)%nat ->
    depth_of st' x = (if decide (root_of st x ∈ cs) then S (depth_of st x) else depth_of st x)
    /\ root_of st' x = (if decide (root_of st x ∈ cs) then nextNodeIdx st else root_of st x).
Proof.
  intros Hi Hi' Hc Hfree. unfold depth_of, root_of.
  rewrite (cb_length _ _ _ _ Hc).
  set (F := length (nodes st)). set (P := nextNodeIdx st) in *.
  pose proof (tree_inv_upwards _ _ _ Hi) as Hup. fold P in Hup.
  pose proof (tree_inv_upwards _ _ _ Hi') as Hup'.
  rewrite (cb_next _ _ _ _ Hc) in Hup'. fold P in Hup'.
  assert (ParentIndex (nodes st' !!! P) = -1) as HrootP
    by (unfold P; by rewrite (combines_at_parent Hc)).
  intros x. remember (P - x)%nat as m eqn:Hm. revert x Hm.
  induction (lt_wf m) as [m _ IH]. intros x -> Hx.
  destruct (decide (ParentIndex (nodes st !!! x) = -1)) as [Hr|Hnr].
  - rewrite (rise_root _ (nodes st)) by done. cbn [fst snd].
    destruct (decide (x ∈ cs)) as [Hin|Hin].
    + pose proof (kid_parent Hc x Hin) as Hp. unfold parent_of in Hp. fold P in Hp.
      destruct F as [|F'] eqn:EF; [lia|].
      rewrite (rise_parent _ _ _ P Hp), (rise_root _ _ P HrootP). done.
    + rewrite rise_root; [done|].
      rewrite (combines_at_other Hc); [done | done | fold P; lia].
  - destruct (Hup x Hx Hnr) as (p & Hp & Hpr).
    destruct (parent_before base freqs Hi Hc x p Hx Hp) as [Hp' _].
    unfold parent_of in Hp'.
    destruct F as [|F'] eqn:EF; [lia|].
    rewrite (rise_parent _ (nodes st) _ p Hp), (rise_parent _ _ _ p Hp').
    rewrite (rise_fuel _ _ Hup F' (S F') p) by lia.
    rewrite (rise_fuel _ _ Hup' F' (S F') p) by lia.
    destruct (IH (P - p)%nat ltac:(lia) p eq_refl ltac:(lia)) as [Hd Hr'].
    rewrite Hd, Hr'. cbn [fst snd]. by case_decide.
Qed.

(** ** The cost of the tree *)

Lemma pool0_wt base freqs x :
  (x < length freqs)%nat -> wt (pool0 base freqs) x = freqs !!! x.
Proof.
  intros Hx. destruct (lookup_lt_is_Some_2 freqs x Hx) as [f Hf].
  unfold wt. rewrite (pool0_leaf base freqs x f Hf).
  by rewrite (list_lookup_total_correct _ _ _ Hf).
Qed.

Lemma parents_weight_step base freqs k st cs st' :
  tree_inv base freqs st -> combines k st cs st' ->
  parents_weight freqs st'
  = parents_weight freqs st + wt (nodes st') (nextNodeIdx st).
Proof.
  intros Hi Hc. unfold parents_weight. rewrite (cb_next _ _ _ _ Hc).
  pose proof (inv_next_lo _ _ _ Hi) as Hlo.
  replace (S (nextNodeIdx st) - length freqs)%nat
    with ((nextNodeIdx st - length freqs) + 1)%nat by lia.
  rewrite seq_app, fmap_app, zsum_app. cbn [seq fmap list_fmap].
  rewrite zsum_cons, zsum_nil.
  replace (length freqs + (nextNodeIdx st - length freqs))%nat
    with (nextNodeIdx st) by lia.
  rewrite (zsum_fmap_ext (wt (nodes st')) (wt (nodes st))); [lia|].
  intros x Hx. apply elem_of_seq in Hx. apply (wt_after Hc). lia.
Qed.

Lemma exact_inv_init base freqs h0 :
  Forall (fun f => 0 <= f) freqs -> h0 ≡ₚ seq 0 (length freqs) ->
  exact_inv freqs (mkState (pool0 base freqs) h0 (length freqs)).
Proof.
  intros Hpos Hp. split; cbn [nodes nodeHeap nextNodeIdx].
  - intros x Hx. rewrite (pool0_wt base freqs x Hx).
    rewrite Forall_forall in Hpos. apply Hpos.
    apply list_elem_of_lookup_total_2. lia.
  - rewrite Hp.
    transitivity (zsum ((fun x => freqs !!! x) <$> seq 0 (length freqs))).
    + apply zsum_fmap_ext. intros x Hx. apply elem_of_seq in Hx.
      apply pool0_wt. lia.
    + by rewrite <- take_as_lookups, take_ge by lia.
Qed.

(** The sum in [combine] is the sum of the integers. *)
Lemma exact_sum base freqs k st cs st' :
  zsum freqs < 2 ^ 63 -> tree_inv base freqs st -> exact_inv freqs st -> combines k st cs st' ->
  wt (nodes st') (nextNodeIdx st) = zsum (wt (nodes st) <$> cs).
Proof.
  intros Hfit Hi [Hpos Hsum] Hc. rewrite (wt_new Hc).
  destruct (cb_heap _ _ _ _ Hc) as (h1 & Hp & _).
  assert (forall h, (forall x, x ∈ h -> x ∈ nodeHeap st) ->
            Forall (fun w => 0 <= w) (wt (nodes st) <$> h)) as Hnn.
  { intros h Hh. apply Forall_forall. intros w Hw.
    apply list_elem_of_fmap in Hw as (x & -> & Hx).
    apply Hpos, (inv_heap_lt _ _ _ Hi), Hh, Hx. }
  rewrite sum_freq_exact; [lia|].
  rewrite abs_nonneg_list
    by (apply Hnn; intros x Hx; rewrite Hp; apply elem_of_app; by left).
  rewrite Hp, fmap_app in Hsum.
  pose proof (zsum_le_app (wt (nodes st) <$> cs) (wt (nodes st) <$> h1)
                ltac:(apply Hnn; intros x Hx; rewrite Hp; apply elem_of_app;
                      by right)).
  cbn. lia.
Qed.

Lemma exact_inv_step base freqs k st cs st' :
  zsum freqs < 2 ^ 63 -> tree_inv base freqs st -> exact_inv freqs st -> combines k st cs st' ->
  exact_inv freqs st'.
Proof.
  intros Hfit Hi He Hc.
  pose proof (exact_sum base freqs k st cs st' Hfit Hi He Hc) as Hnew.
  destruct He as [Hpos Hsum]. split.
  - intros x Hx. rewrite (cb_next _ _ _ _ Hc) in Hx.
    destruct (decide (x = nextNodeIdx st)) as [->|Hne].
    + rewrite Hnew. apply zsum_nonneg, Forall_forall. intros w Hw.
      apply list_elem_of_fmap in Hw as (c & -> & Hcin).
      apply Hpos, (kid_lt base freqs Hi Hc c Hcin).
    + rewrite (wt_after Hc) by lia. apply Hpos. lia.
  - rewrite (combines_rest wt Hc (inv_nodup _ _ _ Hi) (inv_heap_lt _ _ _ Hi)).
    + lia.
    + intros x Hx. unfold wt. by rewrite (lookup_total_eq _ _ _ Hx).
Qed.

Lemma cost_inv_init base freqs h0 :
  h0 ≡ₚ seq 0 (length freqs) ->
  cost_inv freqs (mkState (pool0 base freqs) h0 (length freqs)).
Proof.
  intros Hp ell. unfold parents_weight. cbn [nodes nodeHeap nextNodeIdx].
  rewrite Nat.sub_diag. cbn [seq fmap list_fmap]. rewrite zsum_nil, Z.add_0_l.
  rewrite Hp. apply zsum_fmap_ext. intros i Hi. apply elem_of_seq in Hi.
  unfold depth_of, root_of. cbn [nodes].
  destruct (lookup_lt_is_Some_2 freqs i ltac:(lia)) as [f Hf].
  rewrite rise_root by (by rewrite (pool0_leaf base freqs i f Hf)).
  cbn [fst snd]. rewrite pool0_wt by lia. lia.
Qed.

Lemma cost_inv_step base freqs st cs st' :
  2 <= base -> (2 <= length freqs)%nat -> zsum freqs < 2 ^ 63 ->
  tree_inv base freqs st -> exact_inv freqs st -> cost_inv freqs st ->
  (nextNodeIdx st < length (nodes st))%nat ->
  combines (arity base freqs (nextNodeIdx st)) st cs st' ->
  cost_inv freqs st'.
Proof.
  intros Hbase HC Hfit Hi He Hcost Hfree Hc ell'.
  pose proof (arity_range base freqs Hbase (nextNodeIdx st) HC) as Har.
  pose proof (combines_tree_inv base freqs st cs st' Hi ltac:(lia) Hfree Hc)
    as Hi'.
  pose proof (exact_sum base freqs _ st cs st' Hfit Hi He Hc) as Hnew.
  pose proof (inv_next_lo _ _ _ Hi) as Hlo.
  set (P := nextNodeIdx st) in *.
  pose (ell := fun x => if decide (x ∈ cs) then 1 + ell' P else ell' x).
  specialize (Hcost ell).
  rewrite (parents_weight_step base freqs _ st cs st' Hi Hc). fold P.
  transitivity
    (zsum ((fun i => freqs !!! i * (Z.of_nat (depth_of st i) + ell (root_of st i)))
             <$> seq 0 (length freqs))).
  { apply zsum_fmap_ext. intros i Hin. apply elem_of_seq in Hin.
    destruct (rise_combine base freqs _ st cs st' Hi Hi' Hc Hfree i ltac:(lia))
      as [Hd Hr].
    rewrite Hd, Hr. unfold ell. fold P. case_decide; [|done].
    rewrite Nat2Z.inj_succ. lia. }
  rewrite Hcost.
  destruct (cb_heap _ _ _ _ Hc) as (h1 & Hp & Hp').
  pose proof (inv_nodup _ _ _ Hi) as Hnd. rewrite Hp in Hnd.
  apply NoDup_app in Hnd as (_ & Hdisj & _).
  rewrite Hp', Hp, fmap_app, zsum_app, fmap_cons, zsum_cons.
  rewrite (zsum_fmap_ext (fun x => wt (nodes st) x * ell x)
             (fun x => wt (nodes st) x * (1 + ell' P)) cs)
    by (intros x Hx; unfold ell; by rewrite decide_True).
  rewrite zsum_fmap_scale.
  rewrite (zsum_fmap_ext (fun x => wt (nodes st) x * ell x)
             (fun x => wt (nodes st') x * ell' x) h1).
  - fold P. rewrite Hnew. lia.
  - intros x Hx. unfold ell. rewrite decide_False.
    + rewrite (wt_after Hc); [done|].
      apply (inv_heap_lt _ _ _ Hi). rewrite Hp. apply elem_of_app. by right.
    + intros Hxc. by apply (Hdisj x).
Qed.

Lemma bound_inv_init base freqs h0 :
  h0 ≡ₚ seq 0 (length freqs) ->
  bound_inv base freqs (mkState (pool0 base freqs) h0 (length freqs)).
Proof.
  intros Hp ls0 Hlen HK. cbn [nodes nodeHeap nextNodeIdx].
  exists (zip (seq 0 (length freqs)) ls0).
  rewrite fst_zip, snd_zip by (rewrite length_seq; lia).
  split; [done|]. split; [done|].
  unfold parents_weight. cbn [nextNodeIdx]. rewrite Nat.sub_diag.
  cbn [seq fmap list_fmap]. rewrite zsum_nil, Z.add_0_l.
  rewrite cost_zip by (rewrite length_seq; lia).
  apply Z.eq_le_incl. f_equal.
  rewrite <- (take_ge freqs (length freqs)) at 3 by lia.
  rewrite take_as_lookups by lia.
  apply list_fmap_ext. intros i x Hx. apply lookup_seq in Hx.
  apply pool0_wt. lia.
Qed.

(** The count that [combine] is called with, from the size of the heap. *)
Lemma arity_from_heap base freqs st :
  2 <= base -> (2 <= length freqs)%nat ->
  tree_inv base freqs st -> count_inv base freqs st ->
  arity base freqs (nextNodeIdx st)
  = 2 + (Z.of_nat (length (nodeHeap st)) - 2) mod (base - 1).
Proof.
  intros Hbase HC Hi Hn. unfold count_inv in Hn. unfold arity.
  pose proof (inv_next_lo _ _ _ Hi) as Hlo.
  assert (initial_count base freqs
          = 2 + (Z.of_nat (length freqs) - 2) mod (base - 1)) as Hic
    by (unfold initial_count; by rewrite Z.rem_mod_nonneg by lia).
  destruct (decide (nextNodeIdx st = length freqs)) as [Heq|Hne].
  - by rewrite Hn.
  - pose proof (Z.div_mod (Z.of_nat (length freqs) - 2) (base - 1) ltac:(lia))
      as Hdm.
    pose proof (Z.mod_pos_bound (Z.of_nat (length freqs) - 2) (base - 1)
                  ltac:(lia)) as Hmb.
    set (t := (Z.of_nat (length freqs) - 2) / (base - 1)) in *.
    rewrite <- (Z.mod_unique_pos (Z.of_nat (length (nodeHeap st)) - 2)
                  (base - 1)
                  (t - (Z.of_nat (nextNodeIdx st) - Z.of_nat (length freqs) - 1)
                   - 1)
                  (base - 2)); lia.
Qed.

Lemma bound_inv_step base freqs st cs st' :
  2 <= base -> (2 <= length freqs)%nat -> zsum freqs < 2 ^ 63 ->
  tree_inv base freqs st -> count_inv base freqs st -> exact_inv freqs st ->
  bound_inv base freqs st ->
  combines (arity base freqs (nextNodeIdx st)) st cs st' ->
  bound_inv base freqs st'.
Proof.
  intros Hbase HC Hfit Hi Hn He Hb Hc ls0 Hlen0 HK0.
  destruct (Hb ls0 Hlen0 HK0) as (items & Hfst & HK & Hle).
  pose proof (arity_range base freqs Hbase (nextNodeIdx st) HC) as Har.
  pose proof (exact_sum base freqs _ st cs st' Hfit Hi He Hc) as Hnew.
  destruct He as [Hpos _].
  destruct (cb_heap _ _ _ _ Hc) as (h1 & Hp & Hp').
  pose proof (cb_count _ _ _ _ Hc) as Hcount.
  rewrite Hp in Hfst. symmetry in Hfst.
  apply Permutation_map_inv in Hfst as (items2 & Hfst2 & Hperm).
  change (map fst items2) with (items2.*1) in Hfst2.
  set (W := wt (nodes st)) in *.
  assert (forall h, (forall x, x ∈ h -> x ∈ nodeHeap st) ->
            Forall (fun w => 0 <= w) (W <$> h)) as Hnn.
  { intros h Hh. apply Forall_forall. intros w Hw.
    apply list_elem_of_fmap in Hw as (x & -> & Hx).
    apply Hpos, (inv_heap_lt _ _ _ Hi), Hh, Hx. }
  destruct (merge_step base Hbase (W <$> cs) (W <$> h1) items2.*2)
    as (l & lr & Hlr & HK' & Hcost).
  - rewrite !length_fmap, <- length_app, Hfst2. by rewrite length_fmap.
  - rewrite length_fmap, <- (length_fmap fst), <- Hfst2, length_app. lia.
  - rewrite !length_fmap.
    rewrite <- (length_fmap fst items2), <- Hfst2, <- Hp.
    rewrite <- (arity_from_heap base freqs st Hbase HC Hi Hn). lia.
  - apply Hnn. intros x Hx. rewrite Hp. apply elem_of_app. by left.
  - apply Hnn. intros x Hx. rewrite Hp. apply elem_of_app. by right.
  - intros c x Hcin Hxin.
    apply list_elem_of_fmap in Hcin as (c' & -> & Hc').
    apply list_elem_of_fmap in Hxin as (x' & -> & Hx').
    apply (cb_min _ _ _ _ Hc); [done | |].
    + rewrite Hp. apply elem_of_app. by right.
    + pose proof (inv_nodup _ _ _ Hi) as Hnd. rewrite Hp in Hnd.
      apply NoDup_app in Hnd as (_ & Hdisj & _).
      intros Hxc. by apply (Hdisj x').
  - by rewrite <- Hperm.
  - rewrite length_fmap in Hlr.
    exists ((nextNodeIdx st, l) :: zip h1 lr).
    rewrite fmap_cons, fmap_cons, fst_zip, snd_zip by lia. cbn [fst snd].
    split; [by rewrite Hp'|]. split; [done|].
    rewrite (parents_weight_step base freqs _ st cs st' Hi Hc).
    rewrite fmap_cons, zsum_cons. cbn [fst snd].
    rewrite (zsum_fmap_ext _ (fun it => W it.1 * Z.of_nat it.2)).
    + rewrite cost_zip by done. rewrite Hnew. fold W.
      rewrite <- fmap_app, Hfst2, cost_pairs in Hcost.
      rewrite <- Hperm in Hcost. lia.
    + intros [x lx] Hin. cbn [fst snd]. f_equal.
      apply elem_of_zip_l in Hin. unfold W. apply (wt_after Hc).
      apply (inv_heap_lt _ _ _ Hi). rewrite Hp. apply elem_of_app. by right.
Qed.

(** The final state of [Label], with all that the argument carries through
    the loop. *)
Lemma Label_costs base freqs :
  2 <= base -> (2 <= length freqs)%nat ->
  Forall (fun f => 0 <= f) freqs -> zsum freqs < 2 ^ 63 ->
  exists st calls ls,
    build base freqs = Ok (st, calls) /\ Label base freqs = Ok ls /\
    length ls = length freqs /\
    (length freqs <= nextNodeIdx st)%nat /\
    weighted_length freqs ls = parents_weight freqs st /\
    forall ls0, length ls0 = length freqs -> kraft base ls0 ->
      parents_weight freqs st <= cost freqs ls0.
Proof.
  intros Hbase HC Hpos Hfit.
  destruct (Label_spec base freqs Hbase HC
              (fun st => count_inv base freqs st /\ exact_inv freqs st /\
                         cost_inv freqs st /\ bound_inv base freqs st))
    as (st & q & paths & Hbuild & Hinv & (Hn & He & Hcost & Hb) & Hone & Hnext
        & Hlen & Hpaths & HL).
  { intros st cs st' Hi (Hn & He & Hcost & Hb) Hfree Hc.
    split; [by eapply count_inv_step|].
    split; [by eapply exact_inv_step|].
    split; [by eapply cost_inv_step|]. by eapply bound_inv_step. }
  { intros h0 Hp _.
    split; [by apply count_inv_init|].
    split; [by apply exact_inv_init|].
    split; [by apply cost_inv_init|]. by apply bound_inv_init. }
  pose proof (Forall2_length _ _ _ Hpaths) as Hlp. rewrite length_seq in Hlp.
  eexists st, _, (@rev Z <$> paths). split; [exact Hbuild|]. split; [done|].
  split; [by rewrite length_fmap|]. split; [lia|]. split.
  - rewrite weighted_length_cost, cost_as_seq by (by rewrite !length_fmap).
    specialize (Hcost (fun _ => 0)). cbv beta in Hcost.
    assert (zsum ((fun x => wt (nodes st) x * 0) <$> nodeHeap st) = 0) as H0.
    { rewrite (zsum_fmap_ext _ (fun _ => 0)) by (intros; lia).
      rewrite zsum_fmap_const. lia. }
    rewrite H0, Z.add_0_r in Hcost.
    rewrite <- Hcost. apply zsum_fmap_ext. intros i Hi.
    apply elem_of_seq in Hi. rewrite Z.add_0_r. f_equal. f_equal.
    destruct (lookup_lt_is_Some_2 paths i ltac:(lia)) as [l Hl].
    assert (climbs (nodes st) i l) as Hcl.
    { eapply Forall2_lookup_lr; [exact Hpaths | | exact Hl].
      by rewrite lookup_seq_lt by lia. }
    rewrite <- list_fmap_compose.
    erewrite list_lookup_total_correct
      by (rewrite list_lookup_fmap, Hl; reflexivity).
    cbn. rewrite length_rev. unfold depth_of. symmetry.
    apply rise_climbs; [done|].
    pose proof (climbs_length base freqs st i l Hinv Hcl ltac:(lia)).
    pose proof (inv_next_hi _ _ _ Hinv). lia.
  - intros ls0 Hlen0 HK0.
    destruct (Hb ls0 Hlen0 HK0) as (items & Hfst & _ & Hle).
    etrans; [|exact Hle].
    assert (0 <= zsum ((fun it => wt (nodes st) it.1 * Z.of_nat it.2)
                         <$> items)); [|lia].
    apply zsum_nonneg, Forall_forall. intros v Hv.
    apply list_elem_of_fmap in Hv as ([x l] & -> & Hin). cbn [fst snd].
    assert (x ∈ nodeHeap st) as Hx.
    { rewrite <- Hfst. apply list_elem_of_fmap. by exists (x, l). }
    destruct He as [Hw _].
    pose proof (Hw x (inv_heap_lt _ _ _ Hinv x Hx)). lia.
Qed.

(** X17. For [base >= 2], [C >= 2] items and frequencies that are not
    negative and whose sum is below [2^63], the weighted length of the
    labels, [sum f_i * len(label_i)], is the sum of the frequencies of the
    parents that [combine] created. *)
Theorem weighted_length_parents (base : Z) (freqs : list Z) :
  2 <= base -> (2 <= length freqs)%nat ->
  Forall (fun f => 0 <= f) freqs -> zsum freqs < 2 ^ 63 ->
  exists st calls ls,
    build base freqs = Ok (st, calls) /\ Label base freqs = Ok ls /\
    weighted_length freqs ls
    = zsum ((fun p => Freq (nodes st !!! p))
              <$> seq (length freqs) (nextNodeIdx st - length freqs)).
Proof.
  intros Hbase HC Hpos Hfit.
  destruct (Label_costs base freqs Hbase HC Hpos Hfit)
    as (st & calls & ls & Hbuild & HL & _ & _ & Hw & _).
  by exists st, calls, ls.
Qed.

Lemma weighted_length_parents_witness :
  exists st calls ls,
    build 4 [5; 4; 3; 2; 1] = Ok (st, calls) /\
    Label 4 [5; 4; 3; 2; 1] = Ok ls /\
    weighted_length [5; 4; 3; 2; 1] ls
    = zsum ((fun p => Freq (nodes st !!! p))
              <$> seq (length [5; 4; 3; 2; 1])
                    (nextNodeIdx st - length [5; 4; 3; 2; 1])).
Proof.
  apply (weighted_length_parents 4 [5; 4; 3; 2; 1]).
  - lia.
  - cbn. lia.
  - repeat constructor; lia.
  - vm_compute. reflexivity.
Defined.

(** X18. The labels are optimal. For [base >= 2], [C >= 2] items and
    frequencies that are not negative and whose sum is below [2^63], no
    prefix-free code for the items over the symbols [0 .. base - 1] has a
    lower weighted length [sum f_i * len(code_i)] than the labels that
    [Label] returns. *)
Theorem Label_optimal (base : Z) (freqs : list Z) :
  2 <= base -> (2 <= length freqs)%nat ->
  Forall (fun f => 0 <= f) freqs -> zsum freqs < 2 ^ 63 ->
  exists ls, Label base freqs = Ok ls /\
    forall code : list (list Z),
      length code = length freqs ->
      Forall (Forall (fun s => 0 <= s < base)) code ->
      (forall i j a b, i <> j -> code !! i = Some a -> code !! j = Some b ->
         ~ a `prefix_of` b) ->
      weighted_length freqs ls <= weighted_length freqs code.
Proof.
  intros Hbase HC Hpos Hfit.
  destruct (Label_costs base freqs Hbase HC Hpos Hfit)
    as (st & calls & ls & _ & HL & _ & _ & Hw & Hlow).
  exists ls. split; [done|]. intros code Hlen Hsym Hpf.
  rewrite Hw, (weighted_length_cost freqs code).
  apply Hlow; [by rewrite length_fmap|].
  exists (max_list (length <$> code)). split.
  - apply Forall_forall. intros l Hl. by apply max_list_elem_of_le.
  - apply (kraft_inequality base Hbase); [|done|by apply prefix_free_pairwise].
    apply Forall_forall. intros c Hc. apply max_list_elem_of_le.
    apply list_elem_of_fmap. by exists c.
Qed.

Lemma Label_optimal_witness :
  exists ls, Label 2 [1; 1; 1; 1; 1] = Ok ls /\
    forall code : list (list Z),
      length code = length [1; 1; 1; 1; 1] ->
      Forall (Forall (fun s => 0 <= s < 2)) code ->
      (forall i j a b, i <> j -> code !! i = Some a -> code !! j = Some b ->
         ~ a `prefix_of` b) ->
      weighted_length [1; 1; 1; 1; 1] ls <= weighted_length [1; 1; 1; 1; 1] code.
Proof.
  apply (Label_optimal 2 [1; 1; 1; 1; 1]).
  - lia.
  - cbn. lia.
  - repeat constructor; lia.
  - vm_compute. reflexivity.
Defined.

(** * Lower or equal frequency

    With frequencies of one or more, a tie costs one symbol at most. *)

Lemma zsum_pos (l : list Z) :
  l <> [] -> Forall (fun x => 1 <= x) l -> 1 <= zsum l.
Proof.
  intros Hne Hall. destruct Hall as [|x l Hx Hl]; [done|].
  rewrite zsum_cons.
  assert (0 <= zsum l); [|lia].
  apply zsum_nonneg. eapply Forall_impl; [exact Hl|]. cbn. lia.
Qed.

Lemma pos_inv_init base freqs h0 :
  Forall (fun f => 1 <= f) freqs ->
  pos_inv (mkState (pool0 base freqs) h0 (length freqs)).
Proof.
  intros Hpos x Hx. cbn [nodes nextNodeIdx] in *.
  rewrite (pool0_wt base freqs x Hx).
  rewrite Forall_forall in Hpos. apply Hpos.
  apply list_elem_of_lookup_total_2. lia.
Qed.

Lemma pos_inv_step base freqs st cs st' :
  2 <= base -> (2 <= length freqs)%nat ->
  tree_inv base freqs st -> pos_inv st -> order_inv freqs st' ->
  combines (arity base freqs (nextNodeIdx st)) st cs st' -> pos_inv st'.
Proof.
  intros Hbase HC Hi Hpos Ho' Hc x Hx.
  rewrite (cb_next _ _ _ _ Hc) in Hx.
  destruct (decide (x = nextNodeIdx st)) as [->|Hne].
  - pose proof (inv_next_lo _ _ _ Hi) as Hlo.
    rewrite (oi_sum _ _ Ho') by (rewrite (cb_next _ _ _ _ Hc); lia).
    rewrite (cb_next _ _ _ _ Hc), (children_new base freqs Hi Hc).
    pose proof (arity_range base freqs Hbase (nextNodeIdx st) HC) as Har.
    pose proof (cb_count _ _ _ _ Hc) as Hcount.
    apply zsum_pos.
    + destruct cs; [cbn in Hcount; lia | done].
    + apply Forall_forall. intros w Hw.
      apply list_elem_of_fmap in Hw as (c & -> & Hcin).
      rewrite (wt_after Hc) by (by apply (kid_lt base freqs Hi Hc)).
      apply Hpos. by apply (kid_lt base freqs Hi Hc).
  - rewrite (wt_after Hc) by lia. apply Hpos. lia.
Qed.

(** A node that is strictly lighter than another one, and older than the
    parent of that one, is at least as deep. *)
Lemma node_depth_order base freqs st u v pv lu lv :
  2 <= base -> (2 <= length freqs)%nat ->
  tree_inv base freqs st -> order_inv freqs st ->
  (u < nextNodeIdx st)%nat -> (v < nextNodeIdx st)%nat ->
  parent_of (nodes st) v pv -> (u < pv)%nat ->
  wt (nodes st) u < wt (nodes st) v ->
  climbs (nodes st) u lu -> climbs (nodes st) v lv ->
  (length lv <= length lu)%nat.
Proof.
  intros Hbase HC Hinv Hord Hu Hv Hpv Hupv Hlt Hclu Hclv.
  destruct (oi_min _ _ Hord u v pv Hu Hv Hpv Hupv Hlt) as (pu & Hpu & Hle).
  destruct (inv_links _ _ _ Hinv u Hu ltac:(unfold parent_of in Hpu; lia))
    as (pu' & Hpu' & Hpur & _).
  assert (pu' = pu) as -> by (unfold parent_of in Hpu; lia).
  destruct (inv_links _ _ _ Hinv v Hv ltac:(unfold parent_of in Hpv; lia))
    as (pv' & Hpv' & Hpvr & _).
  assert (pv' = pv) as -> by (unfold parent_of in Hpv; lia).
  destruct (climbs_step_inv freqs HC st u pu lu Hpu Hclu) as (lu' & -> & Hclu').
  destruct (climbs_step_inv freqs HC st v pv lv Hpv Hclv) as (lv' & -> & Hclv').
  cbn [length]. apply le_n_S.
  destruct (decide (pu = pv)) as [->|Hne].
  - by rewrite (climbs_functional _ pv lu' lv' Hclu' Hclv').
  - apply (depth_order base freqs Hbase HC st Hinv Hord
             (nextNodeIdx st - pu)%nat pu pv u v); try (done || lia).
    + by apply elem_of_kids.
    + by apply elem_of_kids.
Qed.

(** X22. For [base >= 2] and frequencies that are all at least [1] and whose
    sum is below [2^63], the label of an item is longer by one symbol at
    most than the label of any item whose frequency is lower or the
    same. *)
Theorem Label_at_most_one_longer (base : Z) (freqs : list Z) :
  2 <= base -> Forall (fun f => 1 <= f) freqs -> zsum freqs < 2 ^ 63 ->
  exists ls, Label base freqs = Ok ls /\
    forall i j fi fj a b,
      freqs !! i = Some fi -> freqs !! j = Some fj -> fi <= fj ->
      ls !! i = Some a -> ls !! j = Some b ->
      (length b <= length a + 1)%nat.
Proof.
  intros Hbase Hpos Hfit.
  destruct (freqs_cases freqs) as [->|[[f ->]|HC]].
  - exists []. split; [by apply Label_nil|]. intros i j fi fj a b Hi. done.
  - exists [[0]]. split; [by apply Label_single|].
    intros [|i] [|j] fi fj a b Hi Hj Hle Ha Hb; try done.
    cbn in Ha, Hb. simplify_eq. cbn. lia.
  - assert (zsum (Z.abs <$> freqs) < 2 ^ 63) as Hfit'.
    { rewrite abs_nonneg_list; [done|].
      eapply Forall_impl; [exact Hpos|]. cbn. lia. }
    destruct (Label_spec base freqs Hbase HC
                (fun st => order_inv freqs st /\ pos_inv st))
      as (st & q & paths & _ & Hinv & [Hord Hp] & Hone & Hnext & _ & Hpaths & HL).
    { intros st cs st' Hi [Ho Hp] Hfree Hc.
      pose proof (order_inv_step base freqs Hbase HC Hfit' st cs st' Hi Ho Hfree Hc)
        as Ho'.
      split; [done|]. by eapply pos_inv_step. }
    { intros h0 Hp0 Hh0. split; [by apply order_inv_init|].
      by apply pos_inv_init. }
    exists (@rev Z <$> paths). split; [done|].
    intros i j fi fj a b Hfi Hfj Hle Ha Hb.
    destruct (Label_lookup freqs st paths _ i a Hpaths eq_refl Ha)
      as (li & Hi & Hcli & ->).
    destruct (Label_lookup freqs st paths _ j b Hpaths eq_refl Hb)
      as (lj & Hj & Hclj & ->).
    rewrite !length_rev.
    pose proof (leaf_has_parent base freqs st q j Hinv Hone Hnext Hj) as Hjnr.
    destruct (inv_links _ _ _ Hinv j ltac:(lia) Hjnr) as (pj & Hpj & Hpjr & _).
    destruct (climbs_step_inv freqs HC st j pj lj Hpj Hclj) as (lj' & -> & Hclj').
    cbn [length].
    destruct (decide (ParentIndex (nodes st !!! pj) = -1)) as [Hr|Hnr].
    { inversion Hclj'; subst; [cbn; lia | lia]. }
    destruct (inv_links _ _ _ Hinv pj ltac:(lia) Hnr)
      as (ppj & Hppj & Hppjr & Hlt & _).
    assert (wt (nodes st) i < wt (nodes st) pj) as Hw.
    { rewrite (weight_sum freqs st Hord pj Hpjr). cbv beta.
      assert (j ∈ children (nodes st) (nextNodeIdx st) pj) as Hjk
        by (apply elem_of_children; split; [lia | done]).
      destruct (zsum_split (wt (nodes st)) _ j Hjk) as (rest & Hperm & ->).
      pose proof (kids_two base freqs Hbase HC st Hinv pj Hpjr) as H2.
      cbv beta in H2. rewrite Hperm in H2. cbn [length] in H2.
      assert (1 <= zsum (wt (nodes st) <$> rest)) as Hrest.
      { apply zsum_pos; [destruct rest; [cbn in H2; lia | done]|].
        apply Forall_forall. intros w Hw.
        apply list_elem_of_fmap in Hw as (c & -> & Hcin).
        apply Hp.
        assert (c ∈ children (nodes st) (nextNodeIdx st) pj) as Hck
          by (rewrite Hperm; by apply list_elem_of_further).
        by apply elem_of_children in Hck as [? _]. }
      unfold wt at 1 2.
      rewrite (inv_leaf _ _ _ Hinv i fi Hfi), (inv_leaf _ _ _ Hinv j fj Hfj).
      lia. }
    pose proof (node_depth_order base freqs st i pj ppj li lj' Hbase HC Hinv Hord
                  ltac:(lia) ltac:(lia) Hppj ltac:(lia) Hw Hcli Hclj').
    lia.
Qed.

Lemma Label_at_most_one_longer_witness :
  exists ls, Label 2 [1; 1; 1; 1; 1] = Ok ls /\
    forall i j fi fj a b,
      [1; 1; 1; 1; 1] !! i = Some fi -> [1; 1; 1; 1; 1] !! j = Some fj ->
      fi <= fj -> ls !! i = Some a -> ls !! j = Some b ->
      (length b <= length a + 1)%nat.
Proof.
  apply (Label_at_most_one_longer 2 [1; 1; 1; 1; 1]).
  - lia.
  - repeat constructor; lia.
  - vm_compute. reflexivity.
Defined.

(** * The length of all labels

    [TotalHops] counts, below a node, the nodes that have a parent; the
    labels hold one symbol for every such node and every leaf below it. *)

Lemma parents_in_perm C h1 h2 : h1 ≡ₚ h2 -> parents_in C h1 = parents_in C h2.
Proof. intros Hp. unfold parents_in. by rewrite Hp. Qed.

Lemma parents_in_app C h1 h2 :
  parents_in C (h1 ++ h2) = parents_in C h1 + parents_in C h2.
Proof. unfold parents_in. rewrite filter_app, length_app. lia. Qed.

Lemma parents_in_nonneg C h : 0 <= parents_in C h.
Proof. unfold parents_in. lia. Qed.

Lemma parents_in_cons C x h :
  parents_in C (x :: h)
  = (if decide (C <= x)%nat then 1 else 0) + parents_in C h.
Proof.
  unfold parents_in. rewrite filter_cons. case_decide; cbn [length]; lia.
Qed.

Lemma leaves_sum C (g : nat -> Z) (cs : list nat) :
  (forall c, c ∈ cs -> 1 <= g c) ->
  (forall c, c ∈ cs -> (C <= c)%nat -> 2 <= g c) ->
  Z.of_nat (length cs) + parents_in C cs <= zsum (g <$> cs).
Proof.
  induction cs as [|c cs IH]; intros H1 H2.
  - cbn. rewrite zsum_nil. unfold parents_in. cbn. lia.
  - rewrite fmap_cons, zsum_cons, parents_in_cons. cbn [length].
    specialize (IH ltac:(intros x Hx; apply H1; by apply list_elem_of_further)
                   ltac:(intros x Hx; apply H2; by apply list_elem_of_further)).
    pose proof (H1 c ltac:(apply list_elem_of_here)).
    pose proof (H2 c ltac:(apply list_elem_of_here)).
    case_decide; lia.
Qed.

Lemma leaves_inv_init base freqs h0 :
  h0 ≡ₚ seq 0 (length freqs) ->
  leaves_inv (length freqs) (mkState (pool0 base freqs) h0 (length freqs))
    (fun _ => 1).
Proof.
  intros Hp. split; [done|]. split; [cbn; lia|]. split.
  - intros ell. cbn [nodes nodeHeap nextNodeIdx].
    rewrite Nat.sub_diag. cbn [seq fmap list_fmap]. rewrite zsum_nil, Z.add_0_l.
    rewrite Hp. apply zsum_fmap_ext. intros i Hi. apply elem_of_seq in Hi.
    unfold depth_of, root_of. cbn [nodes].
    destruct (lookup_lt_is_Some_2 freqs i ltac:(lia)) as [f Hf].
    rewrite rise_root by (by rewrite (pool0_leaf base freqs i f Hf)).
    cbn [fst snd]. lia.
  - cbn [nodes nodeHeap nextNodeIdx]. rewrite Nat.sub_diag.
    cbn [seq fmap list_fmap]. rewrite zsum_nil.
    pose proof (parents_in_nonneg (length freqs) h0).
    apply Permutation_length in Hp. rewrite length_seq in Hp. lia.
Qed.

Lemma leaves_inv_step base freqs st cs st' g :
  2 <= base -> (2 <= length freqs)%nat ->
  tree_inv base freqs st -> leaves_inv (length freqs) st g ->
  (nextNodeIdx st < length (nodes st))%nat ->
  combines (arity base freqs (nextNodeIdx st)) st cs st' ->
  leaves_inv (length freqs) st'
    (fun x => if decide (x = nextNodeIdx st) then zsum (g <$> cs) else g x).
Proof.
  intros Hbase HC Hi (Hg1 & Hg2 & Hcost & Hbound) Hfree Hc.
  pose proof (arity_range base freqs Hbase (nextNodeIdx st) HC) as Har.
  pose proof (combines_tree_inv base freqs st cs st' Hi ltac:(lia) Hfree Hc)
    as Hi'.
  pose proof (inv_next_lo _ _ _ Hi) as Hlo.
  pose proof (cb_count _ _ _ _ Hc) as Hcount.
  pose proof (cb_next _ _ _ _ Hc) as Hnext.
  destruct (cb_heap _ _ _ _ Hc) as (h1 & Hp & Hp').
  pose proof (inv_nodup _ _ _ Hi) as Hnd. rewrite Hp in Hnd.
  apply NoDup_app in Hnd as (_ & Hdisj & _).
  set (P := nextNodeIdx st) in *.
  set (g' := fun x => if decide (x = P) then zsum (g <$> cs) else g x).
  assert (forall c, c ∈ cs -> (c < P)%nat) as Hcs
    by (intros c Hin; by apply (kid_lt base freqs Hi Hc)).
  assert (forall x, x ∈ h1 -> (x < P)%nat) as Hh1.
  { intros x Hx. apply (inv_heap_lt _ _ _ Hi). rewrite Hp.
    apply elem_of_app. by right. }
  assert (Z.of_nat (length cs) + parents_in (length freqs) cs
          <= zsum (g <$> cs)) as Hsum.
  { apply leaves_sum.
    - intros c Hin. by apply Hg1, Hcs.
    - intros c Hin Hge. apply Hg2. split; [done | by apply Hcs]. }
  assert (forall h : list nat, (forall x, x ∈ h -> (x < P)%nat) -> g' <$> h = g <$> h)
    as Hold.
  { intros h Hh. apply list_fmap_ext. intros i x Hx. unfold g'.
    rewrite decide_False; [done|].
    apply list_elem_of_lookup_2 in Hx. apply Hh in Hx. lia. }
  assert (zsum (g' <$> seq (length freqs) (nextNodeIdx st' - length freqs))
          = zsum (g <$> seq (length freqs) (P - length freqs))
            + zsum (g <$> cs)) as HG.
  { rewrite Hnext.
    replace (S P - length freqs)%nat with ((P - length freqs) + 1)%nat by lia.
    rewrite seq_app, fmap_app, zsum_app. cbn [seq fmap list_fmap].
    rewrite zsum_cons, zsum_nil.
    replace (length freqs + (P - length freqs))%nat with P by lia.
    rewrite Hold by (intros x Hx; apply elem_of_seq in Hx; lia).
    unfold g' at 1. rewrite decide_True by done. lia. }
  split; [|split; [|split]].
  - intros x Hx. rewrite Hnext in Hx. unfold g'. case_decide.
    + pose proof (parents_in_nonneg (length freqs) cs). lia.
    + apply Hg1. lia.
  - intros p Hp2. rewrite Hnext in Hp2. unfold g'. case_decide.
    + pose proof (parents_in_nonneg (length freqs) cs). lia.
    + apply Hg2. lia.
  - intros ell'. rewrite HG.
    pose (ell := fun x => if decide (x ∈ cs) then 1 + ell' P else ell' x).
    specialize (Hcost ell).
    transitivity
      (zsum ((fun i => Z.of_nat (depth_of st i) + ell (root_of st i))
               <$> seq 0 (length freqs))).
    { apply zsum_fmap_ext. intros i Hin. apply elem_of_seq in Hin.
      destruct (rise_combine base freqs _ st cs st' Hi Hi' Hc Hfree i ltac:(lia))
        as [Hd Hr].
      rewrite Hd, Hr. unfold ell. fold P. case_decide; [|done].
      rewrite Nat2Z.inj_succ. lia. }
    rewrite Hcost, Hp', Hp, fmap_app, zsum_app, fmap_cons, zsum_cons.
    rewrite (zsum_fmap_ext (fun x => g x * ell x)
               (fun x => g x * (1 + ell' P)) cs)
      by (intros x Hx; unfold ell; by rewrite decide_True).
    rewrite zsum_fmap_scale.
    rewrite (zsum_fmap_ext (fun x => g x * ell x)
               (fun x => g' x * ell' x) h1).
    + assert (g' P = zsum (g <$> cs)) as HP
        by (unfold g'; by rewrite decide_True).
      rewrite HP. lia.
    + intros x Hx. unfold ell, g'. rewrite decide_False.
      * rewrite decide_False; [done|]. apply Hh1 in Hx. lia.
      * intros Hxc. by apply (Hdisj x).
  - rewrite HG. rewrite Hnext.
    rewrite (parents_in_perm _ _ _ Hp'), parents_in_cons.
    rewrite decide_True by (fold P; lia).
    rewrite (parents_in_perm _ _ _ Hp), parents_in_app in Hbound.
    apply Permutation_length in Hp, Hp'. rewrite length_app in Hp.
    cbn [length] in Hp'. lia.
Qed.

Lemma total_length_depths base freqs st (xs : list nat) paths :
  tree_inv base freqs st ->
  Forall (fun x => (x < nextNodeIdx st)%nat) xs ->
  Forall2 (climbs (nodes st)) xs paths ->
  total_length (@rev Z <$> paths)
  = zsum ((fun x => Z.of_nat (depth_of st x)) <$> xs).
Proof.
  intros Hinv Hlt Hp. unfold total_length.
  induction Hp as [|x l xs paths Hcl _ IH]; [done|].
  apply Forall_cons in Hlt as [Hx Hlt].
  rewrite !fmap_cons, !zsum_cons, IH by done. rewrite length_rev.
  unfold depth_of. rewrite (rise_climbs _ _ _ Hcl); [done|].
  pose proof (climbs_length base freqs st x l Hinv Hcl Hx).
  pose proof (inv_next_hi _ _ _ Hinv). lia.
Qed.

(** X23. For [base >= 2] and [C >= 2] items, the labels together hold
    [(C - 2) / (base - 1)] symbols or more above the [TotalHops] of the
    root, which [Label] reserves as the capacity of [labelData]: the
    reserved capacity is the length of all labels exactly when
    [C <= base], and too small otherwise. *)
Theorem labelData_capacity (base : Z) (freqs : list Z) :
  2 <= base -> (2 <= length freqs)%nat ->
  exists st calls root ls,
    build base freqs = Ok (st, calls) /\ nodeHeap st = [root] /\
    Label base freqs = Ok ls /\
    TotalHops (nodes st !!! root)
    + (Z.of_nat (length freqs) - 2) / (base - 1) <= total_length ls /\
    (total_length ls = TotalHops (nodes st !!! root)
     <-> Z.of_nat (length freqs) <= base).
Proof.
  intros Hbase HC.
  destruct (Label_spec base freqs Hbase HC
              (fun st => count_inv base freqs st /\ hops_inv st /\
                         exists g, leaves_inv (length freqs) st g))
    as (st & q & paths & Hbuild & Hinv & (Hn & Hh & g & Hg) & Hone & Hnext
        & Hlen & Hpaths & HL).
  { intros st cs st' Hi (Hn & Hh & g & Hg) Hfree Hc.
    pose proof (arity_range base freqs Hbase (nextNodeIdx st) HC).
    split; [by eapply count_inv_step|]. split.
    - eapply hops_inv_step; [|exact Hi|exact Hh|exact Hc]. lia.
    - eexists. by eapply leaves_inv_step. }
  { intros h0 Hp _. split; [by apply count_inv_init|].
    split; [by apply hops_inv_init|].
    exists (fun _ => 1). by apply leaves_inv_init. }
  destruct (nodeHeap st) as [|root [|??]] eqn:Eh; try done.
  assert (TotalHops (nodes st !!! root)
          = Z.of_nat (length freqs) + Z.of_nat q) as Hcap.
  { unfold hops_inv in Hh. rewrite Eh in Hh.
    rewrite fmap_cons, zsum_cons in Hh.
    change (zsum (hops (nodes st) <$> [])) with 0 in Hh. unfold hops in Hh.
    cbn [length] in Hh. lia. }
  assert (Z.of_nat q = (Z.of_nat (length freqs) - 2) / (base - 1)) as Hq.
  { unfold count_inv in Hn. rewrite Eh, Hnext in Hn.
    rewrite decide_False in Hn by lia. unfold initial_count in Hn.
    rewrite <- Z.quot_div_nonneg by lia.
    pose proof (Z.quot_rem' (Z.of_nat (length freqs) - 2) (base - 1)) as Hqr.
    cbn [length] in Hn. nia. }
  assert (total_length (@rev Z <$> paths)
          = zsum ((fun x => Z.of_nat (depth_of st x))
                    <$> seq 0 (length freqs))) as Htot.
  { apply (total_length_depths base freqs); [done| |done].
    apply Forall_forall. intros x Hx. apply elem_of_seq in Hx. lia. }
  destruct Hg as (_ & _ & Hcost & Hbound).
  specialize (Hcost (fun _ => 0)). cbv beta in Hcost.
  rewrite (zsum_fmap_ext (fun x => g x * 0) (fun _ => 0)) in Hcost
    by (intros; lia).
  rewrite zsum_fmap_const in Hcost.
  rewrite (zsum_fmap_ext
             (fun i => Z.of_nat (depth_of st i) + 0)
             (fun i => Z.of_nat (depth_of st i))) in Hcost by (intros; lia).
  rewrite Eh in Hbound. rewrite parents_in_cons in Hbound.
  change (parents_in (length freqs) []) with 0 in Hbound.
  cbn [length] in Hbound.
  assert (Z.of_nat (length freqs) + 2 * Z.of_nat q
          <= total_length (@rev Z <$> paths)) as Hlow.
  { rewrite Htot, Hcost. case_decide; lia. }
  eexists st, _, root, (@rev Z <$> paths).
  split; [exact Hbuild|]. split; [done|]. split; [done|].
  split; [lia|]. rewrite Hcap. split.
  - intros Heq. assert (q = 0%nat) as -> by lia.
    symmetry in Hq. apply Z.div_small_iff in Hq; lia.
  - intros Hle. assert (q = 0%nat) as ->.
    { rewrite Z.div_small in Hq by lia. lia. }
    apply Z.le_antisymm; [|lia]. rewrite Htot.
    etrans; [apply (zsum_fmap_le _ (fun _ => 1))|].
    + intros i Hi. apply elem_of_seq in Hi.
      destruct (lookup_lt_is_Some_2 paths i) as [l Hl].
      { apply Forall2_length in Hpaths. rewrite length_seq in Hpaths. lia. }
      assert (climbs (nodes st) i l) as Hcl.
      { eapply Forall2_lookup_lr; [exact Hpaths | | exact Hl].
        by rewrite lookup_seq_lt by lia. }
      pose proof (climbs_length base freqs st i l Hinv Hcl ltac:(lia)).
      unfold depth_of. rewrite (rise_climbs _ _ _ Hcl); [lia|].
      pose proof (inv_next_hi _ _ _ Hinv). lia.
    + rewrite zsum_fmap_const, length_seq. lia.
Qed.

Lemma labelData_capacity_witness :
  exists st calls root ls,
    build 2 [1; 1; 1; 1; 1] = Ok (st, calls) /\ nodeHeap st = [root] /\
    Label 2 [1; 1; 1; 1; 1] = Ok ls /\
    TotalHops (nodes st !!! root)
    + (Z.of_nat (length [1; 1; 1; 1; 1]) - 2) / (2 - 1) <= total_length ls /\
    (total_length ls = TotalHops (nodes st !!! root)
     <-> Z.of_nat (length [1; 1; 1; 1; 1]) <= 2).
Proof. apply (labelData_capacity 2 [1; 1; 1; 1; 1]); cbn; lia. Defined.

(** * Frequencies are relative

    [Label] compares frequencies and adds them up; multiplying all of them
    by a positive constant changes neither the order nor, short of an
    overflow, the tree. *)

(** ** The heap of two pools that [Less] does not tell apart *)

Lemma up_less_only ns1 ns2 :
  (forall h i j, nodeHeap.Less ns1 h i j = nodeHeap.Less ns2 h i j) ->
  forall fuel h j, heap.up fuel ns1 h j = heap.up fuel ns2 h j.
Proof.
  intros HLess.
  induction fuel as [|fuel IH]; intros h j; rewrite !up_unfold; cbv zeta;
    rewrite HLess; [done|].
  case_decide; [done|].
  destruct (nodeHeap.Less ns2 h j ((j - 1) / 2)) as [[]|e]; try done.
  rewrite !bind_Ok. cbn [negb].
  destruct (nodeHeap.Swap h ((j - 1) / 2) j) as [h'|e]; [|done].
  rewrite !bind_Ok. apply IH.
Qed.

Lemma down_less_only ns1 ns2 :
  (forall h i j, nodeHeap.Less ns1 h i j = nodeHeap.Less ns2 h i j) ->
  forall fuel h i n, heap.down fuel ns1 h i n = heap.down fuel ns2 h i n.
Proof.
  intros HLess.
  induction fuel as [|fuel IH]; intros h i n; rewrite !down_unfold; cbv zeta;
    rewrite !HLess.
  all: case_decide; [done|].
  all: destruct (if decide (2 * i + 1 + 1 < n)%nat
                 then nodeHeap.Less ns2 h (2 * i + 1 + 1) (2 * i + 1)
                 else Ok false) as [lt21|e]; [|done].
  all: rewrite !bind_Ok, HLess.
  - done.
  - destruct (nodeHeap.Less ns2 h _ i) as [[]|e]; try done.
    rewrite !bind_Ok. cbn [negb].
    destruct (nodeHeap.Swap h i _) as [h'|e]; [|done].
    rewrite !bind_Ok. apply IH.
Qed.

Lemma heap_less_only ns1 ns2 :
  (forall h i j, nodeHeap.Less ns1 h i j = nodeHeap.Less ns2 h i j) ->
  forall h x,
    heap.Init ns1 h = heap.Init ns2 h /\
    heap.Push ns1 h x = heap.Push ns2 h x /\
    heap.Pop ns1 h = heap.Pop ns2 h.
Proof.
  intros HLess h x. split; [|split].
  - unfold heap.Init. generalize (nodeHeap.Len h). intros n.
    generalize (n / 2)%nat. intros m. revert h.
    induction m as [|m IH]; intros h; [done|]. cbn [heap.heapify].
    rewrite (down_less_only ns1 ns2 HLess).
    destruct (heap.down n ns2 h m n) as [h'|e]; [|done].
    rewrite !bind_Ok. apply IH.
  - apply up_less_only, HLess.
  - unfold heap.Pop. destruct (nodeHeap.Len h) as [|n]; [done|].
    destruct (nodeHeap.Swap h 0 n) as [h1|e]; [|done]. rewrite !bind_Ok.
    by rewrite (down_less_only ns1 ns2 HLess).
Qed.

(** ** Frequencies multiplied by a positive constant *)

Lemma get_scaled k ns p :
  get (scale k <$> ns) p
  = match get ns p with Ok n => Ok (scale k n) | Err e => Err e end.
Proof. unfold get. rewrite list_lookup_fmap. by destruct (ns !! p). Qed.

Lemma set_scaled k ns p n :
  set (scale k <$> ns) p (scale k n)
  = match set ns p n with Ok ns' => Ok (scale k <$> ns') | Err e => Err e end.
Proof.
  unfold set. rewrite length_fmap. case_decide; [|done].
  by rewrite list_fmap_insert.
Qed.

Lemma Less_scaled k ns h i j :
  0 < k -> nodeHeap.Less (scale k <$> ns) h i j = nodeHeap.Less ns h i j.
Proof.
  intros Hk. unfold nodeHeap.Less.
  destruct (get h i) as [pi|e]; [|done]. rewrite !bind_Ok.
  destruct (get h j) as [pj|e]; [|done]. rewrite !bind_Ok.
  rewrite !get_scaled.
  destruct (get ns pi) as [a|e]; [|done]. rewrite !bind_Ok.
  destruct (get ns pj) as [b|e]; [|done]. rewrite !bind_Ok.
  f_equal. cbn [Freq scale].
  destruct (Z.ltb_spec (Freq a) (Freq b)), (Z.ltb_spec (k * Freq a) (k * Freq b));
    (done || nia).
Qed.

Lemma heap_scaled k ns h x :
  0 < k ->
  heap.Init (scale k <$> ns) h = heap.Init ns h /\
  heap.Push (scale k <$> ns) h x = heap.Push ns h x /\
  heap.Pop (scale k <$> ns) h = heap.Pop ns h.
Proof.
  intros Hk. apply heap_less_only. intros h' i j. by apply Less_scaled.
Qed.

(** The loop of [combine] pops the same children from the scaled pool and
    adds up the scaled sum, as long as that is a 64-bit integer. *)
Lemma pop_children_scaled k P nc fuel : forall ns h i f hops ns' h' i' f' hops',
  0 < k -> in_pool ns h -> is_heap ns h ->
  (forall x, x ∈ h -> 0 <= wt ns x) -> 0 <= f ->
  k * (f + zsum (wt ns <$> h)) < 2 ^ 63 ->
  pop_children fuel ns h P nc i f hops = Ok (ns', h', i', f', hops') ->
  pop_children fuel (scale k <$> ns) h P nc i (k * f) hops
  = Ok (scale k <$> ns', h', i', k * f', hops').
Proof.
  induction fuel as [|fuel IH];
    intros ns h i f hops ns' h' i' f' hops' Hk Hv Hheap Hpos Hf Hfit;
    rewrite !pop_children_unfold.
  all: destruct ((i <? nc) && negb (Nat.eqb (length h) 0)) eqn:Econd;
    [|intros [= <- <- <- <- <-]; done].
  - done.
  - apply andb_true_iff in Econd as [_ Hne].
    apply negb_true_iff, Nat.eqb_neq in Hne.
    destruct (Pop_spec ns h Hv Hheap ltac:(lia)) as (h1 & HPop & Hp1 & Hheap1).
    destruct (heap_scaled k ns h 0%nat Hk) as (_ & _ & ->).
    set (c0 := h !!! 0%nat) in *.
    rewrite HPop, !bind_Ok. cbv beta iota zeta.
    assert (c0 ∈ h) as Hc0h by (rewrite Hp1; apply list_elem_of_here).
    assert (c0 < length ns)%nat as Hc0 by (by eapply in_pool_elem).
    rewrite get_scaled, (get_lt ns c0 Hc0), !bind_Ok.
    change (mkNode (Z.of_nat P) i (TotalHops (scale k (ns !!! c0)))
              (Freq (scale k (ns !!! c0))))
      with (scale k (adopt P i (ns !!! c0))).
    change (mkNode (Z.of_nat P) i (TotalHops (ns !!! c0)) (Freq (ns !!! c0)))
      with (adopt P i (ns !!! c0)).
    rewrite set_scaled, set_lt by done. rewrite !bind_Ok.
    set (ns1 := <[c0:=adopt P i (ns !!! c0)]> ns).
    assert (same_payload ns ns1) as Hsp1 by apply same_payload_adopt.
    assert (zsum (wt ns <$> h) = wt ns c0 + zsum (wt ns <$> h1)) as Hsum
      by (by rewrite Hp1).
    assert (forall x, x ∈ h1 -> 0 <= wt ns x) as Hpos1.
    { intros x Hx. apply Hpos. rewrite Hp1. by apply list_elem_of_further. }
    pose proof (Hpos c0 Hc0h) as Hc0pos. fold (wt ns c0) in *.
    assert (0 <= zsum (wt ns <$> h1)) as Hrest.
    { apply zsum_nonneg, Forall_forall. intros w Hw.
      apply list_elem_of_fmap in Hw as (x & -> & Hx). by apply Hpos1. }
    cbn [Freq scale]. fold (wt ns c0).
    assert (wrap64 (f + wt ns c0) = f + wt ns c0) as Hw1
      by (apply wrap64_small; nia).
    assert (wrap64 (k * f + k * wt ns c0) = k * (f + wt ns c0)) as Hw2
      by (rewrite wrap64_small; nia).
    rewrite Hw1, Hw2. cbn [TotalHops scale]. intros Hrun.
    apply IH; try done.
    + eapply same_payload_in_pool; [done|].
      eapply Forall_inv_tail. unfold in_pool in Hv. by rewrite Hp1 in Hv.
    + by eapply same_payload_is_heap.
    + intros x Hx. rewrite (same_payload_wt ns ns1) by done. by apply Hpos1.
    + lia.
    + rewrite (zsum_fmap_ext (wt ns1) (wt ns))
        by (intros; by apply same_payload_wt).
      nia.
Qed.

Lemma combine_scaled base freqs k nc st st' c :
  0 < k -> k * zsum freqs < 2 ^ 63 ->
  tree_inv base freqs st -> exact_inv freqs st ->
  combine nc st = Ok (st', c) ->
  combine nc (scale_state k st) = Ok (scale_state k st', c).
Proof.
  intros Hk Hfit Hi [Hpos Hsum]. unfold combine, scale_state.
  cbn [nodes nodeHeap nextNodeIdx].
  destruct (pop_children (length (nodeHeap st)) (nodes st) (nodeHeap st)
              (nextNodeIdx st) nc 0 0 0)
    as [[[[[ns1 h1] i1] f1] hops1]|e] eqn:Erun; [|done].
  pose proof (pop_children_scaled k (nextNodeIdx st) nc _ _ _ _ _ _ _ _ _ _ _
                Hk (tree_inv_in_pool base freqs st Hi) (inv_is_heap _ _ _ Hi)
                ltac:(intros x Hx; apply Hpos, (inv_heap_lt _ _ _ Hi x Hx))
                (Z.le_refl 0) ltac:(rewrite Hsum; lia) Erun) as Hrun2.
  rewrite Z.mul_0_r in Hrun2. rewrite Hrun2, !bind_Ok. cbv beta iota.
  change (mkNode (-1) (-1) (hops1 + nc) (k * f1))
    with (scale k (mkNode (-1) (-1) (hops1 + nc) f1)).
  rewrite set_scaled.
  destruct (set ns1 (nextNodeIdx st) (mkNode (-1) (-1) (hops1 + nc) f1))
    as [ns2|e]; [|done].
  rewrite !bind_Ok.
  destruct (heap_scaled k ns2 h1 (nextNodeIdx st) Hk) as (_ & -> & _).
  destruct (heap.Push ns2 h1 (nextNodeIdx st)) as [h2|e]; [|done].
  rewrite !bind_Ok. by intros [= <- <-].
Qed.

Lemma combine_loop_scaled base freqs k :
  2 <= base -> (2 <= length freqs)%nat -> 0 < k ->
  zsum freqs < 2 ^ 63 -> k * zsum freqs < 2 ^ 63 ->
  forall fuel st (q : nat),
    tree_inv base freqs st -> exact_inv freqs st ->
    (length freqs < nextNodeIdx st)%nat ->
    Z.of_nat (length (nodeHeap st)) = 1 + (base - 1) * Z.of_nat q ->
    (nextNodeIdx st + q <= length (nodes st))%nat -> (q <= fuel)%nat ->
    exists st' calls,
      combine_loop fuel base st = Ok (st', calls) /\
      combine_loop fuel base (scale_state k st)
      = Ok (scale_state k st', calls).
Proof.
  intros Hbase HC Hk Hfit1 Hfit.
  induction fuel as [|fuel IH]; intros st q Hi He Hnext Hlen Hroom Hfuel.
  - assert (q = 0%nat) as -> by lia. cbn [combine_loop].
    change (nodeHeap (scale_state k st)) with (nodeHeap st).
    rewrite !decide_False by lia. exists st, (@nil combined).
    split; reflexivity.
  - cbn [combine_loop].
    change (nodeHeap (scale_state k st)) with (nodeHeap st).
    destruct (decide (1 < length (nodeHeap st))%nat) as [Hgt|Hle];
      [|exists st, (@nil combined); split; reflexivity].
    destruct q as [|q]; [lia|].
    assert (arity base freqs (nextNodeIdx st) = base) as Har
      by (unfold arity; rewrite decide_False by lia; done).
    destruct (combine_step base freqs Hbase (exact_inv freqs)
                (fun st cs st' Hi HI _ Hc =>
                   exact_inv_step base freqs _ st cs st' Hfit1 Hi HI Hc)
                st HC Hi He ltac:(lia) ltac:(nia))
      as (st1 & Hrun & Hi1 & He1 & Hn1 & Hl1 & Hh1).
    rewrite Har in Hrun, Hh1.
    pose proof (combine_scaled base freqs k base st st1 _ Hk Hfit Hi He Hrun)
      as Hrun2.
    rewrite Hrun, Hrun2, !bind_Ok. cbv beta iota.
    destruct (IH st1 q Hi1 He1 ltac:(lia) ltac:(lia) ltac:(lia) ltac:(lia))
      as (st2 & calls & Hloop & Hloop2).
    rewrite Hloop, Hloop2, !bind_Ok. cbv beta iota. by eexists st2, _.
Qed.

Lemma pool_scaled k (fs : list Z) (m : nat) :
  (leaf <$> (Z.mul k <$> fs)) ++ replicate m zero_node
  = scale k <$> ((leaf <$> fs) ++ replicate m zero_node).
Proof.
  rewrite fmap_app, fmap_replicate, <- !list_fmap_compose. f_equal.
  f_equal. unfold scale, zero_node. cbn. by rewrite Z.mul_0_r.
Qed.

Lemma build_scaled base freqs k :
  2 <= base -> (2 <= length freqs)%nat -> 1 <= k ->
  Forall (fun f => 0 <= f) freqs -> k * zsum freqs < 2 ^ 63 ->
  exists st calls,
    build base freqs = Ok (st, calls) /\
    tree_inv base freqs st /\ length (nodeHeap st) = 1%nat /\
    build base (Z.mul k <$> freqs) = Ok (scale_state k st, calls).
Proof.
  intros Hbase HC Hk Hpos Hfit.
  pose proof (zsum_nonneg freqs Hpos) as Hnn.
  assert (zsum freqs < 2 ^ 63) as Hfit1 by nia.
  unfold build. rewrite !length_fmap.
  pose proof (numIters_pos base freqs Hbase ltac:(lia)) as Hit.
  change (Z.quot (Z.of_nat (length freqs) - 1) (base - 1) + 1)
    with (numIters base freqs).
  change (Z.of_nat (length freqs) + (numIters base freqs))
    with (numNodes base freqs).
  cbv zeta.
  destruct (Z.ltb_spec (numNodes base freqs) 0) as [Hneg|_];
    [unfold numNodes in Hneg; lia|].
  pose proof (fill_leaves_spec freqs [] (Z.to_nat (numNodes base freqs)))
    as Hfill.
  cbn [app length] in Hfill. fold (pool0 base freqs) in Hfill.
  rewrite Hfill by (unfold numNodes; lia).
  pose proof (fill_leaves_spec (Z.mul k <$> freqs) []
                (Z.to_nat (numNodes base freqs))) as Hfill2.
  cbn [app length] in Hfill2. rewrite length_fmap, pool_scaled in Hfill2.
  fold (pool0 base freqs) in Hfill2.
  rewrite Hfill2 by (unfold numNodes; lia).
  rewrite !bind_Ok.
  destruct (heap_scaled k (pool0 base freqs) (seq 0 (length freqs)) 0%nat
              ltac:(lia)) as (-> & _ & _).
  destruct (Init_spec (pool0 base freqs) (seq 0 (length freqs)))
    as (h0 & Hinit & Hp0 & Hheap0).
  { apply Forall_forall. intros x Hx. apply elem_of_seq in Hx.
    rewrite (pool0_length base freqs Hbase) by done. unfold numNodes. lia. }
  rewrite Hinit, !bind_Ok. cbn [nodeHeap].
  pose proof (initial_tree_inv base freqs Hbase h0 HC Hp0 Hheap0) as Hi0.
  pose proof (exact_inv_init base freqs h0 Hpos Hp0) as He0.
  assert (length h0 = length freqs) as Hlen0
    by (apply Permutation_length in Hp0; by rewrite length_seq in Hp0).
  rewrite Hlen0. fold (initial_count base freqs).
  pose proof (initial_count_range base freqs Hbase HC) as Hic.
  destruct (Z.ltb_spec 0 (initial_count base freqs)) as [_|Hbad]; [|lia].
  assert (arity base freqs (length freqs) = initial_count base freqs) as Har
    by (unfold arity; by rewrite decide_True).
  destruct (combine_step base freqs Hbase (exact_inv freqs)
              (fun st cs st' Hi HI _ Hc =>
                 exact_inv_step base freqs _ st cs st' Hfit1 Hi HI Hc)
              (mkState (pool0 base freqs) h0 (length freqs)) HC Hi0 He0)
    as (st1 & Hrun & Hi1 & He1 & Hn1 & Hl1 & Hh1);
    cbn [nodes nodeHeap nextNodeIdx] in *.
  { rewrite (pool0_length base freqs Hbase) by done. unfold numNodes. lia. }
  { lia. }
  rewrite Har in Hrun, Hh1.
  pose proof (combine_scaled base freqs k _ _ st1 _ ltac:(lia) Hfit Hi0 He0
                Hrun) as Hrun2.
  unfold scale_state in Hrun2 at 1. cbn [nodes nodeHeap nextNodeIdx] in Hrun2.
  rewrite Hrun, Hrun2, !bind_Ok. cbv beta iota.
  destruct (first_combine_count base freqs Hbase HC) as (q & Hq & Hroom).
  destruct (combine_loop_scaled base freqs k Hbase HC ltac:(lia) Hfit1 Hfit
              (length (nodeHeap st1)) st1 q Hi1 He1)
    as (st2 & calls & Hloop & Hloop2).
  { lia. }
  { lia. }
  { rewrite Hl1, (pool0_length base freqs Hbase) by done. lia. }
  { nia. }
  destruct (combine_loop_spec base freqs Hbase (fun _ => True)
              (fun _ _ _ _ _ _ _ => Logic.I)
              (length (nodeHeap st1)) st1 q HC Hi1 Logic.I)
    as (st2' & Hloop' & Hi2 & _ & Hone & _).
  { lia. }
  { lia. }
  { rewrite Hl1, (pool0_length base freqs Hbase) by done. lia. }
  { nia. }
  rewrite Hloop in Hloop'. injection Hloop' as <- _.
  cbn [scale_state nodeHeap] in *.
  rewrite Hloop, Hloop2, !bind_Ok. cbv beta iota.
  by eexists st2, _.
Qed.

Lemma walk_scaled k ns : forall fuel c data,
  walk fuel (scale k <$> ns) (scale k c) data = walk fuel ns c data.
Proof.
  induction fuel as [|fuel IH]; intros c data; rewrite !walk_unfold;
    cbn [ParentIndex SiblingIndex scale]; [done|].
  destruct (ParentIndex c =? -1); [done|]. cbv zeta.
  unfold getZ. destruct (ParentIndex c <? 0); [done|].
  rewrite get_scaled. destruct (get ns (Z.to_nat (ParentIndex c))) as [c'|e];
    [|done].
  rewrite !bind_Ok. apply IH.
Qed.

Lemma extract_scaled k ns : forall leaves data labels,
  extract (scale k <$> ns) (scale k <$> leaves) data labels
  = extract ns leaves data labels.
Proof.
  induction leaves as [|n leaves IH]; intros data labels; [done|].
  rewrite fmap_cons. cbn [extract]. rewrite length_fmap, walk_scaled.
  destruct (walk (length ns) ns n data) as [data'|e]; [|done].
  rewrite !bind_Ok. apply IH.
Qed.

(** X24. Frequencies are relative. For [k >= 1] and frequencies that are
    not negative, with [k] times their sum below [2^63], [Label] returns for
    the frequencies multiplied by [k] what it returns for the frequencies
    themselves, whatever the base and the number of items. *)
Theorem Label_scale_invariant (base k : Z) (freqs : list Z) :
  1 <= k -> Forall (fun f => 0 <= f) freqs -> k * zsum freqs < 2 ^ 63 ->
  Label base (Z.mul k <$> freqs) = Label base freqs.
Proof.
  intros Hk Hpos Hfit.
  destruct (decide (2 <= length freqs)%nat) as [HC|HC].
  2: { destruct freqs as [|a [|b rest]]; [done | done | cbn in HC; lia]. }
  rewrite !Label_many by (by rewrite ?length_fmap).
  destruct (Z.ltb_spec base 2) as [|Hbase]; [done|].
  destruct (build_scaled base freqs k Hbase HC Hk Hpos Hfit)
    as (st & calls & -> & Hi & Hone & ->).
  rewrite !bind_Ok, length_fmap. cbn [fst scale_state nodes nodeHeap].
  destruct (get (nodeHeap st) 0) as [root|e]; [|done]. rewrite !bind_Ok.
  rewrite get_scaled. destruct (get (nodes st) root) as [rootNode|e]; [|done].
  rewrite !bind_Ok. cbn [TotalHops scale].
  by rewrite <- fmap_take, extract_scaled.
Qed.

Lemma Label_scale_invariant_witness :
  Label 2 (Z.mul 3 <$> [5; 4; 3; 2; 1]) = Label 2 [5; 4; 3; 2; 1].
Proof.
  apply (Label_scale_invariant 2 3 [5; 4; 3; 2; 1]).
  - lia.
  - repeat constructor; lia.
  - vm_compute. reflexivity.
Defined.

(** * The helpers of the tests

    [assertLabelInvariants] is what the tests of the repository check of
    every result of [Label]; [alphabet] spells labels for them. *)

(** [TestLabel], third case, through [alphabet.Labels] and
    [assertLabelInvariants]. *)
Example test_rapid_ab_like :
  (ls ← Label (alphabet.Size [97; 98]) [1; 1; 1; 1; 1];
   strs ← alphabet.Labels [97; 98] ls;
   Ok (strs, assertLabelInvariants 5 strs))
  = Ok ([[97; 97]; [98; 98; 98]; [98; 97]; [98; 98; 97]; [97; 98]], true).
Proof. vm_compute. reflexivity. Qed.

Lemma HasPrefix_spec (s p : list Z) : HasPrefix s p = true <-> p `prefix_of` s.
Proof.
  unfold HasPrefix. rewrite andb_true_iff, Nat.leb_le, bool_decide_eq_true.
  split.
  - intros [_ Ht]. exists (drop (length p) s).
    rewrite <- Ht at 1. by rewrite take_drop.
  - intros [k ->]. rewrite length_app. split; [lia|].
    by rewrite take_app_length.
Qed.

Lemma seen_loop_spec (labels : list (list Z)) : forall seen,
  seen_loop seen labels = true
  <-> (forall l, l ∈ labels -> l <> []) /\ NoDup labels /\
      (forall l, l ∈ labels -> l ∉ seen).
Proof.
  induction labels as [|l labels IH]; intros seen.
  - cbn. split; [|done]. intros _. split; [|split; [constructor|]];
      intros l Hl; by apply elem_of_nil in Hl.
  - cbn [seen_loop]. case_bool_decide as Hne.
    { split; [done|]. intros [H _]. exfalso.
      by apply (H l); [apply list_elem_of_here|]. }
    case_bool_decide as Hseen.
    { split; [done|]. intros (_ & _ & H). exfalso.
      by apply (H l); [apply list_elem_of_here|]. }
    rewrite IH. split.
    + intros (H1 & H2 & H3). split; [|split].
      * intros x Hx. apply elem_of_cons in Hx as [->|Hx]; [done | by apply H1].
      * constructor; [|done]. intros Hin. apply (H3 l Hin).
        apply elem_of_app. right. apply list_elem_of_here.
      * intros x Hx. apply elem_of_cons in Hx as [->|Hx]; [done|].
        intros Hs. apply (H3 x Hx). apply elem_of_app. by left.
    + intros (H1 & H2 & H3). apply NoDup_cons in H2 as [Hl H2].
      split; [|split; [done|]].
      * intros x Hx. apply H1. by apply list_elem_of_further.
      * intros x Hx Hs. apply elem_of_app in Hs as [Hs|Hs].
        -- by apply (H3 x); [apply list_elem_of_further|].
        -- apply list_elem_of_singleton in Hs as ->. done.
Qed.

Lemma prefix_inner_spec (i : nat) (l : list Z) (rights : list (list Z)) :
  forall j,
  prefix_inner i l j rights = true
  <-> forall k r, rights !! k = Some r -> i <> (j + k)%nat -> ~ r `prefix_of` l.
Proof.
  induction rights as [|r rights IH]; intros j.
  - cbn. split; [|done]. intros _ k r Hk. done.
  - cbn [prefix_inner]. destruct (Nat.eqb_spec i j) as [->|Hij].
    + rewrite IH. split.
      * intros H [|k] r' Hk Hne; [lia|]. cbn in Hk.
        apply (H k r' Hk). lia.
      * intros H k r' Hk Hne. apply (H (S k) r' Hk). lia.
    + destruct (HasPrefix l r) eqn:Ep.
      * split; [done|]. intros H. exfalso.
        apply (H 0%nat r eq_refl); [lia|]. by apply HasPrefix_spec.
      * rewrite IH. split.
        -- intros H [|k] r' Hk Hne.
           ++ cbn in Hk. simplify_eq. intros Hp.
              apply HasPrefix_spec in Hp. congruence.
           ++ cbn in Hk. apply (H k r' Hk). lia.
        -- intros H k r' Hk Hne. apply (H (S k) r' Hk). lia.
Qed.

Lemma prefix_outer_spec (labels lefts : list (list Z)) : forall i,
  prefix_outer labels i lefts = true
  <-> forall k l, lefts !! k = Some l ->
        prefix_inner (i + k) l 0 labels = true.
Proof.
  induction lefts as [|l lefts IH]; intros i.
  - cbn. split; [|done]. intros _ k l Hk. done.
  - cbn [prefix_outer]. destruct (prefix_inner i l 0 labels) eqn:Ei; cbn [negb].
    + rewrite IH. split.
      * intros H [|k] l' Hk; cbn in Hk.
        -- simplify_eq. by rewrite Nat.add_0_r.
        -- replace (i + S k)%nat with (S i + k)%nat by lia. by apply H.
      * intros H k l' Hk. replace (S i + k)%nat with (i + S k)%nat by lia.
        by apply H.
    + split; [done|]. intros H. specialize (H 0%nat l eq_refl).
      rewrite Nat.add_0_r in H. congruence.
Qed.

(** Labels none of which is a prefix of another are distinct. *)
Lemma prefix_free_NoDup (labels : list (list Z)) :
  (forall i j a b, i <> j -> labels !! i = Some a -> labels !! j = Some b ->
     ~ a `prefix_of` b) ->
  NoDup labels.
Proof.
  intros H. apply NoDup_alt. intros i j x Hi Hj.
  destruct (decide (i = j)) as [|Hne]; [done|].
  by destruct (H i j x x Hne Hi Hj).
Qed.

(** What makes [assertLabelInvariants] return [true]. *)
Lemma assertLabelInvariants_accepts (numItems : Z) (labels : list (list Z)) :
  Z.of_nat (length labels) = numItems ->
  (forall l, l ∈ labels -> l <> []) ->
  (forall i j a b, i <> j -> labels !! i = Some a -> labels !! j = Some b ->
     ~ a `prefix_of` b) ->
  assertLabelInvariants numItems labels = true.
Proof.
  intros Hlen Hne Hpf. unfold assertLabelInvariants.
  rewrite (proj2 (Z.eqb_eq _ _) Hlen). cbn [negb].
  assert (seen_loop [] labels = true) as ->.
  { apply seen_loop_spec. split; [done|]. split.
    - by apply prefix_free_NoDup.
    - intros l _ Hin. by apply elem_of_nil in Hin. }
  cbn [negb]. apply prefix_outer_spec. intros k l Hk. cbn.
  apply prefix_inner_spec. intros k' r Hk' Hne'. cbn in Hne'.
  by apply (Hpf k' k).
Qed.

(** X19. [assertLabelInvariants] returns [true] exactly when there are
    [numItems] labels, none of them empty and none a prefix of another; the
    search for duplicates adds nothing to that, since equal labels are
    prefixes of each other. *)
Theorem assertLabelInvariants_spec (numItems : Z) (labels : list (list Z)) :
  assertLabelInvariants numItems labels = true
  <-> Z.of_nat (length labels) = numItems /\
      (forall l, l ∈ labels -> l <> []) /\
      (forall i j a b, i <> j -> labels !! i = Some a -> labels !! j = Some b ->
         ~ a `prefix_of` b).
Proof.
  split; [|intros (H1 & H2 & H3); by apply assertLabelInvariants_accepts].
  unfold assertLabelInvariants.
  destruct (Z.eqb_spec (Z.of_nat (length labels)) numItems) as [Hlen|Hlen];
    cbn [negb]; [|done].
  destruct (seen_loop [] labels) eqn:Es; cbn [negb]; [|done].
  apply seen_loop_spec in Es as (Hne & _ & _).
  rewrite prefix_outer_spec. intros H. split; [done|]. split; [done|].
  intros i j a b Hij Ha Hb. specialize (H j b Hb). cbn in H.
  rewrite prefix_inner_spec in H. apply (H i a Ha). cbn. lia.
Qed.

(** The invariants of the labels, together. *)
Lemma Label_invariants (base : Z) (freqs : list Z) :
  2 <= base ->
  exists ls, Label base freqs = Ok ls /\ length ls = length freqs /\
    (forall l, l ∈ ls -> l <> [] /\ Forall (fun s => 0 <= s < base) l) /\
    (forall i j a b, i <> j -> ls !! i = Some a -> ls !! j = Some b ->
       ~ a `prefix_of` b).
Proof.
  intros Hbase.
  destruct (freqs_cases freqs) as [->|[[f ->]|HC]].
  - exists []. split; [by apply Label_nil|]. split; [done|]. split.
    + intros l Hl. by apply elem_of_nil in Hl.
    + intros i j a b _ Ha. done.
  - exists [[0]]. split; [by apply Label_single|]. split; [done|]. split.
    + intros l Hl. apply list_elem_of_singleton in Hl as ->.
      split; [done|]. constructor; [lia | constructor].
    + intros [|i] [|j] a b Hij Ha Hb; done.
  - destruct (Label_tree base freqs Hbase HC)
      as (st & q & paths & _ & Hinv & Hone & Hnext & _ & Hpaths & HL).
    exists (@rev Z <$> paths). split; [done|].
    pose proof (Forall2_length _ _ _ Hpaths) as Hlen. rewrite length_seq in Hlen.
    split; [by rewrite length_fmap|]. split.
    + intros l Hl. apply list_elem_of_lookup in Hl as [i Hi].
      destruct (Label_lookup freqs st paths _ i l Hpaths eq_refl Hi)
        as (p & Hlt & Hcl & ->).
      split.
      * pose proof (leaf_has_parent base freqs st q i Hinv Hone Hnext Hlt) as Hnr.
        inversion Hcl; subst; [done|]. cbn. intros Heq.
        by apply app_eq_nil in Heq as [_ ?].
      * pose proof (climbs_range base freqs st i p Hbase HC Hinv Hcl ltac:(lia))
          as Hr.
        apply Forall_forall. intros s Hs. rewrite Forall_forall in Hr.
        apply Hr. apply list_elem_of_In. apply in_rev. by apply list_elem_of_In.
    + intros i j a b Hij Ha Hb.
      destruct (Label_lookup freqs st paths _ i a Hpaths eq_refl Ha)
        as (la & Hi & Hcla & ->).
      destruct (Label_lookup freqs st paths _ j b Hpaths eq_refl Hb)
        as (lb & Hj & Hclb & ->).
      intros [k Hk]. apply (f_equal (@rev Z)) in Hk.
      rewrite rev_involutive, rev_app_distr, rev_involutive in Hk.
      destruct (climbs_suffix base freqs st Hinv Hone j lb Hclb ltac:(lia)
                  i la (rev k) ltac:(lia) Hcla Hk) as [H0 H1].
      destruct (rev k) as [|s t]; [by apply Hij, H0|].
      destruct (H1 ltac:(done)) as (c & Hc & Hpc).
      destruct (inv_links _ _ _ Hinv c Hc ltac:(lia)) as (p & Hp & Hpr & _).
      lia.
Qed.

(** ** [alphabet] *)

Lemma encoderune_ascii (r : Z) : 0 <= r <= 127 -> encoderune r = [r].
Proof.
  intros Hr. unfold encoderune.
  destruct (Z.leb_spec 0 r); [|lia]. destruct (Z.leb_spec r 127); [done | lia].
Qed.

Lemma string_of_runes_ascii (rs : list Z) :
  Forall (fun r => 0 <= r <= 127) rs -> string_of_runes rs = rs.
Proof.
  unfold string_of_runes. induction 1 as [|r rs Hr _ IH]; [done|].
  rewrite fmap_cons. cbn [concat]. by rewrite encoderune_ascii, IH.
Qed.

Lemma getZ_in_range {A} `{Inhabited A} (s : list A) (i : Z) :
  0 <= i < Z.of_nat (length s) -> getZ s i = Ok (s !!! Z.to_nat i).
Proof.
  intros Hi. unfold getZ. destruct (Z.ltb_spec i 0); [lia|].
  apply get_lt. lia.
Qed.

Lemma getZ_Ok_range {A} (s : list A) (i : Z) x :
  getZ s i = Ok x -> 0 <= i < Z.of_nat (length s).
Proof.
  unfold getZ. destruct (Z.ltb_spec i 0); [done|]. intros Hg.
  unfold get in Hg. destruct (s !! Z.to_nat i) eqn:E; [|done].
  apply lookup_lt_Some in E. lia.
Qed.

Lemma runes_spec (items indexes : list Z) :
  Forall (fun idx => 0 <= idx < alphabet.Size items) indexes ->
  alphabet.runes items indexes = Ok (item items <$> indexes).
Proof.
  induction 1 as [|idx indexes Hidx _ IH]; [done|].
  cbn [alphabet.runes]. rewrite getZ_in_range by done.
  by rewrite bind_Ok, IH, bind_Ok.
Qed.

Lemma runes_Ok_range (items indexes : list Z) rs :
  alphabet.runes items indexes = Ok rs ->
  Forall (fun idx => 0 <= idx < alphabet.Size items) indexes.
Proof.
  revert rs. induction indexes as [|idx indexes IH]; intros rs Hr; [done|].
  cbn [alphabet.runes] in Hr.
  destruct (getZ items idx) as [r|e] eqn:Eg; [|done].
  rewrite bind_Ok in Hr.
  destruct (alphabet.runes items indexes) as [rs'|e] eqn:Er; [|done].
  constructor; [by eapply getZ_Ok_range | by eapply IH].
Qed.

(** X20. [alphabet.Label] returns, rather than panics with an index out of
    range, exactly when every index lies in [0, Size); it then returns the
    UTF-8 encodings of the characters at the indices, one after another,
    which for an alphabet of ASCII characters are the characters
    themselves. *)
Theorem alphabet_Label_spec (items indexes : list Z) :
  ((exists s, alphabet.Label items indexes = Ok s)
   <-> Forall (fun idx => 0 <= idx < alphabet.Size items) indexes) /\
  (Forall (fun idx => 0 <= idx < alphabet.Size items) indexes ->
   alphabet.Label items indexes
   = Ok (concat (encoderune <$> (item items <$> indexes)))) /\
  (Forall (fun r => 0 <= r <= 127) items ->
   forall s, alphabet.Label items indexes = Ok s ->
     s = item items <$> indexes).
Proof.
  assert (Forall (fun idx => 0 <= idx < alphabet.Size items) indexes ->
          alphabet.Label items indexes
          = Ok (string_of_runes (item items <$> indexes))) as Hok.
  { intros Hr. unfold alphabet.Label. by rewrite runes_spec, bind_Ok. }
  assert (forall s, alphabet.Label items indexes = Ok s ->
          Forall (fun idx => 0 <= idx < alphabet.Size items) indexes) as Hr.
  { intros s Hs. unfold alphabet.Label in Hs.
    destruct (alphabet.runes items indexes) as [rs|e] eqn:Er; [|done].
    by eapply runes_Ok_range. }
  split; [|split].
  - split; [intros [s Hs]; by eapply Hr | intros H; eexists; by apply Hok].
  - done.
  - intros Hascii s Hs. pose proof (Hr s Hs) as Hall.
    rewrite (Hok Hall) in Hs. injection Hs as <-.
    apply string_of_runes_ascii. apply Forall_forall. intros r Hin.
    apply list_elem_of_fmap in Hin as (idx & -> & Hidx).
    rewrite Forall_forall in Hascii. apply Hascii.
    apply list_elem_of_lookup_total_2.
    rewrite Forall_forall in Hall. specialize (Hall idx Hidx).
    unfold alphabet.Size in Hall. lia.
Qed.

Lemma Labels_ascii (items : list Z) (ls : list (list Z)) :
  Forall (fun r => 0 <= r <= 127) items ->
  Forall (Forall (fun idx => 0 <= idx < alphabet.Size items)) ls ->
  alphabet.Labels items ls = Ok (spell items <$> ls).
Proof.
  intros Hascii. induction 1 as [|l ls Hl _ IH]; [done|].
  cbn [alphabet.Labels]. unfold alphabet.Label at 1.
  rewrite (runes_spec items l Hl), !bind_Ok, IH, bind_Ok.
  unfold spell at 2. rewrite string_of_runes_ascii; [done|].
  apply Forall_forall. intros r Hin.
  apply list_elem_of_fmap in Hin as (idx & -> & Hidx).
  rewrite Forall_forall in Hascii. apply Hascii.
  apply list_elem_of_lookup_total_2.
  rewrite Forall_forall in Hl. specialize (Hl idx Hidx).
  unfold alphabet.Size in Hl. lia.
Qed.

Lemma item_inj (items : list Z) (x y : Z) :
  NoDup items -> 0 <= x < alphabet.Size items -> 0 <= y < alphabet.Size items ->
  item items x = item items y -> x = y.
Proof.
  unfold item, alphabet.Size. intros Hnd Hx Hy Heq.
  assert (Z.to_nat x = Z.to_nat y); [|lia].
  apply (NoDup_lookup items _ _ (items !!! Z.to_nat x) Hnd).
  - apply list_lookup_lookup_total_lt. lia.
  - rewrite Heq. apply list_lookup_lookup_total_lt. lia.
Qed.

Lemma fmap_prefix_inj {A B} (f : A -> B) (P : A -> Prop) :
  (forall x y, P x -> P y -> f x = f y -> x = y) ->
  forall l1 l2, Forall P l1 -> Forall P l2 ->
    (f <$> l1) `prefix_of` (f <$> l2) -> l1 `prefix_of` l2.
Proof.
  intros Hinj. induction l1 as [|x l1 IH]; intros l2 H1 H2 Hp.
  - apply prefix_nil.
  - destruct l2 as [|y l2]; [by apply prefix_nil_not in Hp|].
    apply Forall_cons in H1 as [Hx H1]. apply Forall_cons in H2 as [Hy H2].
    rewrite !fmap_cons in Hp.
    pose proof (prefix_cons_inv_1 _ _ _ _ Hp) as Hxy.
    apply prefix_cons_inv_2 in Hp.
    rewrite (Hinj x y Hx Hy Hxy). apply prefix_cons. by apply IH.
Qed.

(** X21. What [TestLabel_rapid] checks holds for every input: for an
    alphabet of two or more distinct ASCII characters and every list of
    frequencies, [Label(Size, freqs)] returns labels, [alphabet.Labels]
    spells them without a panic, and [assertLabelInvariants] accepts the
    result. *)
Theorem test_invariants_hold (items : list Z) (freqs : list Z) :
  2 <= alphabet.Size items -> NoDup items ->
  Forall (fun r => 0 <= r <= 127) items ->
  exists ls strs,
    Label (alphabet.Size items) freqs = Ok ls /\
    alphabet.Labels items ls = Ok strs /\
    assertLabelInvariants (Z.of_nat (length freqs)) strs = true.
Proof.
  intros Hsize Hnd Hascii.
  destruct (Label_invariants (alphabet.Size items) freqs Hsize)
    as (ls & HL & Hlen & Hr & Hpf).
  assert (Forall (Forall (fun idx => 0 <= idx < alphabet.Size items)) ls) as Hall
    by (apply Forall_forall; intros l Hl; by apply Hr).
  exists ls, (spell items <$> ls). split; [done|].
  split; [by apply Labels_ascii|].
  apply assertLabelInvariants_accepts; [by rewrite length_fmap, Hlen| |].
  - intros s Hs. apply list_elem_of_fmap in Hs as (l & -> & Hl).
    destruct (Hr l Hl) as [Hne _]. unfold spell. by destruct l.
  - intros i j a b Hij Ha Hb.
    rewrite list_lookup_fmap in Ha, Hb.
    destruct (ls !! i) as [la|] eqn:Ei; [|done].
    destruct (ls !! j) as [lb|] eqn:Ej; [|done].
    cbn in Ha, Hb. simplify_eq. unfold spell. intros Hp.
    apply (Hpf i j la lb Hij Ei Ej).
    apply (fmap_prefix_inj (item items)
             (fun idx => 0 <= idx < alphabet.Size items)); try done.
    + intros x y Hx Hy. by apply item_inj.
    + apply Hr. by eapply list_elem_of_lookup_2.
    + apply Hr. by eapply list_elem_of_lookup_2.
Qed.

Lemma test_invariants_hold_witness :
  exists ls strs,
    Label (alphabet.Size [97; 98; 99; 100]) [10; 12; 7; 8; 32; 1; 17; 18] = Ok ls /\
    alphabet.Labels [97; 98; 99; 100] ls = Ok strs /\
    assertLabelInvariants (Z.of_nat (length [10; 12; 7; 8; 32; 1; 17; 18])) strs
    = true.
Proof.
  apply (test_invariants_hold [97; 98; 99; 100] [10; 12; 7; 8; 32; 1; 17; 18]).
  - unfold alphabet.Size. cbn. lia.
  - apply (bool_decide_unpack _). vm_compute. reflexivity.
  - repeat constructor; lia.
Defined.
